(** * WorldeSimulator: a shallow embedding of [worldle.py]

    The solver core of the repository (corpus statistics, feedback
    evaluation, candidate filtering, scoring and the simulation loop) is
    transcribed function by function, and the properties stated for it in
    the design document are settled against the transcription.

    Conventions of the embedding:
    - a Python [str] is a [list ascii]; [s[i]] is [s !! i] and raises
      [IndexError] (here: [None]) out of range; [s[i:j]] is [slice s i j]
      and never raises;
    - a Python [dict] whose iteration order is observable ([green]) is an
      insertion-ordered association list with unique keys; the frequency
      tables, only ever read with [.get], are [gmap]s;
    - a Python [set] is a [gset]; the order in which a [for] loop visits a
      set is not fixed by the language, so it is a parameter [set_iter] of
      the embedding;
    - a Python [float] is a binary64 [float] with the processor's
      rounding; the [0] that [.get(k, 0)] supplies for a missing key is
      the float [0]; the builtin [sum] adds from left to right starting at
      [0] (the plain loop of CPython up to 3.11; later versions carry a
      correction term for the rounding error); a count is converted
      exactly, counts staying far below 2^53;
    - [sorted] is the stable sort: the list it returns is fixed by the
      keys as long as [<] orders them; a NaN key compares false with every
      key and is placed by CPython according to its merging strategy, so
      the statements about which candidate comes first assume that no
      score is NaN;
    - a raised exception is [None] (or [Raised] for the simulation). *)

From Stdlib Require Import Ascii String Floats.
From Stdlib Require Uint63.
From stdpp Require Import base numbers strings option list gmap sets sorting.

Set Warnings "-clear-no-such-hyp,-inexact-float".

Abbreviation word := (list ascii) (only parsing).

(** A string literal as a word. *)
Definition wd (s : string) : word := list_ascii_of_string s.

(** ** Python containers *)

Module PyDict.
Section Dict.
Context {K V : Type} `{EqDecision K}.

(** [d.get(k)] *)
Fixpoint get (k : K) (d : list (K * V)) : option V :=
match d with
| [] => None
| (k', v) :: d' => if decide (k = k') then Some v else get k d'
end.

(** [d[k] = v]: an existing key keeps its place, a new key goes last. *)
Fixpoint set (k : K) (v : V) (d : list (K * V)) : list (K * V) :=
match d with
| [] => [(k, v)]
| (k', v') :: d' =>
    if decide (k = k') then (k', v) :: d' else (k', v') :: set k v d'
end.

(** [d.update(e)] *)
Definition update (d e : list (K * V)) : list (K * V) :=
foldl (λ acc kv, set kv.1 kv.2 acc) d e.

(** [d.values()] *)
Definition values (d : list (K * V)) : list V := d.*2.
End Dict.
End PyDict.

(** [s.count(ch)] for a one-character [ch]. *)
Definition str_count (ch : ascii) (s : word) : nat :=
  length (filter (λ c, c = ch) s).

(** [s[i:j]] for [0 <= i]: truncated at the end of [s], never an error. *)
Definition slice (s : word) (i j : nat) : word := take (j - i) (drop i s).

(** An [int] where a [float] is wanted. *)
Definition float_of_nat (n : nat) : float :=
  PrimFloat.of_uint63 (Uint63.of_Z (Z.of_nat n)).

(** [sum(...)] over floats: left to right from [0]. *)
Definition py_sum (l : list float) : float := foldl PrimFloat.add 0%float l.

(** ** Corpus statistics *)

(** [Counter]: [c[k] += 1]. *)
Definition counter_incr `{Countable K} (k : K) (c : gmap K nat) : gmap K nat :=
  <[k := S (default 0 (c !! k))]> c.

(** [sum(c.values())] *)
Definition counter_total `{Countable K} (c : gmap K nat) : nat :=
  map_fold (λ _ n acc, n + acc) 0 c.

(** [{k: count / total for k, count in c.items()}] *)
Definition normalize `{Countable K} (c : gmap K nat) : gmap K float :=
  let total := counter_total c in
  (λ count, (float_of_nat count / float_of_nat total)%float) <$> c.

Definition get_letter_probs (words : list word) : gmap ascii float :=
  let all_letters := concat words in
  let counts := foldl (λ c ch, counter_incr ch c) ∅ all_letters in
  normalize counts.

Definition get_ngram_probs (words : list word) (n : nat) : gmap word float :=
  let ngrams :=
    foldl (λ c w,
             foldl (λ c i, counter_incr (slice w i (i + n)) c) c
                   (seq 0 (length w + 1 - n)))
          ∅ words in
  normalize ngrams.

(** [pos_counts[i][ch] += 1]; [IndexError] when [i] is not a valid index. *)
Definition pos_incr (i : nat) (ch : ascii) (pc : list (gmap ascii nat))
  : option (list (gmap ascii nat)) :=
  c ← pc !! i; Some (<[i := counter_incr ch c]> pc).

Fixpoint pos_word_loop (i : nat) (rest : word) (pc : list (gmap ascii nat))
  : option (list (gmap ascii nat)) :=
  match rest with
  | [] => Some pc
  | ch :: rest' => pc' ← pos_incr i ch pc; pos_word_loop (S i) rest' pc'
  end.

Fixpoint pos_words_loop (words : list word) (pc : list (gmap ascii nat))
  : option (list (gmap ascii nat)) :=
  match words with
  | [] => Some pc
  | w :: ws => pc' ← pos_word_loop 0 w pc; pos_words_loop ws pc'
  end.

Definition get_positional_probs (words : list word)
  : option (list (gmap ascii float)) :=
  match pos_words_loop words (replicate 5 ∅) with
  | Some pos_counts => Some (normalize <$> pos_counts)
  | None => None
  end.

(** ** Feedback *)

Record feedback := Feedback {
  green : list (nat * ascii);
  yellow : list (ascii * nat);
  gray : gset ascii
}.

(** The body of the loop of [get_feedback] at index [i], letter [ch]. *)
Definition feedback_step (guess actual : word) (fb : feedback)
    (i : nat) (ch : ascii) : option feedback :=
  a ← actual !! i;
  if decide (ch = a) then
    Some (Feedback (PyDict.set i ch (green fb)) (yellow fb) (gray fb))
  else if decide (ch ∈ actual) then
    if decide (str_count ch guess ≤ str_count ch actual) then
      Some (Feedback (green fb) (yellow fb ++ [(ch, i)]) (gray fb))
    else
      Some (Feedback (green fb) (yellow fb) (gray fb ∪ {[ch]}))
  else
    Some (Feedback (green fb) (yellow fb) (gray fb ∪ {[ch]})).

(** [for i, ch in enumerate(guess)], from index [i] with [rest] to go. *)
Fixpoint feedback_loop (guess actual : word) (i : nat) (rest : word)
    (fb : feedback) : option feedback :=
  match rest with
  | [] => Some fb
  | ch :: rest' =>
      fb' ← feedback_step guess actual fb i ch;
      feedback_loop guess actual (S i) rest' fb'
  end.

Definition get_feedback (guess actual : word) : option feedback :=
  feedback_loop guess actual 0 guess (Feedback [] [] ∅).

(** ** Filtering *)

(** [for pos, char in green.items()] with its [break]. *)
Fixpoint green_loop (w : word) (green : list (nat * ascii)) : option bool :=
  match green with
  | [] => Some true
  | (pos, char) :: green' =>
      a ← w !! pos;
      if decide (a ≠ char) then Some false else green_loop w green'
  end.

(** [for char, pos in yellow] with its [break]; [or] is short-circuit. *)
Fixpoint yellow_loop (w : word) (yellow : list (ascii * nat)) : option bool :=
  match yellow with
  | [] => Some true
  | (char, pos) :: yellow' =>
      if decide (char ∉ w) then Some false
      else
        a ← w !! pos;
        if decide (a = char) then Some false else yellow_loop w yellow'
  end.

(** The condition under which a gray letter rejects the word. *)
Definition gray_rejects (w : word) (green : list (nat * ascii))
    (yellow : list (ascii * nat)) (char : ascii) : bool :=
  bool_decide (char ∈ w)
  && bool_decide (char ∉ PyDict.values green)
  && forallb (λ y : ascii * nat, bool_decide (char ≠ y.1)) yellow.

(** [for char in gray] with its [break], the set visited in order [grays]. *)
Definition gray_loop (w : word) (green : list (nat * ascii))
    (yellow : list (ascii * nat)) (grays : list ascii) : bool :=
  forallb (λ char, negb (gray_rejects w green yellow char)) grays.

(** ** Scoring *)

Record weights := Weights {
  w_letter : float;
  w_bigram : float;
  w_trigram : float;
  w_position : float;
  w_repeat_penalty : float
}.

(** The weights of the main program. *)
Definition default_weights : weights :=
  Weights 1%float 0.5%float 0.25%float 0.75%float 0.9%float.

(** [d.get(k, 0)] *)
Definition prob `{Countable K} (t : gmap K float) (k : K) : float :=
  default 0%float (t !! k).

(** ** Simulation results *)

(** What the function prints before an unsolved return. *)
Inductive message :=
  | MsgNotInList        (* "Target word ... is not in the list. Skipping." *)
  | MsgNoPossibleWords  (* "no possible words left after filtering." *)
  | MsgNoNewCandidates  (* "No new candidates after filtering." *)
  | MsgGaveUp.          (* "Gave up on ... after 12 attempts." *)

(** The returned pair [(attempts or None, guess_log)] and the message. *)
Record result := Result {
  res_attempts : option nat;
  res_log : list (word * nat);
  res_printed : option message
}.

Inductive outcome :=
  | Returned (r : result)
  | Raised        (* an exception left the function *)
  | OutOfFuel.    (* the loop was still running when the fuel ran out *)

Record sim_state := SimState {
  st_green : list (nat * ascii);
  st_yellow : list (ascii * nat);
  st_gray : gset ascii;
  st_attempts : nat;
  st_possible : list word;
  st_used : gset word;
  st_log : list (word * nat)
}.

Inductive step_result :=
  | Return (r : result)
  | Continue (s : sim_state)
  | Raise.

Definition max_attempts : nat := 12.

(** [sorted(..., reverse=True)]: the stable sort by descending key, keys
    compared with [<]; a word is inserted in front of the first entry
    whose key is not greater. *)
Fixpoint insert_desc (x : float * word) (l : list (float * word))
  : list (float * word) :=
  match l with
  | [] => [x]
  | y :: l' =>
      if (x.1 <? y.1)%float then y :: insert_desc x l' else x :: y :: l'
  end.

Definition sorted_desc (l : list (float * word)) : list (float * word) :=
  foldr insert_desc [] l.

Section Solver.
(** The order in which a [for] loop visits a Python set of letters. *)
Variable set_iter : gset ascii → list ascii.

Definition word_valid (w : word) (green : list (nat * ascii))
    (yellow : list (ascii * nat)) (gray : gset ascii) : option bool :=
  g ← green_loop w green;
  if negb g then Some false
  else
    y ← yellow_loop w yellow;
    if negb y then Some false
    else Some (gray_loop w green yellow (set_iter gray)).

Fixpoint filter_words (words : list word) (green : list (nat * ascii))
    (yellow : list (ascii * nat)) (gray : gset ascii)
  : option (list word) :=
  match words with
  | [] => Some []
  | w :: ws =>
      valid ← word_valid w green yellow gray;
      filtered ← filter_words ws green yellow gray;
      Some (if valid : bool then w :: filtered else filtered)
  end.

Definition score_word (w : word) (letter_probs : gmap ascii float)
    (bigram_probs trigram_probs : gmap word float)
    (pos_probs : list (gmap ascii float)) (wts : weights) : option float :=
  let unique_letters : gset ascii := list_to_set w in
  let repeat_penalty :=
    if decide (size unique_letters < 5) then w_repeat_penalty wts
    else 1%float in
  let letter_score :=
    py_sum (prob letter_probs <$> set_iter unique_letters) in
  let bigram_score :=
    py_sum ((λ i, prob bigram_probs (slice w i (i + 2))) <$> seq 0 4) in
  let trigram_score :=
    py_sum ((λ i, prob trigram_probs (slice w i (i + 3))) <$> seq 0 3) in
  position_terms ←
    mapM (λ i, t ← pos_probs !! i; c ← w !! i; Some (prob t c)) (seq 0 5);
  let position_score := py_sum position_terms in
  Some (repeat_penalty *
          (w_letter wts * letter_score +
           w_bigram wts * bigram_score +
           w_trigram wts * trigram_score +
           w_position wts * position_score))%float.

Section Game.
Variable target_word : word.
Variable wts : weights.
Variable letter_probs : gmap ascii float.
Variable bigram_probs trigram_probs : gmap word float.
Variable pos_probs : list (gmap ascii float).

Definition score (w : word) : option float :=
  score_word w letter_probs bigram_probs trigram_probs pos_probs wts.

(** [[w for w in sorted(possible_words, key=score, reverse=True)
      if w not in used_guesses]] *)
Definition ranked (possible_words : list word) (used : gset word)
  : option (list word) :=
  keys ← mapM score possible_words;
  Some (filter (λ w, w ∉ used)
               (sorted_desc (zip keys possible_words)).*2).

(** One pass through the body of [while True]. *)
Definition sim_step (s : sim_state) : step_result :=
  match st_possible s with
  | [] => Return (Result None (st_log s) (Some MsgNoPossibleWords))
  | _ =>
    match ranked (st_possible s) (st_used s) with
    | None => Raise
    | Some [] => Return (Result None (st_log s) (Some MsgNoNewCandidates))
    | Some (guess :: _) =>
      let used_guesses := st_used s ∪ {[guess]} in
      let attempts := st_attempts s + 1 in
      let guess_log := st_log s ++ [(guess, length (st_possible s))] in
      if decide (guess = target_word) then
        Return (Result (Some attempts) guess_log None)
      else if decide (max_attempts ≤ attempts) then
        Return (Result None guess_log (Some MsgGaveUp))
      else
        match get_feedback guess target_word with
        | None => Raise
        | Some fb =>
          let green := PyDict.update (st_green s) (green fb) in
          let yellow := st_yellow s ++ yellow fb in
          let gray := st_gray s ∪ gray fb in
          match filter_words (st_possible s) green yellow gray with
          | None => Raise
          | Some possible_words =>
            Continue (SimState green yellow gray attempts possible_words
                               used_guesses guess_log)
          end
        end
    end
  end.

(** The [while True] loop, cut off after [fuel] passes. *)
Fixpoint sim_loop (fuel : nat) (s : sim_state) : outcome :=
  match fuel with
  | 0 => OutOfFuel
  | S fuel' =>
      match sim_step s with
      | Return r => Returned r
      | Raise => Raised
      | Continue s' => sim_loop fuel' s'
      end
  end.

Definition sim_init (word_list : list word) : sim_state :=
  SimState [] [] ∅ 0 word_list ∅ [].

Definition simulate_game_stats (fuel : nat) (word_list : list word)
  : outcome :=
  if decide (target_word ∉ word_list) then
    Returned (Result None [] (Some MsgNotInList))
  else sim_loop fuel (sim_init word_list).
End Game.
End Solver.

(** * Feedback: what [get_feedback] computes *)

(** The three signals a letter occurrence can receive. *)
Inductive mark := Fixed | Misplaced | Absent.

Global Instance mark_eq_dec : EqDecision mark.
Proof. solve_decision. Defined.

(** [enumerate(s)], counting from [i]. *)
Definition enumerate_from (i : nat) (s : word) : list (nat * ascii) :=
  zip (seq i (length s)) s.

(** The branch of the loop body taken by the occurrence [p = (i, ch)] of
    the guess: a closed form of the three-way [if] of [get_feedback]. *)
Definition code_mark (guess actual : word) (p : nat * ascii) : mark :=
  if decide (actual !! p.1 = Some p.2) then Fixed
  else if decide (p.2 ∈ actual ∧ str_count p.2 guess ≤ str_count p.2 actual)
       then Misplaced
       else Absent.

(** The signal read back from the returned triple. The gray set holds
    letters, not positions, so an occurrence is absent when it is neither
    green nor yellow and its letter is gray. *)
Definition is_fixed (fb : feedback) (i : nat) (ch : ascii) : Prop :=
  PyDict.get i (green fb) = Some ch.
Definition is_misplaced (fb : feedback) (i : nat) (ch : ascii) : Prop :=
  (ch, i) ∈ yellow fb.
Definition is_absent (fb : feedback) (i : nat) (ch : ascii) : Prop :=
  PyDict.get i (green fb) = None ∧ ¬ is_misplaced fb i ch ∧ ch ∈ gray fb.

(** How many occurrences of [L] were signalled fixed, and misplaced. *)
Definition n_fixed (L : ascii) (fb : feedback) : nat :=
  length (filter (λ p : nat * ascii, p.2 = L) (green fb)).
Definition n_misplaced (L : ascii) (fb : feedback) : nat :=
  length (filter (λ p : ascii * nat, p.1 = L) (yellow fb)).

(** The rule of the design document: a letter that is not an exact match
    is misplaced while its running count in the guess, up to and including
    this occurrence, does not exceed its count in the target. *)
Definition running_mark (guess actual : word) (i : nat) (ch : ascii) : mark :=
  if decide (actual !! i = Some ch) then Fixed
  else if decide (ch ∈ actual
                  ∧ str_count ch (take (S i) guess) ≤ str_count ch actual)
       then Misplaced
       else Absent.

Lemma enumerate_from_cons i ch s :
  enumerate_from i (ch :: s) = (i, ch) :: enumerate_from (S i) s.
Proof. reflexivity. Qed.

Lemma enumerate_from_lookup s : ∀ i j ch,
  (j, ch) ∈ enumerate_from i s ↔ i ≤ j ∧ s !! (j - i) = Some ch.
Proof.
  induction s as [|c s IH]; intros i j ch.
  - cbn. split; [by intros ?%elem_of_nil | by intros [_ ?]].
  - rewrite enumerate_from_cons, elem_of_cons, IH. split.
    + intros [[= -> ->] | [Hle Hs]].
      * split; [lia|]. by rewrite Nat.sub_diag.
      * split; [lia|]. by replace (j - i) with (S (j - S i)) by lia.
    + intros [Hle Hs]. destruct (decide (j = i)) as [->|Hne].
      * left. rewrite Nat.sub_diag in Hs. by injection Hs as ->.
      * right. split; [lia|].
        by replace (j - i) with (S (j - S i)) in Hs by lia.
Qed.

Lemma enumerate_from_keys i s :
  Forall (λ p : nat * ascii, i ≤ p.1) (enumerate_from i s).
Proof.
  apply Forall_forall. intros [j ch] Hin.
  apply enumerate_from_lookup in Hin. simpl. lia.
Qed.

Lemma enumerate_from_NoDup_keys s : ∀ i, NoDup (enumerate_from i s).*1.
Proof.
  induction s as [|c s IH]; intros i; [constructor|].
  rewrite enumerate_from_cons, fmap_cons. constructor; [|apply IH].
  intros Hin. apply list_elem_of_fmap in Hin as [[j ch] [Heq Hin]].
  simpl in Heq. subst j.
  pose proof (enumerate_from_keys (S i) s) as Hk.
  rewrite Forall_forall in Hk. specialize (Hk _ Hin). simpl in Hk. lia.
Qed.

Module PyDictFacts.
Section Facts.
Context {K V : Type} `{EqDecision K}.
Implicit Types d : list (K * V).

Lemma set_fresh k v d :
Forall (λ p, p.1 ≠ k) d → PyDict.set k v d = d ++ [(k, v)].
Proof.
induction 1 as [|[k' v'] d Hk _ IH]; [done|].
simpl in *. rewrite decide_False by done. by rewrite IH.
Qed.

Lemma get_elem_of k v d :
NoDup d.*1 → PyDict.get k d = Some v ↔ (k, v) ∈ d.
Proof.
induction d as [|[k' v'] d IH]; intros Hnd.
- simpl. split; [done | by intros ?%elem_of_nil].
- apply NoDup_cons in Hnd as [Hk' Hnd]. simpl.
  rewrite elem_of_cons. destruct (decide (k = k')) as [->|Hne].
  + split; [intros [= ->]; by left|].
    intros [[= ->]|Hin]; [done|].
    destruct Hk'. apply list_elem_of_fmap. by exists (k', v).
  + rewrite IH by done. split; [by right|].
    by intros [[= ? ?]|?].
Qed.

Lemma get_None k d : PyDict.get k d = None ↔ k ∉ d.*1.
Proof.
induction d as [|[k' v'] d IH]; simpl.
- split; [intros _; apply not_elem_of_nil | done].
- rewrite not_elem_of_cons. destruct (decide (k = k')) as [->|Hne].
  + split; [done | by intros [? _]].
  + rewrite IH. split; [by split | by intros [_ ?]].
Qed.
End Facts.
End PyDictFacts.

(** The lists the loop builds from the occurrences [ps] still to visit. *)
Definition greens_of (guess actual : word) (ps : list (nat * ascii))
  : list (nat * ascii) :=
  filter (λ p, code_mark guess actual p = Fixed) ps.
Definition yellows_of (guess actual : word) (ps : list (nat * ascii))
  : list (ascii * nat) :=
  prod_swap <$> filter (λ p, code_mark guess actual p = Misplaced) ps.
Definition grays_of (guess actual : word) (ps : list (nat * ascii))
  : gset ascii :=
  list_to_set (snd <$> filter (λ p, code_mark guess actual p = Absent) ps).

Lemma feedback_step_mark guess actual fb i ch a :
  actual !! i = Some a →
  Forall (λ p : nat * ascii, p.1 ≠ i) (green fb) →
  feedback_step guess actual fb i ch =
    Some (match code_mark guess actual (i, ch) with
          | Fixed => Feedback (green fb ++ [(i, ch)]) (yellow fb) (gray fb)
          | Misplaced => Feedback (green fb) (yellow fb ++ [(ch, i)]) (gray fb)
          | Absent => Feedback (green fb) (yellow fb) (gray fb ∪ {[ch]})
          end).
Proof.
  intros Ha Hfresh. unfold feedback_step, code_mark. simpl. rewrite Ha. simpl.
  destruct (decide (ch = a)) as [->|Hne].
  - rewrite decide_True by done. by rewrite PyDictFacts.set_fresh.
  - rewrite (decide_False (P := Some a = Some ch)) by congruence.
    destruct (decide (ch ∈ actual)) as [Hin|Hin].
    + destruct (decide (str_count ch guess ≤ str_count ch actual)).
      * by rewrite (decide_True (P := _ ∧ _)).
      * rewrite (decide_False (P := _ ∧ _)); [done | by intros [_ ?]].
    + rewrite (decide_False (P := _ ∧ _)); [done | by intros [? _]].
Qed.

(** The loop in closed form: it cannot raise while the target has a letter
    at every index visited, and each occurrence lands in the container of
    its mark, in guess order. *)
Lemma feedback_loop_closed guess actual : ∀ rest i fb,
  i + length rest ≤ length actual →
  Forall (λ p : nat * ascii, p.1 < i) (green fb) →
  feedback_loop guess actual i rest fb =
    Some (Feedback
            (green fb ++ greens_of guess actual (enumerate_from i rest))
            (yellow fb ++ yellows_of guess actual (enumerate_from i rest))
            (gray fb ∪ grays_of guess actual (enumerate_from i rest))).
Proof.
  induction rest as [|ch rest IH]; intros i fb Hlen Hkeys.
  - simpl. unfold greens_of, yellows_of, grays_of. simpl.
    rewrite !app_nil_r, (right_id_L ∅ (∪)). by destruct fb.
  - simpl in Hlen.
    destruct (lookup_lt_is_Some_2 actual i) as [a Ha]; [lia|].
    cbn [feedback_loop].
    rewrite (feedback_step_mark _ _ _ _ _ a) by
      first [done | eapply Forall_impl; [exact Hkeys | simpl; lia]].
    simpl. rewrite enumerate_from_cons.
    unfold greens_of, yellows_of, grays_of in *.
    rewrite !filter_cons.
    assert (Hkeys' : Forall (λ p : nat * ascii, p.1 < S i) (green fb))
      by (eapply Forall_impl; [exact Hkeys | simpl; lia]).
    destruct (code_mark guess actual (i, ch)) eqn:Hm; simpl;
      rewrite IH; simpl; try lia; try done.
    + by rewrite <- app_assoc.
    + apply Forall_app. split; [done | by repeat constructor].
    + by rewrite <- app_assoc.
    + by rewrite (assoc_L (∪)).
Qed.

Lemma get_feedback_closed guess actual :
  length guess ≤ length actual →
  get_feedback guess actual =
    Some (Feedback (greens_of guess actual (enumerate_from 0 guess))
                   (yellows_of guess actual (enumerate_from 0 guess))
                   (grays_of guess actual (enumerate_from 0 guess))).
Proof.
  intros Hlen. unfold get_feedback.
  rewrite feedback_loop_closed; simpl; [|lia|constructor].
  by rewrite (left_id_L ∅ (∪)).
Qed.

Section FeedbackFacts.
Variables guess actual : word.

Let E := enumerate_from 0 guess.
Let fb := Feedback (greens_of guess actual E) (yellows_of guess actual E)
                   (grays_of guess actual E).

Lemma occurrence_enumerated i ch : guess !! i = Some ch ↔ (i, ch) ∈ E.
Proof.
  unfold E. rewrite enumerate_from_lookup, Nat.sub_0_r.
  split; [intros ?; split; [lia | done] | by intros [_ ?]].
Qed.

Lemma greens_NoDup_keys : NoDup (green fb).*1.
Proof.
  simpl. unfold greens_of.
  eapply sublist_NoDup; [apply (enumerate_from_NoDup_keys guess 0)|].
  apply fmap_sublist, sublist_filter.
Qed.

Lemma is_fixed_mark i ch :
  guess !! i = Some ch →
  is_fixed fb i ch ↔ code_mark guess actual (i, ch) = Fixed.
Proof.
  intros Hocc. unfold is_fixed.
  rewrite PyDictFacts.get_elem_of by apply greens_NoDup_keys.
  simpl. unfold greens_of. rewrite list_elem_of_filter.
  apply occurrence_enumerated in Hocc. naive_solver.
Qed.

Lemma is_misplaced_mark i ch :
  guess !! i = Some ch →
  is_misplaced fb i ch ↔ code_mark guess actual (i, ch) = Misplaced.
Proof.
  intros Hocc. unfold is_misplaced. simpl. unfold yellows_of.
  rewrite list_elem_of_fmap. apply occurrence_enumerated in Hocc. split.
  - intros [[j c] [[= -> ->] Hin]].
    by apply list_elem_of_filter in Hin as [? _].
  - intros Hm. exists (i, ch). split; [done|].
    by apply list_elem_of_filter.
Qed.

Lemma is_absent_mark i ch :
  guess !! i = Some ch →
  is_absent fb i ch ↔ code_mark guess actual (i, ch) = Absent.
Proof.
  intros Hocc. unfold is_absent.
  rewrite is_misplaced_mark by done. split.
  - intros (Hg & Hy & _).
    destruct (code_mark guess actual (i, ch)) eqn:Hm; [|done..].
    apply is_fixed_mark in Hm; [|done]. unfold is_fixed in Hm. congruence.
  - intros Hm. split_and!.
    + apply PyDictFacts.get_None. intros Hin.
      apply list_elem_of_fmap in Hin as [[j c] [Hj Hin]]. simpl in Hj.
      subst j. unfold fb, greens_of in Hin. simpl in Hin.
      apply list_elem_of_filter in Hin as [Hfix Hin].
      apply occurrence_enumerated in Hin. congruence.
    + congruence.
    + simpl. unfold grays_of. apply elem_of_list_to_set.
      apply list_elem_of_fmap. exists (i, ch). split; [done|].
      apply list_elem_of_filter. split; [done|].
      by apply occurrence_enumerated.
Qed.
End FeedbackFacts.

(** Counting the signals of one letter over the occurrences visited. *)
Section FeedbackCounts.
Variables guess actual : word.
Variable L : ascii.

Definition fixed_L (ps : list (nat * ascii)) : nat :=
  length (filter (λ p : nat * ascii, p.2 = L) (greens_of guess actual ps)).
Definition misplaced_L (ps : list (nat * ascii)) : nat :=
  length (filter (λ p : ascii * nat, p.1 = L) (yellows_of guess actual ps)).

Lemma signals_cons p ps :
  fixed_L (p :: ps) + misplaced_L (p :: ps) =
  (if decide (p.2 = L ∧ code_mark guess actual p ≠ Absent) then 1 else 0)
  + (fixed_L ps + misplaced_L ps).
Proof.
  unfold fixed_L, misplaced_L, greens_of, yellows_of.
  rewrite !(filter_cons _ p).
  destruct (code_mark guess actual p) eqn:Hm; simpl;
    repeat (rewrite ?fmap_cons, ?filter_cons; simpl);
    destruct (decide (p.2 = L));
    repeat case_decide; simpl; try lia; naive_solver.
Qed.

Lemma fixed_cons p ps :
  fixed_L (p :: ps) =
  (if decide (p.2 = L ∧ actual !! p.1 = Some p.2) then 1 else 0)
  + fixed_L ps.
Proof.
  unfold fixed_L, greens_of, code_mark. rewrite !(filter_cons _ p).
  repeat (case_decide; simpl; rewrite ?filter_cons); simpl;
    repeat case_decide; simpl; try lia; naive_solver.
Qed.

Lemma misplaced_none ps :
  ¬ str_count L guess ≤ str_count L actual → misplaced_L ps = 0.
Proof.
  intros Hexcess. unfold misplaced_L, yellows_of.
  induction ps as [|p ps IH]; [done|].
  rewrite filter_cons. unfold code_mark at 1.
  repeat case_decide; simpl; try done.
  rewrite filter_cons. case_decide; [|done].
  simpl in *. subst. naive_solver.
Qed.

Lemma str_count_cons c s :
  str_count L (c :: s) = (if decide (c = L) then 1 else 0) + str_count L s.
Proof. unfold str_count. rewrite filter_cons. by case_decide. Qed.

(** Every signalled occurrence of [L] is an occurrence of [L]. *)
Lemma signals_le_guess rest : ∀ i,
  fixed_L (enumerate_from i rest) + misplaced_L (enumerate_from i rest)
  ≤ str_count L rest.
Proof.
  induction rest as [|c rest IH]; intros i; [done|].
  rewrite enumerate_from_cons, signals_cons, str_count_cons. simpl.
  specialize (IH (S i)). repeat case_decide; naive_solver lia.
Qed.

(** Every fixed occurrence of [L] faces an [L] of the target. *)
Lemma fixed_le_target rest : ∀ i,
  i + length rest ≤ length actual →
  fixed_L (enumerate_from i rest) ≤ str_count L (drop i actual).
Proof.
  induction rest as [|c rest IH]; intros i Hlen; [cbn; lia|].
  simpl in Hlen.
  destruct (lookup_lt_is_Some_2 actual i) as [a Ha]; [lia|].
  rewrite enumerate_from_cons, fixed_cons, (drop_S _ _ _ Ha), str_count_cons.
  simpl. specialize (IH (S i)). rewrite Ha.
  repeat case_decide; naive_solver lia.
Qed.
End FeedbackCounts.

Lemma drop_0_str_count L (s : word) : str_count L (drop 0 s) = str_count L s.
Proof. reflexivity. Qed.

(** C2. For a guess and a target of equal length [get_feedback] returns,
    every letter occurrence of the guess receives exactly one of the three
    signals fixed, misplaced, absent, and for every letter [L] the
    occurrences signalled fixed plus those signalled misplaced are at most
    the occurrences of [L] in the target. *)
Theorem get_feedback_classifies (guess target : word) :
  length guess = length target →
  ∃ fb, get_feedback guess target = Some fb ∧
    (∀ i ch, guess !! i = Some ch →
       (is_fixed fb i ch ∨ is_misplaced fb i ch ∨ is_absent fb i ch) ∧
       ¬ (is_fixed fb i ch ∧ is_misplaced fb i ch) ∧
       ¬ (is_fixed fb i ch ∧ is_absent fb i ch) ∧
       ¬ (is_misplaced fb i ch ∧ is_absent fb i ch)) ∧
    (∀ L, n_fixed L fb + n_misplaced L fb ≤ str_count L target).
Proof.
  intros Hlen. eexists. split; [apply get_feedback_closed; lia|]. split.
  - intros i ch Hocc.
    rewrite is_fixed_mark, is_misplaced_mark, is_absent_mark by done.
    destruct (code_mark guess target (i, ch)); naive_solver.
  - intros L. unfold n_fixed, n_misplaced. simpl.
    change (fixed_L guess target L (enumerate_from 0 guess)
            + misplaced_L guess target L (enumerate_from 0 guess)
            ≤ str_count L target).
    destruct (decide (str_count L guess ≤ str_count L target)) as [Hle|Hgt].
    + etrans; [apply signals_le_guess | done].
    + rewrite misplaced_none by done. rewrite Nat.add_0_r.
      rewrite <- (drop_0_str_count L target).
      apply fixed_le_target. simpl. lia.
Qed.

Lemma get_feedback_classifies_witness :
  length (wd "aaaaa") = length (wd "aabbb") ∧
  ∃ fb, get_feedback (wd "aaaaa") (wd "aabbb") = Some fb ∧
    (∀ i ch, wd "aaaaa" !! i = Some ch →
       (is_fixed fb i ch ∨ is_misplaced fb i ch ∨ is_absent fb i ch) ∧
       ¬ (is_fixed fb i ch ∧ is_misplaced fb i ch) ∧
       ¬ (is_fixed fb i ch ∧ is_absent fb i ch) ∧
       ¬ (is_misplaced fb i ch ∧ is_absent fb i ch)) ∧
    (∀ L, n_fixed L fb + n_misplaced L fb ≤ str_count L (wd "aabbb")).
Proof.
  split; [reflexivity|].
  apply (get_feedback_classifies (wd "aaaaa") (wd "aabbb")). reflexivity.
Defined.

(** What the code does with a letter that is not an exact match: the
    comparison is between the two whole-word counts, so the occurrences of
    one letter that are not exact matches are all misplaced or all absent. *)
Lemma get_feedback_whole_count (guess target : word) :
  length guess = length target →
  ∃ fb, get_feedback guess target = Some fb ∧
    ∀ i ch, guess !! i = Some ch → target !! i ≠ Some ch →
      (is_misplaced fb i ch ↔
         ch ∈ target ∧ str_count ch guess ≤ str_count ch target) ∧
      (is_absent fb i ch ↔
         ¬ (ch ∈ target ∧ str_count ch guess ≤ str_count ch target)).
Proof.
  intros Hlen. eexists. split; [apply get_feedback_closed; lia|].
  intros i ch Hocc Hne.
  rewrite is_misplaced_mark, is_absent_mark by done.
  unfold code_mark. simpl. rewrite decide_False by done.
  case_decide; naive_solver.
Qed.

(** C1 (the code departs from the document). Target "stale" has one 'l',
    guess "llano" has two, neither in place. The running-count rule marks
    the first misplaced and the second absent; [get_feedback] marks both
    absent, so no occurrence of 'l' is signalled present. *)
Theorem get_feedback_llano_stale :
  str_count "l" (wd "stale") = 1 ∧ str_count "l" (wd "llano") = 2 ∧
  running_mark (wd "llano") (wd "stale") 0 "l" = Misplaced ∧
  running_mark (wd "llano") (wd "stale") 1 "l" = Absent ∧
  ∃ fb, get_feedback (wd "llano") (wd "stale") = Some fb ∧
    is_absent fb 0 "l" ∧ is_absent fb 1 "l" ∧
    n_fixed "l" fb + n_misplaced "l" fb = 0.
Proof.
  split_and!; try by vm_compute.
  eexists. split; [apply get_feedback_closed; vm_compute; lia|].
  split_and!.
  - by apply is_absent_mark.
  - by apply is_absent_mark.
  - by vm_compute.
Qed.

(** * Filtering: which words [filter_words] keeps *)

(** A [for] loop over a set visits every member exactly once. *)
Definition visits_each_once (set_iter : gset ascii → list ascii) : Prop :=
  ∀ s, set_iter s ≡ₚ elements s.

(** The condition the code tests: a gray letter is waived altogether as
    soon as it is the letter of any green entry or of any yellow entry. *)
Definition retained (w : word) (green : list (nat * ascii))
    (yellow : list (ascii * nat)) (gray : gset ascii) : Prop :=
  (∀ pos char, (pos, char) ∈ green → w !! pos = Some char) ∧
  (∀ char pos, (char, pos) ∈ yellow → char ∈ w ∧ w !! pos ≠ Some char) ∧
  (∀ char, char ∈ gray →
     char ∉ w ∨ char ∈ PyDict.values green ∨ char ∈ yellow.*1).

(** The condition of the design document: an occurrence of an absent
    letter is tolerated only at a position accounted for by an entry of
    that letter, a fixed entry accounting for its own position and a
    misplaced entry for any position but its own. *)
Definition accounted_for (fixed : list (nat * ascii))
    (misplaced : list (ascii * nat)) (letter : ascii) (p : nat) : Prop :=
  (p, letter) ∈ fixed ∨ ∃ q, (letter, q) ∈ misplaced ∧ q ≠ p.

Definition spec_retained (w : word) (fixed : list (nat * ascii))
    (misplaced : list (ascii * nat)) (absent : gset ascii) : Prop :=
  (∀ pos letter, (pos, letter) ∈ fixed → w !! pos = Some letter) ∧
  (∀ letter pos, (letter, pos) ∈ misplaced →
     letter ∈ w ∧ w !! pos ≠ Some letter) ∧
  (∀ letter, letter ∈ absent →
     letter ∉ w ∨
     ∀ p, w !! p = Some letter → accounted_for fixed misplaced letter p).

(** Every index the loops may read exists in every candidate. *)
Definition positions_in_range (words : list word)
    (green : list (nat * ascii)) (yellow : list (ascii * nat)) : Prop :=
  ∀ w, w ∈ words →
    Forall (λ p : nat * ascii, p.1 < length w) green ∧
    Forall (λ p : ascii * nat, p.2 < length w) yellow.

Lemma green_loop_spec w green b :
  green_loop w green = Some b →
  (b = true ↔ ∀ pos char, (pos, char) ∈ green → w !! pos = Some char).
Proof.
  revert b. induction green as [|[pos char] green IH]; intros b; simpl.
  - intros [= <-]. split; [by intros _ ? ? ?%elem_of_nil | done].
  - destruct (w !! pos) as [a|] eqn:Ha; simpl; [|done].
    destruct (decide (a ≠ char)) as [Hne|Heq].
    + intros [= <-]. split; [done|]. intros Hall.
      specialize (Hall pos char (list_elem_of_here _ _)). congruence.
    + apply dec_stable in Heq. subst a. intros Hloop.
      rewrite (IH _ Hloop). split.
      * intros Hall p c [[= -> ->]|Hin]%elem_of_cons; [done | by apply Hall].
      * intros Hall p c Hin. apply Hall. by right.
Qed.

Lemma green_loop_total w green :
  Forall (λ p : nat * ascii, p.1 < length w) green →
  is_Some (green_loop w green).
Proof.
  induction 1 as [|[pos char] green Hpos _ IH]; simpl; [done|].
  destruct (lookup_lt_is_Some_2 w pos Hpos) as [a ->]. simpl.
  by case_decide.
Qed.

Lemma yellow_loop_spec w yellow b :
  yellow_loop w yellow = Some b →
  (b = true ↔
   ∀ char pos, (char, pos) ∈ yellow → char ∈ w ∧ w !! pos ≠ Some char).
Proof.
  revert b. induction yellow as [|[char pos] yellow IH]; intros b; simpl.
  - intros [= <-]. split; [by intros _ ? ? ?%elem_of_nil | done].
  - destruct (decide (char ∉ w)) as [Hnin|Hin].
    { intros [= <-]. split; [done|]. intros Hall.
      by destruct (Hall char pos (list_elem_of_here _ _)) as [? _]. }
    apply dec_stable in Hin.
    destruct (w !! pos) as [a|] eqn:Ha; simpl; [|done].
    destruct (decide (a = char)) as [->|Hne].
    + intros [= <-]. split; [done|]. intros Hall.
      by destruct (Hall char pos (list_elem_of_here _ _)) as [_ ?].
    + intros Hloop. rewrite (IH _ Hloop). split.
      * intros Hall c p [[= -> ->]|Hin']%elem_of_cons; [|by apply Hall].
        split; [done | congruence].
      * intros Hall c p Hin'. apply Hall. by right.
Qed.

Lemma yellow_loop_total w yellow :
  Forall (λ p : ascii * nat, p.2 < length w) yellow →
  is_Some (yellow_loop w yellow).
Proof.
  induction 1 as [|[char pos] yellow Hpos _ IH]; simpl; [done|].
  case_decide; [done|].
  destruct (lookup_lt_is_Some_2 w pos Hpos) as [a ->]. simpl.
  by case_decide.
Qed.

Lemma gray_rejects_spec w green yellow char :
  gray_rejects w green yellow char = false ↔
  char ∉ w ∨ char ∈ PyDict.values green ∨ char ∈ yellow.*1.
Proof.
  unfold gray_rejects.
  rewrite !andb_false_iff, !bool_decide_eq_false.
  assert (forallb (λ y : ascii * nat, bool_decide (char ≠ y.1)) yellow = false
          ↔ char ∈ yellow.*1) as ->.
  { induction yellow as [|[c p] yellow IH]; simpl.
    - split; [done | by intros ?%elem_of_nil].
    - rewrite andb_false_iff, bool_decide_eq_false, IH, elem_of_cons.
      split; (intros [?|?]; [left | by right]);
        [by apply dec_stable | by intros ?]. }
  split.
  - intros [[?|Hg]|?]; [by left | right; left; by apply dec_stable
                        | right; by right].
  - intros [?|[?|?]]; [left; by left | left; right; by intros ? | by right].
Qed.

Lemma gray_loop_spec w green yellow grays :
  gray_loop w green yellow grays = true ↔
  ∀ char, char ∈ grays →
    char ∉ w ∨ char ∈ PyDict.values green ∨ char ∈ yellow.*1.
Proof.
  unfold gray_loop. rewrite forallb_forall. split.
  - intros Hall char Hin. apply gray_rejects_spec.
    apply negb_true_iff, Hall. by apply list_elem_of_In.
  - intros Hall char Hin. apply negb_true_iff, gray_rejects_spec, Hall.
    by apply list_elem_of_In.
Qed.

(** The gray loop does not depend on the order of the visit. *)
Lemma gray_loop_perm w green yellow grays grays' :
  grays ≡ₚ grays' →
  gray_loop w green yellow grays = gray_loop w green yellow grays'.
Proof.
  intros Hperm. apply eq_true_iff_eq. rewrite !gray_loop_spec.
  by setoid_rewrite Hperm.
Qed.

Section FilterFacts.
Variable set_iter : gset ascii → list ascii.
Implicit Types (green : list (nat * ascii)) (yellow : list (ascii * nat)).
Implicit Types (gray : gset ascii) (words out : list word).

Lemma word_valid_spec w green yellow gray b :
  visits_each_once set_iter →
  word_valid set_iter w green yellow gray = Some b →
  (b = true ↔ retained w green yellow gray).
Proof.
  intros Hiter. unfold word_valid, retained.
  destruct (green_loop w green) as [g|] eqn:Hg; simpl; [|done].
  apply green_loop_spec in Hg. destruct g; simpl.
  2:{ intros [= <-]. split; [done|]. intros [Hgreen _].
      by apply Hg in Hgreen. }
  destruct (yellow_loop w yellow) as [y|] eqn:Hy; simpl; [|done].
  apply yellow_loop_spec in Hy. destruct y; simpl.
  2:{ intros [= <-]. split; [done|]. intros (_ & Hyellow & _).
      by apply Hy in Hyellow. }
  intros [= <-]. rewrite gray_loop_spec.
  destruct Hg as [Hg _], Hy as [Hy _].
  specialize (Hg eq_refl). specialize (Hy eq_refl).
  split.
  - intros Hgray. split_and!; [done..|].
    intros char Hin. apply Hgray. rewrite (Hiter gray).
    by apply elem_of_elements.
  - intros (_ & _ & Hgray) char Hin. apply Hgray.
    rewrite (Hiter gray) in Hin. by apply elem_of_elements in Hin.
Qed.

Lemma word_valid_total w green yellow gray :
  Forall (λ p : nat * ascii, p.1 < length w) green →
  Forall (λ p : ascii * nat, p.2 < length w) yellow →
  is_Some (word_valid set_iter w green yellow gray).
Proof.
  intros Hg Hy. unfold word_valid.
  destruct (green_loop_total w green Hg) as [g ->]. simpl.
  destruct g; simpl; [|done].
  destruct (yellow_loop_total w yellow Hy) as [y ->]. simpl.
  by destruct y.
Qed.

(** The loop over the candidates keeps, in order, the words found valid. *)
Lemma filter_words_closed words green yellow gray out :
  filter_words set_iter words green yellow gray = Some out →
  Forall (λ w, is_Some (word_valid set_iter w green yellow gray)) words ∧
  out = filter (λ w, word_valid set_iter w green yellow gray = Some true)
               words.
Proof.
  revert out. induction words as [|w words IH]; intros out; simpl.
  - by intros [= <-].
  - destruct (word_valid set_iter w green yellow gray) as [b|] eqn:Hb;
      simpl; [|done].
    destruct (filter_words set_iter words green yellow gray) as [rest|];
      simpl; [|done].
    intros [= <-]. destruct (IH rest eq_refl) as [Hall ->].
    split; [constructor; [by rewrite Hb | done]|].
    rewrite filter_cons, Hb. destruct b.
    + by rewrite decide_True.
    + by rewrite decide_False.
Qed.

Lemma filter_words_total words green yellow gray :
  positions_in_range words green yellow →
  is_Some (filter_words set_iter words green yellow gray).
Proof.
  induction words as [|w words IH]; intros Hrange; simpl; [done|].
  destruct (Hrange w) as [Hg Hy]; [by left|].
  destruct (word_valid_total w green yellow gray Hg Hy) as [b ->]. simpl.
  destruct IH as [rest ->]; [|done].
  intros w' Hin. apply Hrange. by right.
Qed.

(** C3, as the code has it. Whenever [filter_words] returns, a word is in
    the result exactly when it is a candidate and: every green entry
    [(pos, char)] has [w[pos] == char]; every yellow entry [(char, pos)]
    has [char] somewhere in [w] but not at [pos]; and every gray letter
    is not in [w], or is the letter of some green entry or of some yellow
    entry (at any position). It returns when every index is in range. *)
Theorem filter_words_retains words green yellow gray :
  visits_each_once set_iter →
  (∀ out, filter_words set_iter words green yellow gray = Some out →
     ∀ w, w ∈ out ↔ w ∈ words ∧ retained w green yellow gray) ∧
  (positions_in_range words green yellow →
     is_Some (filter_words set_iter words green yellow gray)).
Proof.
  intros Hiter. split; [|apply filter_words_total].
  intros out Hout w. apply filter_words_closed in Hout as [Hall ->].
  rewrite list_elem_of_filter. split.
  - intros [Hvalid Hin]. split; [done|].
    by apply (word_valid_spec _ _ _ _ true).
  - intros [Hin Hret]. split; [|done].
    rewrite Forall_forall in Hall. destruct (Hall w Hin) as [b Hb].
    rewrite Hb. f_equal. by apply (word_valid_spec _ _ _ _ _ Hiter Hb).
Qed.

(** C4. The result of [filter_words] is a subsequence of the candidates:
    the kept words stand in their input order, there are no more of them
    than candidates, and no candidates give no words. It returns when
    every index is in range. *)
Theorem filter_words_sublist words green yellow gray :
  filter_words set_iter [] green yellow gray = Some [] ∧
  (∀ out, filter_words set_iter words green yellow gray = Some out →
     out `sublist_of` words ∧ length out ≤ length words) ∧
  (positions_in_range words green yellow →
     is_Some (filter_words set_iter words green yellow gray)).
Proof.
  split_and!; [done | | apply filter_words_total].
  intros out Hout. apply filter_words_closed in Hout as [_ ->].
  split; [apply sublist_filter | apply length_filter].
Qed.
End FilterFacts.

Lemma filter_words_retains_witness :
  visits_each_once elements ∧
  (∀ out, filter_words elements [wd "stale"; wd "llama"]
            [(4, "e"%char)] [("a"%char, 0)] {["p"%char]} = Some out →
     ∀ w, w ∈ out ↔
          w ∈ [wd "stale"; wd "llama"]
          ∧ retained w [(4, "e"%char)] [("a"%char, 0)] {["p"%char]}) ∧
  (positions_in_range [wd "stale"; wd "llama"]
     [(4, "e"%char)] [("a"%char, 0)] →
   is_Some (filter_words elements [wd "stale"; wd "llama"]
              [(4, "e"%char)] [("a"%char, 0)] {["p"%char]})).
Proof.
  split; [intros s; reflexivity|].
  apply (filter_words_retains elements [wd "stale"; wd "llama"]
           [(4, "e"%char)] [("a"%char, 0)] {["p"%char]}).
  intros s. reflexivity.
Defined.

(** C3 (the document's wording fails). With 'a' fixed at position 0 and also
    absent, "aabcd" is kept although its second 'a' stands at a position no
    entry accounts for. *)
Lemma filter_words_keeps_unaccounted :
  filter_words elements [wd "aabcd"] [(0, "a"%char)] [] {["a"%char]}
    = Some [wd "aabcd"] ∧
  ¬ spec_retained (wd "aabcd") [(0, "a"%char)] [] {["a"%char]}.
Proof.
  split; [by vm_compute|].
  intros (_ & _ & Habsent).
  destruct (Habsent "a"%char) as [Hnin|Hacc]; [set_solver| |].
  - apply Hnin. by vm_compute; left.
  - destruct (Hacc 1 eq_refl) as [Hfix|(q & Hin & _)].
    + by apply list_elem_of_singleton in Hfix.
    + by apply elem_of_nil in Hin.
Qed.

Lemma filter_words_sublist_witness :
  positions_in_range [wd "stale"; wd "llama"] [(4, "e"%char)] [] ∧
  filter_words elements [] [(4, "e"%char)] [] ∅ = Some [] ∧
  (∀ out, filter_words elements [wd "stale"; wd "llama"]
            [(4, "e"%char)] [] ∅ = Some out →
     out `sublist_of` [wd "stale"; wd "llama"]
     ∧ length out ≤ length [wd "stale"; wd "llama"]) ∧
  (positions_in_range [wd "stale"; wd "llama"] [(4, "e"%char)] [] →
   is_Some (filter_words elements [wd "stale"; wd "llama"]
              [(4, "e"%char)] [] ∅)).
Proof.
  split.
  - intros w Hin. split; [|constructor].
    repeat constructor. simpl.
    apply elem_of_cons in Hin as [->|Hin]; [vm_compute; lia|].
    apply list_elem_of_singleton in Hin as ->. vm_compute; lia.
  - apply (filter_words_sublist elements [wd "stale"; wd "llama"]
             [(4, "e"%char)] [] ∅).
Defined.

Lemma length_filter_impl {A} (P Q : A → Prop)
    `{∀ x, Decision (P x)} `{∀ x, Decision (Q x)} (l : list A) :
  (∀ x, x ∈ l → P x → Q x) → length (filter P l) ≤ length (filter Q l).
Proof.
  induction l as [|x l IH]; intros Himpl; [done|].
  rewrite !filter_cons.
  assert (length (filter P l) ≤ length (filter Q l))
    by (apply IH; intros y Hy; apply Himpl; by right).
  destruct (decide (P x)) as [HP|HP].
  - rewrite decide_True by (apply Himpl; [by left | done]). simpl. lia.
  - case_decide; simpl; lia.
Qed.

(** C5 (the document's wording fails). Adding the fixed entry [1 ↦ 'a'] to the
    constraint "'a' is absent" waives the absent letter, and "bacde", which
    the smaller constraints reject, is kept by the larger ones. *)
Lemma filter_words_superset_grows :
  ([] : list (nat * ascii)) ⊆ [(1, "a"%char)] ∧
  filter_words elements [wd "bacde"] [] [] {["a"%char]} = Some [] ∧
  filter_words elements [wd "bacde"] [(1, "a"%char)] [] {["a"%char]}
    = Some [wd "bacde"].
Proof. split_and!; [apply list_subseteq_nil | by vm_compute..]. Qed.

(** C5, as the code has it. When the larger constraints contain the smaller
    ones and waive no absent letter that the smaller ones do not waive, the
    larger constraints keep at most as many words. *)
Theorem filter_words_monotone (set_iter : gset ascii → list ascii)
    (words : list word)
    (green green' : list (nat * ascii)) (yellow yellow' : list (ascii * nat))
    (gray gray' : gset ascii) :
  visits_each_once set_iter →
  green ⊆ green' → yellow ⊆ yellow' → gray ⊆ gray' →
  (∀ c, c ∈ gray →
     c ∈ PyDict.values green' ∨ c ∈ yellow'.*1 →
     c ∈ PyDict.values green ∨ c ∈ yellow.*1) →
  positions_in_range words green' yellow' →
  ∃ out out',
    filter_words set_iter words green yellow gray = Some out ∧
    filter_words set_iter words green' yellow' gray' = Some out' ∧
    length out' ≤ length out.
Proof.
  intros Hiter Hg Hy Hr Hwaive Hrange.
  assert (Hrange0 : positions_in_range words green yellow).
  { intros w Hin. destruct (Hrange w Hin) as [Hg' Hy'].
    rewrite Forall_forall in Hg'. rewrite Forall_forall in Hy'.
    split; apply Forall_forall; intros p Hp; [apply Hg' | apply Hy']; auto. }
  destruct (filter_words_total set_iter words green yellow gray Hrange0)
    as [out Hout].
  destruct (filter_words_total set_iter words green' yellow' gray' Hrange)
    as [out' Hout'].
  exists out, out'. split_and!; [done..|].
  apply filter_words_closed in Hout as [Hall ->].
  apply filter_words_closed in Hout' as [_ ->].
  apply length_filter_impl. intros w Hin Hvalid'.
  rewrite Forall_forall in Hall. destruct (Hall w Hin) as [b Hb].
  rewrite Hb. f_equal. apply (word_valid_spec _ _ _ _ _ _ Hiter Hb).
  destruct (proj1 (word_valid_spec _ _ _ _ _ _ Hiter Hvalid') eq_refl)
    as (Hgreen & Hyellow & Hgray).
  split_and!.
  - intros pos char Hin'. apply Hgreen. by apply Hg.
  - intros char pos Hin'. apply Hyellow. by apply Hy.
  - intros char Hin'.
    destruct (Hgray char (Hr _ Hin')) as [?|Hw]; [by left|].
    right. by apply Hwaive.
Qed.

Lemma filter_words_monotone_witness :
  visits_each_once elements ∧
  ([] : list (nat * ascii)) ⊆ [(4, "e"%char)] ∧
  ([] : list (ascii * nat)) ⊆ [] ∧
  ({["a"%char]} : gset ascii) ⊆ {["a"%char; "p"%char]} ∧
  ∃ out out',
    filter_words elements [wd "stale"; wd "crone"] [] [] {["a"%char]}
      = Some out ∧
    filter_words elements [wd "stale"; wd "crone"] [(4, "e"%char)] []
      {["a"%char; "p"%char]} = Some out' ∧
    length out' ≤ length out.
Proof.
  assert (Hiter : visits_each_once elements) by (intros s; reflexivity).
  assert (Hg : ([] : list (nat * ascii)) ⊆ [(4, "e"%char)])
    by apply list_subseteq_nil.
  assert (Hr : ({["a"%char]} : gset ascii) ⊆ {["a"%char; "p"%char]})
    by set_solver.
  split_and!; [done..|].
  apply (filter_words_monotone elements [wd "stale"; wd "crone"]
           [] [(4, "e"%char)] [] [] {["a"%char]} {["a"%char; "p"%char]});
    [done..| |].
  - intros c Hc [Hin|Hin]; [|by apply elem_of_nil in Hin].
    apply list_elem_of_singleton in Hin. subst c.
    apply elem_of_singleton in Hc. discriminate Hc.
  - intros w Hin. split; [|constructor].
    repeat constructor. simpl.
    apply elem_of_cons in Hin as [->|Hin]; [vm_compute; lia|].
    apply list_elem_of_singleton in Hin as ->. vm_compute; lia.
Defined.

(** * Scoring: the formula [score_word] evaluates *)

(** The contiguous [n]-grams of a word, one per window position. *)
Definition ngrams (n : nat) (w : word) : list word :=
  (λ i, take n (drop i w)) <$> seq 0 (length w + 1 - n).

(** Orders in which a set of letters can be visited: by hash slot, the
    multiplier [seed] standing for the hash seed of the process. With seed
    1 the letters come by code point. *)
Definition slot (seed : nat) (c : ascii) : nat :=
  (seed * nat_of_ascii c) mod 257.

Definition slot_le (seed : nat) (a b : ascii) : Prop :=
  slot seed a ≤ slot seed b.

Global Instance slot_le_dec seed : RelDecision (slot_le seed).
Proof. intros a b. unfold slot_le. apply _. Defined.

Definition by_slot (seed : nat) (s : gset ascii) : list ascii :=
  merge_sort (slot_le seed) (elements s).

(** The score as the design document words it, the distinct letters taken
    in the order [distinct]: the letter table over the distinct letters,
    the n-gram tables over every window, the position tables letter by
    letter, and the penalty unless the letters are all distinct. *)
Definition spec_score (distinct : list ascii) (w : word)
    (letter_probs : gmap ascii float)
    (bigram_probs trigram_probs : gmap word float)
    (pos_probs : list (gmap ascii float)) (wts : weights) : float :=
  let letterScore := py_sum (prob letter_probs <$> distinct) in
  let bigramScore := py_sum (prob bigram_probs <$> ngrams 2 w) in
  let trigramScore := py_sum (prob trigram_probs <$> ngrams 3 w) in
  let positionScore := py_sum (zip_with prob pos_probs w) in
  let repeatPenalty_or_1 :=
    if decide (NoDup w) then 1%float else w_repeat_penalty wts in
  (repeatPenalty_or_1 *
     (w_letter wts * letterScore + w_bigram wts * bigramScore +
      w_trigram wts * trigramScore + w_position wts * positionScore))%float.

Lemma by_slot_visits_each_once seed : visits_each_once (by_slot seed).
Proof. intros s. apply merge_sort_Permutation. Qed.

Lemma py_sum_snoc (l : list float) (x : float) :
  py_sum (l ++ [x]) = (py_sum l + x)%float.
Proof. unfold py_sum. by rewrite foldl_app. Qed.

Lemma remove_dups_length_le {A} `{EqDecision A} (l : list A) :
  length (remove_dups l) ≤ length l.
Proof.
  induction l as [|x l IH]; simpl; [done|].
  destruct (decide_rel _ x l); simpl; lia.
Qed.

Lemma remove_dups_length_NoDup {A} `{EqDecision A} (l : list A) :
  length (remove_dups l) = length l ↔ NoDup l.
Proof.
  induction l as [|x l IH]; simpl.
  - split; [constructor | done].
  - rewrite NoDup_cons. pose proof (remove_dups_length_le l).
    destruct (decide_rel _ x l) as [Hin|Hnin]; simpl.
    + split; [lia | by intros [? _]].
    + rewrite <- IH. split; [intros [=]; by split | intros [_ ?]; lia].
Qed.

Lemma elements_letters (w : word) :
  elements (list_to_set w : gset ascii) ≡ₚ remove_dups w.
Proof.
  apply NoDup_Permutation; [apply NoDup_elements | apply NoDup_remove_dups|].
  intros c. by rewrite elem_of_elements, elem_of_list_to_set,
    elem_of_remove_dups.
Qed.

Lemma repeated_letter_iff (w : word) :
  length w = 5 → size (list_to_set w : gset ascii) < 5 ↔ ¬ NoDup w.
Proof.
  intros Hlen. unfold size, set_size. simpl.
  rewrite (elements_letters w), <- remove_dups_length_NoDup.
  pose proof (remove_dups_length_le w). lia.
Qed.

(** The letters a loop over [set(word)] visits: each letter of the word,
    once. *)
Lemma set_iter_letters (set_iter : gset ascii → list ascii) (w : word) :
  visits_each_once set_iter →
  NoDup (set_iter (list_to_set w)) ∧
  ∀ c, c ∈ set_iter (list_to_set w) ↔ c ∈ w.
Proof.
  intros Hiter. split.
  - rewrite (Hiter _). apply NoDup_elements.
  - intros c. by rewrite (Hiter _), elem_of_elements, elem_of_list_to_set.
Qed.

(** C6. For a five-letter word and five position tables [score_word]
    returns [repeatPenalty_or_1 * (letter * letterScore + bigram *
    bigramScore + trigram * trigramScore + position * positionScore)] in
    binary64 arithmetic, the four products added from left to right. The
    letter score is the sum of the letter table over the distinct letters of
    the word, each taken once, in the order the set is visited; the other
    scores are the sums over the 4 bigrams, the 3 trigrams and the 5
    positions from left to right. A key a table holds counts with the
    value held, a missing key counts 0; a sum starts at 0 and adds its
    terms in order; the penalty applies exactly when the letters are not
    all distinct. *)
Theorem score_word_formula (set_iter : gset ascii → list ascii) (w : word)
    (letter_probs : gmap ascii float)
    (bigram_probs trigram_probs : gmap word float)
    (pos_probs : list (gmap ascii float)) (wts : weights) :
  visits_each_once set_iter →
  length w = 5 → length pos_probs = 5 →
  let distinct := set_iter (list_to_set w) in
  score_word set_iter w letter_probs bigram_probs trigram_probs pos_probs wts
    = Some (spec_score distinct w letter_probs bigram_probs trigram_probs
                       pos_probs wts) ∧
  (NoDup distinct ∧ ∀ c, c ∈ distinct ↔ c ∈ w) ∧
  (∃ c0 c1 c2 c3 c4 t0 t1 t2 t3 t4,
     w = [c0; c1; c2; c3; c4] ∧ pos_probs = [t0; t1; t2; t3; t4] ∧
     ngrams 2 w = [[c0; c1]; [c1; c2]; [c2; c3]; [c3; c4]] ∧
     ngrams 3 w = [[c0; c1; c2]; [c1; c2; c3]; [c2; c3; c4]] ∧
     zip_with prob pos_probs w
     = [prob t0 c0; prob t1 c1; prob t2 c2; prob t3 c3; prob t4 c4]) ∧
  (∀ (t : gmap ascii float) k,
     prob t k = match t !! k with Some v => v | None => 0%float end) ∧
  (∀ (t : gmap word float) k,
     prob t k = match t !! k with Some v => v | None => 0%float end) ∧
  py_sum [] = 0%float ∧
  (∀ l x, py_sum (l ++ [x]) = (py_sum l + x)%float).
Proof.
  intros Hiter Hw Hpp distinct. split_and!.
  - unfold score_word, spec_score, distinct.
    pose proof (repeated_letter_iff w Hw) as Hrep.
    destruct (decide (size (list_to_set w : gset ascii) < 5)) as [Hlt|Hge];
      [rewrite decide_False by (by apply Hrep)
      |rewrite decide_True by (apply dec_stable; by rewrite <- Hrep)].
    all: destruct w as [|a [|b [|c [|d [|e [|? ?]]]]]]; try discriminate Hw.
    all: destruct pos_probs as [|t0 [|t1 [|t2 [|t3 [|t4 [|? ?]]]]]];
      try discriminate Hpp.
    all: reflexivity.
  - by apply set_iter_letters.
  - by apply set_iter_letters.
  - destruct w as [|c0 [|c1 [|c2 [|c3 [|c4 [|? ?]]]]]]; try discriminate Hw.
    destruct pos_probs as [|t0 [|t1 [|t2 [|t3 [|t4 [|? ?]]]]]];
      try discriminate Hpp.
    by exists c0, c1, c2, c3, c4, t0, t1, t2, t3, t4.
  - intros t k. unfold prob. by destruct (t !! k).
  - intros t k. unfold prob. by destruct (t !! k).
  - done.
  - apply py_sum_snoc.
Qed.

(** The corpus of the scenario of the design document, with the tables
    the main program builds from it. *)
Definition scenario : list word :=
  [wd "apple"; wd "angle"; wd "table"; wd "stale"; wd "crane"].

Definition scenario_pos_probs : list (gmap ascii float) :=
  default [] (get_positional_probs scenario).

Lemma scenario_pos_probs_built :
  get_positional_probs scenario = Some scenario_pos_probs.
Proof. reflexivity. Qed.

Lemma score_word_formula_witness :
  visits_each_once (by_slot 1) ∧
  length (wd "apple") = 5 ∧ length scenario_pos_probs = 5 ∧
  score_word (by_slot 1) (wd "apple") (get_letter_probs scenario)
    (get_ngram_probs scenario 2) (get_ngram_probs scenario 3)
    scenario_pos_probs default_weights
  = Some (spec_score (wd "aelp") (wd "apple") (get_letter_probs scenario)
            (get_ngram_probs scenario 2) (get_ngram_probs scenario 3)
            scenario_pos_probs default_weights) ∧
  spec_score (wd "aelp") (wd "apple") (get_letter_probs scenario)
    (get_ngram_probs scenario 2) (get_ngram_probs scenario 3)
    scenario_pos_probs default_weights
  = 2.5335000000000005%float.
Proof.
  pose proof (by_slot_visits_each_once 1) as Hiter.
  split_and!; [done..| |by vm_compute].
  by apply (score_word_formula (by_slot 1) (wd "apple")
              (get_letter_probs scenario) (get_ngram_probs scenario 2)
              (get_ngram_probs scenario 3) scenario_pos_probs
              default_weights).
Defined.

(** * The simulation loop *)

Section GameFacts.
Variable set_iter : gset ascii → list ascii.
Variable target_word : word.
Variable wts : weights.
Variable letter_probs : gmap ascii float.
Variable bigram_probs trigram_probs : gmap word float.
Variable pos_probs : list (gmap ascii float).

Let step := sim_step set_iter target_word wts letter_probs bigram_probs
                     trigram_probs pos_probs.
Let loop := sim_loop set_iter target_word wts letter_probs bigram_probs
                     trigram_probs pos_probs.
Let simulate := simulate_game_stats set_iter target_word wts letter_probs
                  bigram_probs trigram_probs pos_probs.

(** What one pass of the loop can do. *)
Inductive step_shape (s : sim_state) : step_result → Prop :=
  | shape_raise : step_shape s Raise
  | shape_stuck msg :
      step_shape s (Return (Result None (st_log s) (Some msg)))
  | shape_solved n :
      step_shape s
        (Return (Result (Some (st_attempts s + 1))
                        (st_log s ++ [(target_word, n)]) None))
  | shape_gave_up guess n :
      max_attempts ≤ st_attempts s + 1 →
      step_shape s
        (Return (Result None (st_log s ++ [(guess, n)]) (Some MsgGaveUp)))
  | shape_continue s' guess n :
      st_attempts s' = st_attempts s + 1 →
      st_attempts s' < max_attempts →
      st_log s' = st_log s ++ [(guess, n)] →
      step_shape s (Continue s').

Lemma sim_step_shape s : step_shape s (step s).
Proof.
  unfold step, sim_step.
  destruct (st_possible s) as [|w0 ws] eqn:Hposs; [constructor|].
  destruct (ranked _ _ _ _ _ _ _ _) as [[|guess rest]|];
    [constructor | |constructor].
  destruct (decide (guess = target_word)) as [->|Hne]; [constructor|].
  destruct (decide (max_attempts ≤ st_attempts s + 1)) as [Hmax|Hmax];
    [by constructor|].
  destruct (get_feedback guess target_word) as [fb|]; [|constructor].
  destruct (filter_words _ _ _ _ _) as [possible_words|]; [|constructor].
  eapply shape_continue; simpl; [done | lia | done].
Qed.

(** Twelve passes are enough, whatever the state the loop starts in. *)
Lemma sim_loop_enough_fuel : ∀ fuel s,
  0 < fuel → max_attempts ≤ st_attempts s + fuel →
  loop fuel s ≠ OutOfFuel.
Proof.
  induction fuel as [|fuel IH]; intros s Hpos Hfuel; [lia|].
  unfold loop in *. simpl. fold step.
  destruct (sim_step_shape s); try done.
  apply IH; lia.
Qed.

Lemma sim_loop_fuel_mono : ∀ fuel fuel' s,
  fuel ≤ fuel' → loop fuel s ≠ OutOfFuel → loop fuel' s = loop fuel s.
Proof.
  induction fuel as [|fuel IH]; intros fuel' s Hle Hrun; [done|].
  destruct fuel' as [|fuel']; [lia|].
  unfold loop in *. simpl in *.
  destruct (sim_step _ _ _ _ _ _ _ s); try done.
  apply IH; [lia | done].
Qed.

(** The attempt counter and the guess log move together. *)
Lemma sim_loop_result : ∀ fuel s r,
  st_attempts s = length (st_log s) → st_attempts s < max_attempts →
  loop fuel s = Returned r →
  length (st_log s) ≤ length (res_log r) ≤ max_attempts ∧
  ∀ a, res_attempts r = Some a →
    a = length (res_log r) ∧ ∃ n, last (res_log r) = Some (target_word, n).
Proof.
  induction fuel as [|fuel IH]; intros s r Hinv Hlt; [done|].
  unfold loop in *. simpl. fold step.
  destruct (sim_step_shape s) as [|msg|n|guess n Hmax|s' guess n Ha Hlt' Hl].
  - done.
  - intros [= <-]. simpl. split; [lia | done].
  - intros [= <-]. simpl. rewrite length_app. simpl.
    split; [lia|]. intros a [= <-]. split; [lia|].
    exists n. by rewrite last_snoc.
  - intros [= <-]. simpl. rewrite length_app. simpl. split; [lia | done].
  - intros Hret. apply IH in Hret as [Hlog Hsolved]; [| |done].
    + split; [|done]. rewrite Hl, length_app in Hlog. simpl in Hlog. lia.
    + rewrite Ha, Hl, length_app. simpl. lia.
Qed.

(** C8. A target that is not in the word list is turned away before the
    loop starts: the function returns the unsolved result with an empty
    guess log, no guess having been issued, and raises nothing. *)
Theorem simulate_rejects_unknown_target (word_list : list word) fuel :
  target_word ∉ word_list →
  simulate fuel word_list = Returned (Result None [] (Some MsgNotInList)).
Proof.
  intros Hnin. unfold simulate, simulate_game_stats.
  by rewrite decide_True.
Qed.
End GameFacts.

Lemma simulate_rejects_unknown_target_witness :
(wd "zzzzz" ∉ [wd "stale"; wd "crane"]) ∧
  simulate_game_stats elements (wd "zzzzz") default_weights ∅ ∅ ∅
    (replicate 5 ∅) 12 [wd "stale"; wd "crane"]
  = Returned (Result None [] (Some MsgNotInList)).
Proof.
  assert (Hnin : wd "zzzzz" ∉ [wd "stale"; wd "crane"]).
  { intros Hin. apply elem_of_cons in Hin as [Heq|Hin]; [discriminate Heq|].
    apply list_elem_of_singleton in Hin. discriminate Hin. }
  split; [done|].
  by apply (simulate_rejects_unknown_target elements (wd "zzzzz")
              default_weights ∅ ∅ ∅ (replicate 5 ∅)
              [wd "stale"; wd "crane"] 12).
Defined.

(** * Ranking: the stable descending sort and the guess it puts first *)

(** ** The order of floats *)

(** [a < b] as Python compares two floats: false as soon as one is NaN. *)
Definition flt (a b : float) : Prop := (a <? b)%float = true.

Definition not_nan (a : float) : Prop := is_nan a = false.

(** The place of a float in the order: the class of its sign first, then
    exponent and mantissa, mirrored below zero. *)
Definition rank (x : spec_float) : Z * Z * Z :=
  match x with
  | S754_zero _ | S754_nan => (0, 0, 0)
  | S754_infinity s => (if s then -2 else 2, 0, 0)
  | S754_finite s m e => if s then (-1, - e, - Z.pos m) else (1, e, Z.pos m)
  end%Z.

Definition lex_lt (a b : Z * Z * Z) : Prop :=
  (a.1.1 < b.1.1 ∨
   a.1.1 = b.1.1 ∧ (a.1.2 < b.1.2 ∨ a.1.2 = b.1.2 ∧ a.2 < b.2))%Z.

Lemma SFltb_rank (x y : spec_float) :
  x ≠ S754_nan → y ≠ S754_nan →
  SFltb x y = true ↔ lex_lt (rank x) (rank y).
Proof.
  intros Hx Hy. unfold SFltb, lex_lt.
  destruct x as [sx|sx| |sx mx ex], y as [sy|sy| |sy my ey]; try done;
    simpl; try destruct sx; try destruct sy; simpl;
    try (split; [done | lia]); try (split; [lia | done]).
  all: rewrite Pos.compare_cont_spec; simpl.
  all: destruct (Z.compare_spec ex ey); simpl;
    try destruct (Pos.compare_spec mx my); simpl;
    split; try done; try lia.
Qed.

Lemma is_nan_Prim2SF (a : float) : is_nan a = true ↔ Prim2SF a = S754_nan.
Proof.
  unfold is_nan. rewrite FloatAxioms.eqb_spec. unfold SFeqb.
  destruct (Prim2SF a) as [s|s| |s m e]; simpl; try destruct s; simpl;
    try (split; done).
  all: rewrite Z.compare_refl, Pos.compare_cont_refl; simpl; split; done.
Qed.

Lemma not_nan_Prim2SF (a : float) : not_nan a ↔ Prim2SF a ≠ S754_nan.
Proof.
  unfold not_nan. rewrite <- is_nan_Prim2SF. by destruct (is_nan a).
Qed.

Lemma flt_rank (a b : float) :
  flt a b ↔
  not_nan a ∧ not_nan b ∧ lex_lt (rank (Prim2SF a)) (rank (Prim2SF b)).
Proof.
  unfold flt. rewrite FloatAxioms.ltb_spec, !not_nan_Prim2SF. split.
  - intros Hlt.
    assert (Ha : Prim2SF a ≠ S754_nan) by (intros Ha; by rewrite Ha in Hlt).
    assert (Hb : Prim2SF b ≠ S754_nan).
    { intros Hb. rewrite Hb in Hlt. by destruct (Prim2SF a). }
    split_and!; [done..|]. by apply SFltb_rank.
  - intros (Ha & Hb & Hlt). by apply SFltb_rank.
Qed.

Lemma flt_asym (a b : float) : flt a b → ¬ flt b a.
Proof.
  rewrite !flt_rank. unfold lex_lt. intros (_ & _ & ?) (_ & _ & ?). lia.
Qed.

Lemma flt_trans (a b c : float) : flt a b → flt b c → flt a c.
Proof.
  rewrite !flt_rank. unfold lex_lt. intros (? & ? & ?) (_ & ? & ?).
  split_and!; [done..|]. lia.
Qed.

(** A float that is not NaN lies above the lower or below the upper of two
    floats in order. *)
Lemma flt_between (a b c : float) :
  flt a c → not_nan b → flt a b ∨ flt b c.
Proof.
  rewrite !flt_rank. unfold lex_lt. intros (Ha & Hc & Hlt) Hb.
  destruct (decide (lex_lt (rank (Prim2SF a)) (rank (Prim2SF b)))) as [?|Hn].
  - by left.
  - right. split_and!; [done..|]. unfold lex_lt in *. lia.
Qed.

(** ** The sort *)

(** [a] may stand before [b] in descending key order. *)
Definition desc (a b : float * word) : Prop := ¬ flt a.1 b.1.

(** [a] stands before [b] in [l]. *)
Definition stands_before {A} (a b : A) (l : list A) : Prop :=
  [a; b] `sublist_of` l.

Lemma insert_desc_perm x l : insert_desc x l ≡ₚ x :: l.
Proof.
  induction l as [|y l IH]; simpl; [done|].
  destruct (x.1 <? y.1)%float; [|done]. rewrite IH. apply Permutation_swap.
Qed.

Lemma sorted_desc_perm l : sorted_desc l ≡ₚ l.
Proof.
  induction l as [|x l IH]; simpl; [done|].
  by rewrite insert_desc_perm, IH.
Qed.

Lemma insert_desc_sorted x l :
  Forall (λ p : float * word, not_nan p.1) l →
  StronglySorted desc l → StronglySorted desc (insert_desc x l).
Proof.
  induction l as [|y l IH]; simpl; intros Hnan Hs.
  - repeat constructor.
  - apply Forall_cons in Hnan as [Hy' Hnan].
    apply StronglySorted_cons in Hs as [Hy Hs].
    destruct (x.1 <? y.1)%float eqn:Hlt.
    + apply StronglySorted_cons. split; [|by apply IH].
      rewrite insert_desc_perm. constructor; [|done].
      by apply flt_asym.
    + assert (Hxy : desc x y) by (unfold desc, flt; by rewrite Hlt).
      repeat (apply StronglySorted_cons; split); try done.
      constructor; [done|].
      eapply Forall_impl; [exact Hy|]. intros z Hz. unfold desc in *.
      intros Hxz. by destruct (flt_between _ y.1 _ Hxz Hy').
Qed.

(** When no key is NaN the sort returns its input rearranged in descending
    key order. *)
Lemma sorted_desc_sorted l :
  Forall (λ p : float * word, not_nan p.1) l →
  StronglySorted desc (sorted_desc l).
Proof.
  induction l as [|x l IH]; simpl; intros Hnan; [constructor|].
  apply Forall_cons in Hnan as [_ Hnan].
  apply insert_desc_sorted; [by rewrite sorted_desc_perm | by apply IH].
Qed.

Lemma insert_desc_split x l :
  ∃ l1 l2, l = l1 ++ l2 ∧ insert_desc x l = l1 ++ x :: l2 ∧
    Forall (λ y, flt x.1 y.1) l1.
Proof.
  induction l as [|y l (l1 & l2 & -> & Heq & Hall)]; simpl.
  - by exists [], [].
  - destruct (x.1 <? y.1)%float eqn:Hlt.
    + exists (y :: l1), l2. rewrite Heq. split_and!; [done..|].
      by constructor.
    + by exists [], (y :: l1 ++ l2).
Qed.

Lemma singleton_sublist {A} (x : A) (l : list A) :
  x ∈ l → [x] `sublist_of` l.
Proof.
  intros (l1 & l2 & ->)%list_elem_of_split.
  apply sublist_inserts_l. constructor. apply sublist_nil_l.
Qed.

Lemma insert_desc_sublist x l : l `sublist_of` insert_desc x l.
Proof.
  destruct (insert_desc_split x l) as (l1 & l2 & -> & -> & _).
  apply sublist_app; [done|]. by apply sublist_cons.
Qed.

(** The sort is stable: an entry whose key is not below the key of an
    entry further down the input stays in front of it. *)
Lemma sorted_desc_stable l a b :
  stands_before a b l → ¬ flt a.1 b.1 → stands_before a b (sorted_desc l).
Proof.
  unfold stands_before. intros Hsub Hge.
  induction l as [|x l IH]; simpl in *.
  - by apply sublist_nil_r in Hsub.
  - apply sublist_cons_r in Hsub as [Hsub|(l' & [= <- <-] & Hb)].
    + etrans; [by apply IH | apply insert_desc_sublist].
    + destruct (insert_desc_split a (sorted_desc l))
        as (l1 & l2 & Hl & -> & Hl1).
      assert (Hin : b ∈ l2).
      { assert (b ∈ sorted_desc l) as Hin
          by (rewrite sorted_desc_perm; apply (elem_of_sublist [b]);
              [apply list_elem_of_here | done]).
        rewrite Hl in Hin. apply elem_of_app in Hin as [Hin|Hin]; [|done].
        rewrite Forall_forall in Hl1. by destruct (Hge (Hl1 b Hin)). }
      apply sublist_inserts_l. constructor. by apply singleton_sublist.
Qed.

Section Pick.
Variable P : float * word → Prop.
Context `{∀ x, Decision (P x)}.

(** The first entry of the sorted list that passes the test [P]. *)
Definition pick (l : list (float * word)) : option (float * word) :=
  head (filter P (sorted_desc l)).

Lemma head_filter_insert x l :
  Forall (λ p : float * word, not_nan p.1) l →
  StronglySorted desc l →
  head (filter P (insert_desc x l)) =
    if decide (P x) then
      match head (filter P l) with
      | Some y => if (x.1 <? y.1)%float then Some y else Some x
      | None => Some x
      end
    else head (filter P l).
Proof.
  induction l as [|z l IH]; intros Hnan Hs.
  - simpl. rewrite filter_cons. by case_decide.
  - apply Forall_cons in Hnan as [Hz' Hnan].
    apply StronglySorted_cons in Hs as [Hz Hs]. simpl.
    destruct (x.1 <? z.1)%float eqn:Hlt.
    + rewrite !(filter_cons _ z). destruct (decide (P z)); simpl.
      * case_decide; [|done]. by rewrite Hlt.
      * by apply IH.
    + rewrite (filter_cons _ x). destruct (decide (P x)); [|done]. simpl.
      destruct (head (filter P (z :: l))) as [y|] eqn:Hy; [|done].
      destruct (x.1 <? y.1)%float eqn:Hxy; [|done]. exfalso.
      apply head_Some_elem_of, list_elem_of_filter in Hy as [_ Hy].
      apply elem_of_cons in Hy as [->|Hy]; [by rewrite Hlt in Hxy|].
      rewrite Forall_forall in Hz.
      destruct (flt_between _ z.1 _ Hxy Hz') as [Hxz|Hzy].
      * unfold flt in Hxz. by rewrite Hlt in Hxz.
      * by apply (Hz y Hy).
Qed.

Lemma pick_cons x l :
  Forall (λ p : float * word, not_nan p.1) l →
  pick (x :: l) =
    if decide (P x) then
      match pick l with
      | Some y => if (x.1 <? y.1)%float then Some y else Some x
      | None => Some x
      end
    else pick l.
Proof.
  intros Hnan. apply head_filter_insert; [|by apply sorted_desc_sorted].
  by rewrite sorted_desc_perm.
Qed.

Lemma pick_None l : pick l = None → ∀ y, y ∈ l → ¬ P y.
Proof.
  unfold pick. intros Hnone y Hin HP.
  assert (y ∈ filter P (sorted_desc l)) as Hy.
  { apply list_elem_of_filter. split; [done|].
    by rewrite sorted_desc_perm. }
  destruct (filter P (sorted_desc l)); [by apply elem_of_nil in Hy | done].
Qed.

(** Ties go to the earlier entry: when no key is NaN the entry picked
    passes the test, the passing entries before it have strictly smaller
    keys, and those after it have keys that are not greater. *)
Lemma pick_first l x :
  Forall (λ p : float * word, not_nan p.1) l →
  pick l = Some x →
  ∃ before after, l = before ++ x :: after ∧ P x ∧
    (∀ y, y ∈ before → P y → flt y.1 x.1) ∧
    (∀ y, y ∈ after → P y → ¬ flt x.1 y.1).
Proof.
  revert x. induction l as [|a l IH]; intros x Hnan; [done|].
  apply Forall_cons in Hnan as [Ha' Hnan].
  rewrite pick_cons by done. destruct (decide (P a)) as [Ha|Ha].
  - destruct (pick l) as [y|] eqn:Hy.
    + destruct (IH y Hnan eq_refl) as (l1 & l2 & -> & Hy' & Hbefore & Hafter).
      assert (Hynan : not_nan y.1).
      { rewrite Forall_forall in Hnan. apply Hnan. set_solver. }
      destruct (a.1 <? y.1)%float eqn:Hlt; intros [= <-].
      * exists (a :: l1), l2. split_and!; [done..| |done].
        intros z [->|Hz]%elem_of_cons; [done | by apply Hbefore].
      * exists [], (l1 ++ y :: l2). split_and!; [done..| |].
        { by intros z ?%elem_of_nil. }
        assert (Hge : ¬ flt a.1 y.1) by (unfold flt; by rewrite Hlt).
        intros z Hz HPz Haz. apply elem_of_app in Hz as [Hz|Hz].
        { apply Hge. eapply flt_trans; [exact Haz | by apply Hbefore]. }
        apply elem_of_cons in Hz as [->|Hz]; [done|].
        destruct (flt_between _ y.1 _ Haz Hynan) as [?|Hyz]; [done|].
        by apply (Hafter z Hz HPz).
    + intros [= <-]. exists [], l. split_and!; [done..| |].
      * by intros z ?%elem_of_nil.
      * intros z Hz HPz. by destruct (pick_None l Hy z Hz).
  - intros Hx.
    destruct (IH x Hnan Hx) as (l1 & l2 & -> & Hx' & Hbefore & Hafter).
    exists (a :: l1), l2. split_and!; [done..| |done].
    intros z [->|Hz]%elem_of_cons; [done | by apply Hbefore].
Qed.
End Pick.

Lemma filter_snd_fmap {A B} (Q : B → Prop) `{∀ y, Decision (Q y)}
    (l : list (A * B)) :
  filter Q l.*2 = (filter (λ p : A * B, Q p.2) l).*2.
Proof.
  induction l as [|p l IH]; [done|].
  rewrite fmap_cons, !filter_cons, IH. by case_decide.
Qed.

Lemma Forall2_zip_elem {A B} (R : A → B → Prop) (l : list A) (k : list B) :
  Forall2 R l k → ∀ x y, (y, x) ∈ zip k l → R x y.
Proof.
  induction 1 as [|x0 y0 l k HR _ IH]; intros x y Hin; simpl in Hin.
  - by apply elem_of_nil in Hin.
  - apply elem_of_cons in Hin as [[= -> ->]|Hin]; [done | by apply IH].
Qed.

Module PyDictKeys.
Section Keys.
Context {K V : Type} `{EqDecision K}.
Variable Q : K → Prop.

Lemma set_keys k v (d : list (K * V)) :
Q k → Forall (λ p, Q p.1) d → Forall (λ p, Q p.1) (PyDict.set k v d).
Proof.
intros Hk. induction 1 as [|[k' v'] d Hk' Hd IH]; simpl.
- by repeat constructor.
- simpl in *. case_decide; constructor; simpl; done.
Qed.

Lemma update_keys (e d : list (K * V)) :
Forall (λ p, Q p.1) d → Forall (λ p, Q p.1) e →
Forall (λ p, Q p.1) (PyDict.update d e).
Proof.
unfold PyDict.update. intros Hd He. revert d Hd.
induction He as [|[k v] e Hk _ IH]; intros d Hd; simpl; [done|].
apply IH. by apply set_keys.
Qed.
End Keys.
End PyDictKeys.

Lemma get_feedback_positions guess actual fb :
  length guess ≤ length actual →
  get_feedback guess actual = Some fb →
  Forall (λ p : nat * ascii, p.1 < length guess) (green fb) ∧
  Forall (λ p : ascii * nat, p.2 < length guess) (yellow fb).
Proof.
  intros Hlen. rewrite get_feedback_closed by done. intros [= <-]. simpl.
  assert (Hkeys : ∀ j c, (j, c) ∈ enumerate_from 0 guess → j < length guess).
  { intros j c [_ Hj]%enumerate_from_lookup.
    apply lookup_lt_Some in Hj. lia. }
  split; apply Forall_forall.
  - intros [j c] [_ Hin]%list_elem_of_filter. by eapply Hkeys.
  - intros [c j] Hin. apply list_elem_of_fmap in Hin as [[j' c'] [[= -> ->] Hin]].
    apply list_elem_of_filter in Hin as [_ Hin]. by eapply Hkeys.
Qed.

Section RankFacts.
Variable set_iter : gset ascii → list ascii.
Variable wts : weights.
Variable letter_probs : gmap ascii float.
Variable bigram_probs trigram_probs : gmap word float.
Variable pos_probs : list (gmap ascii float).

Let score_of := score set_iter wts letter_probs bigram_probs trigram_probs
                      pos_probs.
Let ranking := ranked set_iter wts letter_probs bigram_probs trigram_probs
                      pos_probs.

Lemma score_word_total (w : word) :
  5 ≤ length w → 5 ≤ length pos_probs → is_Some (score_of w).
Proof.
  intros Hw Hpp. unfold score_of, score, score_word.
  destruct w as [|a [|b [|c [|d [|e w]]]]]; simpl in Hw; try lia.
  destruct pos_probs as [|t0 [|t1 [|t2 [|t3 [|t4 pp]]]]];
    simpl in Hpp; try lia.
  by eexists.
Qed.

Lemma ranked_total (possible : list word) (used : gset word) :
  Forall (λ w : word, 5 ≤ length w) possible → 5 ≤ length pos_probs →
  is_Some (ranking possible used).
Proof.
  intros Hposs Hpp. unfold ranking, ranked.
  destruct (mapM_is_Some_2 score_of possible) as [keys Hkeys].
  { eapply Forall_impl; [exact Hposs|]. intros w Hw.
    by apply score_word_total. }
  fold score_of. by rewrite Hkeys.
Qed.

(** The ranked list holds the unused words of the pool, no others. *)
Lemma ranked_members (possible : list word) (used : gset word) l :
  ranking possible used = Some l →
  ∀ w, w ∈ l ↔ w ∈ possible ∧ w ∉ used.
Proof.
  unfold ranking, ranked. fold score_of.
  destruct (mapM score_of possible) as [keys|] eqn:Hkeys; simpl; [|done].
  intros [= <-] w. rewrite list_elem_of_filter, sorted_desc_perm.
  rewrite snd_zip by (by rewrite (length_mapM _ _ _ Hkeys)).
  naive_solver.
Qed.

Lemma ranked_head_elem (possible : list word) (used : gset word) guess rest :
  ranking possible used = Some (guess :: rest) → guess ∈ possible.
Proof.
  unfold ranking, ranked. fold score_of.
  destruct (mapM score_of possible) as [keys|] eqn:Hkeys; simpl; [|done].
  intros [= Hhead].
  assert (guess ∈ filter (λ w, w ∉ used) (sorted_desc (zip keys possible)).*2)
    as Hin by (rewrite Hhead; apply list_elem_of_here).
  apply list_elem_of_filter in Hin as [_ Hin].
  rewrite sorted_desc_perm in Hin.
  by rewrite snd_zip in Hin by (by rewrite (length_mapM _ _ _ Hkeys)).
Qed.

(** The guess is the first unused candidate of greatest score: when no
    score is NaN, unused candidates that stand earlier in the pool score
    strictly less, and those that stand later do not score more. *)
Lemma ranked_first (possible : list word) (used : gset word) guess rest :
  (∀ w k, w ∈ possible → score_of w = Some k → not_nan k) →
  ranking possible used = Some (guess :: rest) →
  ∃ before after k,
    possible = before ++ guess :: after ∧ (guess ∉ used) ∧
    score_of guess = Some k ∧
    (∀ w k', w ∈ before → w ∉ used → score_of w = Some k' → flt k' k) ∧
    (∀ w k', w ∈ after → w ∉ used → score_of w = Some k' → ¬ flt k k').
Proof.
  intros Hnan. unfold ranking, ranked. fold score_of.
  destruct (mapM score_of possible) as [keys|] eqn:Hkeys; simpl; [|done].
  pose proof (length_mapM _ _ _ Hkeys) as Hlen.
  apply mapM_Some in Hkeys. intros [= Hhead].
  rewrite filter_snd_fmap in Hhead.
  destruct (filter _ (sorted_desc (zip keys possible)))
    as [|[k g] l] eqn:Hfilter; [done|].
  simpl in Hhead. injection Hhead as -> _.
  assert (Hscores : ∀ w k',
            (k', w) ∈ zip keys possible → score_of w = Some k')
    by (intros w k'; apply (Forall2_zip_elem _ _ _ Hkeys)).
  assert (Hkeysnan : Forall (λ p : float * word, not_nan p.1)
                       (zip keys possible)).
  { apply Forall_forall. intros [k' w] Hin. simpl.
    apply (Hnan w); [|by apply Hscores].
    apply (list_elem_of_fmap_2 snd) in Hin. simpl in Hin.
    by rewrite snd_zip in Hin by lia. }
  assert (Hpick : pick (λ p : float * word, p.2 ∉ used) (zip keys possible)
                  = Some (k, guess)) by (unfold pick; by rewrite Hfilter).
  apply pick_first in Hpick as (l1 & l2 & Hzip & Hunused & Hlt & Hle);
    [|done].
  assert (Hposs : possible = l1.*2 ++ guess :: l2.*2).
  { rewrite <- (snd_zip keys possible) at 1 by lia.
    by rewrite Hzip, fmap_app. }
  exists (l1.*2), (l2.*2), k. split_and!; [done..| | |].
  - apply Hscores. rewrite Hzip. set_solver.
  - intros w k' Hin Hw Hk'.
    apply list_elem_of_fmap in Hin as [[k'' w'] [Hw' Hin]].
    simpl in Hw'. subst w'.
    assert (score_of w = Some k'') as Hk''
      by (apply Hscores; rewrite Hzip; set_solver).
    replace k' with k'' by congruence. by apply (Hlt (k'', w)).
  - intros w k' Hin Hw Hk'.
    apply list_elem_of_fmap in Hin as [[k'' w'] [Hw' Hin]].
    simpl in Hw'. subst w'.
    assert (score_of w = Some k'') as Hk''
      by (apply Hscores; rewrite Hzip; set_solver).
    replace k' with k'' by congruence. by apply (Hle (k'', w)).
Qed.
End RankFacts.

(** * The simulation returns *)

Section GameReturns.
Variable set_iter : gset ascii → list ascii.
Variable target_word : word.
Variable wts : weights.
Variable letter_probs : gmap ascii float.
Variable bigram_probs trigram_probs : gmap word float.
Variable pos_probs : list (gmap ascii float).

Hypothesis target_length : length target_word = 5.
Hypothesis tables_length : 5 ≤ length pos_probs.

Let step := sim_step set_iter target_word wts letter_probs bigram_probs
                     trigram_probs pos_probs.
Let loop := sim_loop set_iter target_word wts letter_probs bigram_probs
                     trigram_probs pos_probs.

(** Five-letter candidates, and constraints on positions 0..4 only. *)
Definition well_formed (s : sim_state) : Prop :=
  Forall (λ w : word, length w = 5) (st_possible s) ∧
  Forall (λ p : nat * ascii, p.1 < 5) (st_green s) ∧
  Forall (λ p : ascii * nat, p.2 < 5) (st_yellow s).

Lemma sim_step_well_formed s :
  well_formed s →
  step s ≠ Raise ∧ ∀ s', step s = Continue s' → well_formed s'.
Proof.
  intros (Hposs & Hgreen & Hyellow). unfold step, sim_step.
  destruct (st_possible s) as [|w0 ws] eqn:Hpool; [done|].
  rewrite <- Hpool in *.
  destruct (ranked_total set_iter wts letter_probs bigram_probs
              trigram_probs pos_probs (st_possible s) (st_used s))
    as [[|guess rest] Hranked]; [|done|rewrite Hranked; done|].
  { eapply Forall_impl; [exact Hposs|]. simpl. lia. }
  rewrite Hranked.
  assert (Hguess : length guess = 5).
  { apply ranked_head_elem in Hranked.
    rewrite Forall_forall in Hposs. by apply Hposs. }
  destruct (decide (guess = target_word)); [done|].
  destruct (decide (max_attempts ≤ st_attempts s + 1)); [done|].
  destruct (get_feedback guess target_word) as [fb|] eqn:Hfb.
  2:{ rewrite get_feedback_closed in Hfb by lia. done. }
  apply get_feedback_positions in Hfb as [Hg Hy]; [|lia].
  rewrite Hguess in Hg, Hy.
  assert (Hgreen' : Forall (λ p : nat * ascii, p.1 < 5)
                      (PyDict.update (st_green s) (green fb)))
    by (by apply (PyDictKeys.update_keys (λ k, k < 5))).
  assert (Hyellow' : Forall (λ p : ascii * nat, p.2 < 5)
                       (st_yellow s ++ yellow fb))
    by (by apply Forall_app).
  destruct (filter_words_total set_iter (st_possible s)
              (PyDict.update (st_green s) (green fb))
              (st_yellow s ++ yellow fb) (st_gray s ∪ gray fb))
    as [possible_words Hfilter].
  { intros w Hw. rewrite Forall_forall in Hposs.
    rewrite (Hposs w Hw). done. }
  rewrite Hfilter. split; [done|]. intros s' [= <-].
  split_and!; simpl; [|done..].
  apply filter_words_closed in Hfilter as [_ ->].
  apply Forall_forall. intros w [_ Hw]%list_elem_of_filter.
  rewrite Forall_forall in Hposs. by apply Hposs.
Qed.

Lemma sim_loop_no_raise : ∀ fuel s,
  well_formed s → loop fuel s ≠ Raised.
Proof.
  induction fuel as [|fuel IH]; intros s Hwf; [done|].
  unfold loop in *. simpl. fold step.
  destruct (sim_step_well_formed s Hwf) as [Hraise Hcont].
  destruct (step s) as [r|s'|]; [done| |done].
  by apply IH, Hcont.
Qed.
End GameReturns.

(** C7. For a target in the word list the loop is over within 12 passes
    (12 units of fuel are never used up, and more fuel changes nothing);
    a returned guess log has at most 12 entries; a solved result has the
    target as its last guess and the number of guesses issued as its
    attempt count; and on a corpus of five-letter words with five position
    tables the function does return. *)
Theorem simulate_terminates (set_iter : gset ascii → list ascii)
    (target_word : word) (wts : weights) (letter_probs : gmap ascii float)
    (bigram_probs trigram_probs : gmap word float)
    (pos_probs : list (gmap ascii float)) (word_list : list word) :
  target_word ∈ word_list →
  let simulate :=
    simulate_game_stats set_iter target_word wts letter_probs bigram_probs
                        trigram_probs pos_probs in
  (simulate 12 word_list ≠ OutOfFuel ∧
   ∀ fuel, 12 ≤ fuel → simulate fuel word_list = simulate 12 word_list) ∧
  (∀ fuel r, simulate fuel word_list = Returned r →
     length (res_log r) ≤ 12 ∧
     ∀ a, res_attempts r = Some a →
       a = length (res_log r) ∧
       ∃ n, last (res_log r) = Some (target_word, n)) ∧
  (Forall (λ w : word, length w = 5) word_list → 5 ≤ length pos_probs →
   ∃ r, simulate 12 word_list = Returned r).
Proof.
  intros Hin simulate.
  assert (Hsim : ∀ fuel, simulate fuel word_list =
                   sim_loop set_iter target_word wts letter_probs bigram_probs
                     trigram_probs pos_probs fuel (sim_init word_list)).
  { intros fuel. unfold simulate, simulate_game_stats.
    by rewrite decide_False by (by intros ?). }
  assert (Hrun : sim_loop set_iter target_word wts letter_probs bigram_probs
                   trigram_probs pos_probs 12 (sim_init word_list)
                 ≠ OutOfFuel)
    by (apply sim_loop_enough_fuel; simpl; unfold max_attempts; lia).
  split_and!.
  - by rewrite Hsim.
  - intros fuel Hfuel. rewrite !Hsim. by apply sim_loop_fuel_mono.
  - intros fuel r Hret. rewrite Hsim in Hret.
    apply sim_loop_result in Hret as [Hlen Hsolved];
      [|done|simpl; unfold max_attempts; lia].
    split; [apply Hlen | done].
  - intros Hwords Htables.
    assert (Hwf : well_formed (sim_init word_list)) by (by split_and!).
    assert (Htarget : length target_word = 5)
      by (rewrite Forall_forall in Hwords; by apply Hwords).
    pose proof (sim_loop_no_raise set_iter target_word wts letter_probs
                  bigram_probs trigram_probs pos_probs Htarget Htables
                  12 _ Hwf) as Hraise.
    rewrite Hsim.
    destruct (sim_loop _ _ _ _ _ _ _ 12 _) as [r| |]; [by exists r|done..].
Qed.

Lemma stale_in_corpus :
  wd "stale" ∈ [wd "apple"; wd "angle"; wd "table"; wd "stale"; wd "crane"].
Proof. do 3 apply list_elem_of_further. apply list_elem_of_here. Qed.

Lemma simulate_terminates_witness :
  (wd "stale"
     ∈ [wd "apple"; wd "angle"; wd "table"; wd "stale"; wd "crane"]) ∧
  ∃ r, simulate_game_stats elements (wd "stale") default_weights ∅ ∅ ∅
         (replicate 5 ∅) 12
         [wd "apple"; wd "angle"; wd "table"; wd "stale"; wd "crane"]
       = Returned r.
Proof.
  split; [exact stale_in_corpus|].
  apply (simulate_terminates elements (wd "stale") default_weights ∅ ∅ ∅
           (replicate 5 ∅)
           [wd "apple"; wd "angle"; wd "table"; wd "stale"; wd "crane"]
           stale_in_corpus).
  - by repeat constructor.
  - simpl. lia.
Defined.

(** * The empty corpus *)

(** ** Zero and finite floats *)

Lemma is_zero_Prim2SF (a : float) :
  is_zero a = true ↔ ∃ s, Prim2SF a = S754_zero s.
Proof.
  unfold is_zero. rewrite FloatAxioms.eqb_spec. unfold SFeqb.
  change (Prim2SF zero) with (S754_zero false).
  destruct (Prim2SF a) as [s|s| |s m e]; simpl; try destruct s; simpl;
    split; try done; try (by intros [? ?]); by eexists.
Qed.

Lemma is_finite_Prim2SF (a : float) :
  is_finite a = true →
  (∃ s, Prim2SF a = S754_zero s) ∨ (∃ s m e, Prim2SF a = S754_finite s m e).
Proof.
  unfold is_finite, is_infinity.
  destruct (is_nan a) eqn:Hnan; [done|]. simpl.
  rewrite FloatAxioms.eqb_spec, FloatAxioms.abs_spec. unfold SFeqb.
  change (Prim2SF infinity) with (S754_infinity false).
  assert (Prim2SF a ≠ S754_nan) as Hn by (by apply not_nan_Prim2SF).
  destruct (Prim2SF a) as [s|s| |s m e]; simpl; try done.
  - intros _. left. by eexists.
  - intros _. right. by repeat eexists.
Qed.

(** A finite float times zero is zero. *)
Lemma mul_zero (a z : float) :
  is_finite a = true → is_zero z = true → is_zero (a * z) = true.
Proof.
  intros Ha [sz Hz]%is_zero_Prim2SF. apply is_zero_Prim2SF.
  rewrite FloatAxioms.mul_spec, Hz.
  destruct (is_finite_Prim2SF a Ha) as [[s ->]|(s & m & e & ->)];
    by eexists.
Qed.

Lemma add_zero (y z : float) :
  is_zero y = true → is_zero z = true → is_zero (y + z) = true.
Proof.
  intros [sy Hy]%is_zero_Prim2SF [sz Hz]%is_zero_Prim2SF.
  apply is_zero_Prim2SF. rewrite FloatAxioms.add_spec, Hy, Hz.
  destruct sy, sz; by eexists.
Qed.

(** The weights are numbers: none is infinite or NaN. *)
Definition finite_weights (wts : weights) : Prop :=
  is_finite (w_letter wts) = true ∧ is_finite (w_bigram wts) = true ∧
  is_finite (w_trigram wts) = true ∧ is_finite (w_position wts) = true ∧
  is_finite (w_repeat_penalty wts) = true.

Lemma prob_empty `{Countable K} (k : K) :
  prob (∅ : gmap K float) k = 0%float.
Proof. unfold prob. by rewrite lookup_empty. Qed.

Lemma py_sum_zeros (l : list float) :
  Forall (λ x, x = 0%float) l → py_sum l = 0%float.
Proof.
  unfold py_sum. induction 1 as [|x l -> _ IH]; [done|]. simpl.
  exact IH.
Qed.

Lemma sum_prob_empty `{Countable K} (l : list K) :
  py_sum (prob (∅ : gmap K float) <$> l) = 0%float.
Proof.
  apply py_sum_zeros, Forall_fmap, Forall_forall.
  intros k _. apply prob_empty.
Qed.

(** Over empty tables every sum is 0, and what is left of the score is the
    penalty factor times a sum of weights times 0. *)
Lemma score_word_empty_tables (set_iter : gset ascii → list ascii)
    (w : word) (wts : weights) :
  5 ≤ length w →
  score_word set_iter w ∅ ∅ ∅ (replicate 5 ∅) wts
  = Some ((if decide (size (list_to_set w : gset ascii) < 5)
           then w_repeat_penalty wts else 1) *
          (w_letter wts * 0 + w_bigram wts * 0 + w_trigram wts * 0 +
           w_position wts * 0))%float.
Proof.
  intros Hw. unfold score_word. rewrite !sum_prob_empty.
  destruct w as [|a [|b [|c [|d [|e w]]]]]; simpl in Hw; try lia.
  cbn [mapM seq replicate lookup list_lookup mbind option_bind mret
       option_ret fmap option_fmap option_map].
  rewrite !prob_empty.
  by rewrite (py_sum_zeros [0; 0; 0; 0; 0]%float) by (by repeat constructor).
Qed.

Lemma score_word_empty_tables_zero (set_iter : gset ascii → list ascii)
    (w : word) (wts : weights) :
  5 ≤ length w → finite_weights wts →
  ∃ k, score_word set_iter w ∅ ∅ ∅ (replicate 5 ∅) wts = Some k ∧
       (k =? 0)%float = true.
Proof.
  intros Hw (Hl & Hb & Ht & Hp & Hr).
  rewrite score_word_empty_tables by done. eexists. split; [done|].
  assert (Hz : is_zero 0 = true) by done.
  apply (mul_zero _ _); [by case_decide|].
  repeat apply add_zero; by apply mul_zero.
Qed.

Lemma score_word_empty_tables_default (set_iter : gset ascii → list ascii)
    (w : word) :
  5 ≤ length w →
  score_word set_iter w ∅ ∅ ∅ (replicate 5 ∅) default_weights
  = Some 0%float.
Proof.
  intros Hw. rewrite score_word_empty_tables by done.
  by case_decide.
Qed.

(** The STUCK outcome: the pool of candidates was found empty. *)
Definition is_stuck (o : outcome) : Prop :=
  ∃ log, o = Returned (Result None log (Some MsgNoPossibleWords)).

(** The EXHAUSTED outcome: the attempt budget ran out. *)
Definition is_exhausted (o : outcome) : Prop :=
  ∃ log, o = Returned (Result None log (Some MsgGaveUp)).

(** C9 (the document's wording fails). On the empty corpus the simulation
    does not get as far as the empty-pool test: no target is in an empty
    list, so the run ends at the target check. *)
Lemma simulate_empty_corpus_not_stuck :
  ¬ is_stuck (simulate_game_stats elements (wd "stale") default_weights
                (get_letter_probs []) (get_ngram_probs [] 2)
                (get_ngram_probs [] 3) (replicate 5 ∅) 12 []).
Proof. intros [log Hlog]. discriminate Hlog. Qed.

(** C9, as the code has it. On the empty corpus the three builders return
    empty tables (five of them for the positions) and raise nothing;
    [score_word] over these tables compares equal to 0 for every word of
    five letters or more whenever the weights are finite floats, and is
    the float 0 itself under the weights of the main program; and
    [simulate_game_stats] on the empty word list ends at the target check,
    unsolved, with an empty guess log, which is neither the STUCK nor the
    EXHAUSTED outcome. *)
Theorem empty_corpus :
  get_letter_probs [] = ∅ ∧
  (∀ n, get_ngram_probs [] n = ∅) ∧
  get_positional_probs [] = Some (replicate 5 ∅) ∧
  (∀ set_iter (w : word) wts, 5 ≤ length w → finite_weights wts →
     ∃ k, score_word set_iter w (get_letter_probs []) (get_ngram_probs [] 2)
            (get_ngram_probs [] 3) (replicate 5 ∅) wts = Some k ∧
          (k =? 0)%float = true) ∧
  (∀ set_iter (w : word), 5 ≤ length w →
     score_word set_iter w (get_letter_probs []) (get_ngram_probs [] 2)
       (get_ngram_probs [] 3) (replicate 5 ∅) default_weights
     = Some 0%float) ∧
  (∀ set_iter target_word wts letter_probs bigram_probs trigram_probs
     pos_probs fuel,
     let o := simulate_game_stats set_iter target_word wts letter_probs
                bigram_probs trigram_probs pos_probs fuel [] in
     o = Returned (Result None [] (Some MsgNotInList)) ∧
     ¬ is_stuck o ∧ ¬ is_exhausted o).
Proof.
  assert (Hletters : get_letter_probs [] = ∅).
  { unfold get_letter_probs, normalize. simpl. apply fmap_empty. }
  assert (Hngrams : ∀ n, get_ngram_probs [] n = ∅).
  { intros n. unfold get_ngram_probs, normalize. simpl. apply fmap_empty. }
  split_and!; [done..| | | |].
  - unfold get_positional_probs, normalize. simpl.
    by rewrite !fmap_empty.
  - intros set_iter w wts Hw Hwts. rewrite Hletters, !Hngrams.
    by apply score_word_empty_tables_zero.
  - intros set_iter w Hw. rewrite Hletters, !Hngrams.
    by apply score_word_empty_tables_default.
  - intros set_iter target_word wts letter_probs bigram_probs trigram_probs
      pos_probs fuel o.
    assert (Ho : o = Returned (Result None [] (Some MsgNotInList))).
    { unfold o, simulate_game_stats.
      rewrite decide_True; [done | apply not_elem_of_nil]. }
    split_and!; [done|..]; rewrite Ho; intros [log Hlog]; discriminate Hlog.
Qed.

Lemma empty_corpus_witness :
  5 ≤ length (wd "stale") ∧ finite_weights default_weights ∧
  ∃ k, score_word elements (wd "stale") (get_letter_probs [])
         (get_ngram_probs [] 2) (get_ngram_probs [] 3) (replicate 5 ∅)
         default_weights = Some k ∧
       (k =? 0)%float = true.
Proof.
  assert (Hw : 5 ≤ length (wd "stale")) by (simpl; lia).
  assert (Hwts : finite_weights default_weights) by (by split_and!).
  split_and!; [done..|]. by apply empty_corpus.
Defined.

(** The weights have to be finite for that: an infinite weight times the
    0 of an empty table is NaN. *)
Example score_word_infinite_weight :
  ∃ k, score_word elements (wd "stale") ∅ ∅ ∅ (replicate 5 ∅)
         (Weights infinity 0.5 0.25 0.75 0.9) = Some k ∧
       is_nan k = true.
Proof. eexists. split; [by vm_compute | done]. Qed.

(** C1, downstream. With the tables built from the corpus itself and the
    default weights, the first guess for target "stale" is "llano"; on its
    feedback the filter drops "stale" too ('l' is gray and nothing waives
    it), and the run ends unsolved on an empty pool although the target is
    in the corpus. *)
Example target_filtered_out :
  let corpus := [wd "llama"; wd "llano"; wd "stale"] in
  ∃ pos_probs,
    get_positional_probs corpus = Some pos_probs ∧
    simulate_game_stats elements (wd "stale") default_weights
      (get_letter_probs corpus) (get_ngram_probs corpus 2)
      (get_ngram_probs corpus 3) pos_probs 12 corpus
    = Returned (Result None [(wd "llano", 3)] (Some MsgNoPossibleWords)).
Proof. eexists. split; [reflexivity | by vm_compute]. Qed.

Lemma sim_step_pool set_iter target_word wts letter_probs bigram_probs
    trigram_probs pos_probs s s' :
  sim_step set_iter target_word wts letter_probs bigram_probs trigram_probs
           pos_probs s = Continue s' →
  st_possible s' `sublist_of` st_possible s.
Proof.
  unfold sim_step. destruct (st_possible s) as [|w0 ws] eqn:Hpool; [done|].
  rewrite <- Hpool.
  destruct (ranked _ _ _ _ _ _ _ _) as [[|guess rest]|]; [done| |done].
  repeat case_decide; try done.
  destruct (get_feedback guess target_word) as [fb|]; [|done].
  destruct (filter_words _ _ _ _ _) as [possible_words|] eqn:Hfilter; [|done].
  intros [= <-]. simpl.
  apply filter_words_closed in Hfilter as [_ ->]. apply sublist_filter.
Qed.

(** * Determinism *)

Section Determinism.
Variables set_iter set_iter' : gset ascii → list ascii.
Hypothesis visits : visits_each_once set_iter.
Hypothesis visits' : visits_each_once set_iter'.

Variable target_word : word.
Variable wts : weights.
Variable letter_probs : gmap ascii float.
Variable bigram_probs trigram_probs : gmap word float.
Variable pos_probs : list (gmap ascii float).
Variable word_list : list word.

Lemma set_iter_agree (s : gset ascii) : set_iter s ≡ₚ set_iter' s.
Proof. by rewrite (visits s), (visits' s). Qed.

Lemma word_valid_agree w green yellow gray :
  word_valid set_iter w green yellow gray
  = word_valid set_iter' w green yellow gray.
Proof.
  unfold word_valid.
  by rewrite (gray_loop_perm _ _ _ _ _ (set_iter_agree gray)).
Qed.

Lemma filter_words_agree words green yellow gray :
  filter_words set_iter words green yellow gray
  = filter_words set_iter' words green yellow gray.
Proof.
  induction words as [|w words IH]; simpl; [done|].
  by rewrite word_valid_agree, IH.
Qed.

Hypothesis scores_agree : ∀ w, w ∈ word_list →
  score set_iter wts letter_probs bigram_probs trigram_probs pos_probs w
  = score set_iter' wts letter_probs bigram_probs trigram_probs pos_probs w.

Lemma ranked_agree possible used :
  possible ⊆ word_list →
  ranked set_iter wts letter_probs bigram_probs trigram_probs pos_probs
         possible used
  = ranked set_iter' wts letter_probs bigram_probs trigram_probs pos_probs
           possible used.
Proof.
  intros Hsub. unfold ranked.
  assert (mapM (score set_iter wts letter_probs bigram_probs trigram_probs
                      pos_probs) possible
          = mapM (score set_iter' wts letter_probs bigram_probs
                        trigram_probs pos_probs) possible) as ->; [|done].
  induction possible as [|w possible IH]; [done|].
  cbn [mapM]. rewrite scores_agree, IH; [done| |].
  - intros w' Hw'. apply Hsub. by right.
  - apply Hsub. by left.
Qed.

Lemma sim_step_agree s :
  st_possible s ⊆ word_list →
  sim_step set_iter target_word wts letter_probs bigram_probs
           trigram_probs pos_probs s
  = sim_step set_iter' target_word wts letter_probs bigram_probs
             trigram_probs pos_probs s.
Proof.
  intros Hsub. unfold sim_step. rewrite ranked_agree by done.
  destruct (st_possible s); [done|].
  destruct (ranked _ _ _ _ _ _ _ _) as [[|guess rest]|]; [done| |done].
  repeat case_decide; try done.
  destruct (get_feedback guess target_word); [|done].
  by rewrite filter_words_agree.
Qed.

Lemma sim_loop_agree : ∀ fuel s,
  st_possible s ⊆ word_list →
  sim_loop set_iter target_word wts letter_probs bigram_probs
           trigram_probs pos_probs fuel s
  = sim_loop set_iter' target_word wts letter_probs bigram_probs
             trigram_probs pos_probs fuel s.
Proof.
  induction fuel as [|fuel IH]; intros s Hsub; [done|].
  simpl. rewrite <- sim_step_agree by done.
  destruct (sim_step set_iter _ _ _ _ _ _ s) as [r|s'|] eqn:Hstep;
    [done| |done].
  apply IH. apply sim_step_pool in Hstep.
  intros w Hw. apply Hsub. by apply (elem_of_sublist _ _ _ Hw).
Qed.
End Determinism.

(** C10, as the code has it. A run depends on the order in which sets
    are visited through the scores alone: two orders that give every word
    of the list the same score give the same result, whatever the order in
    which the gray letters are then visited. The ranking is a stable
    descending sort: a rearrangement of the pool, an entry whose key is not
    below that of a later entry staying in front of it, and in descending
    key order when no key is NaN; it lists the unused words of the pool and
    no others, so the guess is the first unused candidate of greatest
    score, ties going to the candidate that stands earlier in the pool; and
    every pool is a subsequence of the one before it, hence of the word
    list. *)
Theorem simulate_deterministic (set_iter set_iter' : gset ascii → list ascii)
    (target_word : word) (wts : weights) (letter_probs : gmap ascii float)
    (bigram_probs trigram_probs : gmap word float)
    (pos_probs : list (gmap ascii float)) (word_list : list word) :
  visits_each_once set_iter → visits_each_once set_iter' →
  (∀ w, w ∈ word_list →
     score set_iter wts letter_probs bigram_probs trigram_probs pos_probs w
     = score set_iter' wts letter_probs bigram_probs trigram_probs
             pos_probs w) →
  (∀ fuel,
     simulate_game_stats set_iter target_word wts letter_probs bigram_probs
       trigram_probs pos_probs fuel word_list
     = simulate_game_stats set_iter' target_word wts letter_probs
         bigram_probs trigram_probs pos_probs fuel word_list) ∧
  (∀ l, sorted_desc l ≡ₚ l ∧
        (∀ a b, stands_before a b l → ¬ flt a.1 b.1 →
                stands_before a b (sorted_desc l)) ∧
        (Forall (λ p : float * word, not_nan p.1) l →
         StronglySorted desc (sorted_desc l))) ∧
  (∀ possible used l,
     ranked set_iter wts letter_probs bigram_probs trigram_probs pos_probs
            possible used = Some l →
     ∀ w, w ∈ l ↔ w ∈ possible ∧ w ∉ used) ∧
  (∀ possible used guess rest,
     (∀ w k, w ∈ possible →
        score set_iter wts letter_probs bigram_probs trigram_probs
              pos_probs w = Some k → not_nan k) →
     ranked set_iter wts letter_probs bigram_probs trigram_probs pos_probs
            possible used = Some (guess :: rest) →
     ∃ before after k,
       possible = before ++ guess :: after ∧ (guess ∉ used) ∧
       score set_iter wts letter_probs bigram_probs trigram_probs pos_probs
             guess = Some k ∧
       (∀ w k', w ∈ before → w ∉ used →
          score set_iter wts letter_probs bigram_probs trigram_probs
                pos_probs w = Some k' → flt k' k) ∧
       (∀ w k', w ∈ after → w ∉ used →
          score set_iter wts letter_probs bigram_probs trigram_probs
                pos_probs w = Some k' → ¬ flt k k')) ∧
  (∀ s s',
     sim_step set_iter target_word wts letter_probs bigram_probs
              trigram_probs pos_probs s = Continue s' →
     st_possible s' `sublist_of` st_possible s).
Proof.
  intros Hiter Hiter' Hscores. split_and!.
  - intros fuel. unfold simulate_game_stats.
    case_decide; [done|].
    by apply sim_loop_agree with (word_list := word_list).
  - intros l. split_and!;
      [apply sorted_desc_perm | apply sorted_desc_stable
      | apply sorted_desc_sorted].
  - intros possible used l. apply ranked_members.
  - intros possible used guess rest. apply ranked_first.
  - intros s s'. apply sim_step_pool.
Qed.


Lemma simulate_deterministic_witness :
  let score1 :=
    score (by_slot 1) default_weights (get_letter_probs scenario)
      (get_ngram_probs scenario 2) (get_ngram_probs scenario 3)
      scenario_pos_probs in
  let score29 :=
    score (by_slot 29) default_weights (get_letter_probs scenario)
      (get_ngram_probs scenario 2) (get_ngram_probs scenario 3)
      scenario_pos_probs in
  visits_each_once (by_slot 1) ∧ visits_each_once (by_slot 29) ∧
  by_slot 1 (list_to_set (wd "angle")) = wd "aegln" ∧
  by_slot 29 (list_to_set (wd "angle")) = wd "lenga" ∧
  (∀ w, w ∈ scenario → score1 w = score29 w) ∧
  (∀ fuel,
     simulate_game_stats (by_slot 1) (wd "apple") default_weights
       (get_letter_probs scenario) (get_ngram_probs scenario 2)
       (get_ngram_probs scenario 3) scenario_pos_probs fuel scenario
     = simulate_game_stats (by_slot 29) (wd "apple") default_weights
         (get_letter_probs scenario) (get_ngram_probs scenario 2)
         (get_ngram_probs scenario 3) scenario_pos_probs fuel scenario) ∧
  simulate_game_stats (by_slot 1) (wd "apple") default_weights
    (get_letter_probs scenario) (get_ngram_probs scenario 2)
    (get_ngram_probs scenario 3) scenario_pos_probs 12 scenario
  = Returned (Result (Some 3)
                [(wd "stale", 5); (wd "angle", 2); (wd "apple", 1)] None) ∧
  (∀ w k, w ∈ scenario → score1 w = Some k → not_nan k) ∧
  ranked (by_slot 1) default_weights (get_letter_probs scenario)
    (get_ngram_probs scenario 2) (get_ngram_probs scenario 3)
    scenario_pos_probs scenario ∅
  = Some [wd "stale"; wd "angle"; wd "table"; wd "apple"; wd "crane"] ∧
  ∃ before after k,
    scenario = before ++ wd "stale" :: after ∧ (wd "stale" ∉ (∅ : gset word)) ∧
    score1 (wd "stale") = Some k ∧
    (∀ w k', w ∈ before → w ∉ (∅ : gset word) → score1 w = Some k' →
       flt k' k) ∧
    (∀ w k', w ∈ after → w ∉ (∅ : gset word) → score1 w = Some k' →
       ¬ flt k k').
Proof.
  intros score1 score29.
  pose proof (by_slot_visits_each_once 1) as Hiter.
  pose proof (by_slot_visits_each_once 29) as Hiter'.
  assert (Hscores : ∀ w, w ∈ scenario → score1 w = score29 w).
  { intros w Hw. unfold scenario in Hw.
    repeat (apply elem_of_cons in Hw as [->|Hw]; [by vm_compute|]).
    by apply elem_of_nil in Hw. }
  assert (Hnan : ∀ w k, w ∈ scenario → score1 w = Some k → not_nan k).
  { intros w k Hw. unfold scenario in Hw.
    repeat (apply elem_of_cons in Hw as [->|Hw];
            [vm_compute; by intros [= <-]|]).
    by apply elem_of_nil in Hw. }
  assert (Hranked :
    ranked (by_slot 1) default_weights (get_letter_probs scenario)
      (get_ngram_probs scenario 2) (get_ngram_probs scenario 3)
      scenario_pos_probs scenario ∅
    = Some [wd "stale"; wd "angle"; wd "table"; wd "apple"; wd "crane"])
    by (by vm_compute).
  destruct (simulate_deterministic (by_slot 1) (by_slot 29) (wd "apple")
              default_weights (get_letter_probs scenario)
              (get_ngram_probs scenario 2) (get_ngram_probs scenario 3)
              scenario_pos_probs scenario Hiter Hiter' Hscores)
    as (Hsame & _ & _ & Hfirst & _).
  split_and!; [done | done | by vm_compute | by vm_compute | done | done
               | by vm_compute | done | done |].
  exact (Hfirst scenario ∅ (wd "stale") _ Hnan Hranked).
Defined.

(** C10 (the document's wording fails). On the corpus of the scenario,
    with the tables built from it and the weights of the main program,
    "angle" and "stale" score 2.88 or 2.8800000000000003 according to the
    order in which their letters are added up. Visited by code point the
    letters make "stale" the first guess; visited in the order of seed 13
    they make it "angle": the same arguments give two different results. *)
Lemma simulate_order_dependent :
  visits_each_once (by_slot 1) ∧ visits_each_once (by_slot 13) ∧
  get_positional_probs scenario = Some scenario_pos_probs ∧
  score (by_slot 1) default_weights (get_letter_probs scenario)
    (get_ngram_probs scenario 2) (get_ngram_probs scenario 3)
    scenario_pos_probs <$> [wd "angle"; wd "stale"]
  = [Some 2.88%float; Some 2.8800000000000003%float] ∧
  score (by_slot 13) default_weights (get_letter_probs scenario)
    (get_ngram_probs scenario 2) (get_ngram_probs scenario 3)
    scenario_pos_probs <$> [wd "angle"; wd "stale"]
  = [Some 2.8800000000000003%float; Some 2.88%float] ∧
  simulate_game_stats (by_slot 1) (wd "stale") default_weights
    (get_letter_probs scenario) (get_ngram_probs scenario 2)
    (get_ngram_probs scenario 3) scenario_pos_probs 12 scenario
  = Returned (Result (Some 1) [(wd "stale", 5)] None) ∧
  simulate_game_stats (by_slot 13) (wd "stale") default_weights
    (get_letter_probs scenario) (get_ngram_probs scenario 2)
    (get_ngram_probs scenario 3) scenario_pos_probs 12 scenario
  = Returned (Result (Some 2) [(wd "angle", 5); (wd "stale", 2)] None) ∧
  simulate_game_stats (by_slot 1) (wd "stale") default_weights
    (get_letter_probs scenario) (get_ngram_probs scenario 2)
    (get_ngram_probs scenario 3) scenario_pos_probs 12 scenario
  ≠ simulate_game_stats (by_slot 13) (wd "stale") default_weights
      (get_letter_probs scenario) (get_ngram_probs scenario 2)
      (get_ngram_probs scenario 3) scenario_pos_probs 12 scenario.
Proof.
  split_and!; [apply by_slot_visits_each_once| apply by_slot_visits_each_once
              | done | by vm_compute..].
Qed.

(** * Corpus statistics: what the tables hold *)

(** How often [k] occurs in a list. *)
Definition occurrences {K} `{EqDecision K} (k : K) (l : list K) : nat :=
  length (filter (λ x, x = k) l).

(** A [Counter] after one [+= 1] for every item of [l], in order. *)
Definition tally `{Countable K} (l : list K) (c : gmap K nat) : gmap K nat :=
  foldl (λ c x, counter_incr x c) c l.

(** [count / total] *)
Definition frequency (count total : nat) : float :=
  (float_of_nat count / float_of_nat total)%float.

(** The letters found at index [i] of the words that have one. *)
Definition column (i : nat) (words : list word) : list ascii :=
  omap (λ w : word, w !! i) words.

(** Every window of length [n] of every word, in corpus order. *)
Definition all_ngrams (n : nat) (words : list word) : list word :=
  concat (ngrams n <$> words).

Section CounterFacts.
Context `{Countable K}.
Implicit Types (c : gmap K nat) (l : list K) (k : K).

Lemma occurrences_cons k x l :
  occurrences k (x :: l)
  = (if decide (x = k) then 1 else 0) + occurrences k l.
Proof. unfold occurrences. rewrite filter_cons. by case_decide. Qed.

Lemma occurrences_notin k l : k ∉ l → occurrences k l = 0.
Proof.
  induction l as [|x l IH]; [done|]. intros [Hne Hnin]%not_elem_of_cons.
  rewrite occurrences_cons, decide_False by done. by rewrite IH.
Qed.

Lemma occurrences_in k l : k ∈ l → 0 < occurrences k l.
Proof.
  induction l as [|x l IH]; [by intros ?%elem_of_nil|].
  rewrite occurrences_cons. intros [->|Hin]%elem_of_cons.
  - rewrite decide_True by done. lia.
  - specialize (IH Hin). lia.
Qed.

Lemma occurrences_le_length k l : occurrences k l ≤ length l.
Proof. apply length_filter. Qed.

Lemma tally_lookup l : ∀ c k,
  tally l c !! k =
    if decide (k ∈ l) then Some (default 0 (c !! k) + occurrences k l)
    else c !! k.
Proof.
  induction l as [|x l IH]; intros c k; [done|].
  cbn [tally foldl]. fold (tally l (counter_incr x c)). rewrite IH.
  rewrite occurrences_cons. unfold counter_incr.
  destruct (decide (x = k)) as [->|Hne].
  - rewrite lookup_insert_eq, (decide_True (P := k ∈ k :: l)) by by left.
    simpl. destruct (decide (k ∈ l)) as [Hin|Hnin]; [f_equal; lia|].
    rewrite (occurrences_notin k l Hnin). f_equal. lia.
  - rewrite lookup_insert_ne by done.
    destruct (decide (k ∈ l)) as [Hin|Hnin].
    + by rewrite decide_True by by right.
    + rewrite decide_False; [done|]. by intros [?|?]%elem_of_cons.
Qed.

Lemma counter_total_incr k c :
  counter_total (counter_incr k c) = S (counter_total c).
Proof.
  unfold counter_total, counter_incr.
  assert (Hcomm : ∀ (m : gmap K nat) (j1 j2 : K) (z1 z2 y : nat),
            j1 ≠ j2 → m !! j1 = Some z1 → m !! j2 = Some z2 →
            z1 + (z2 + y) = z2 + (z1 + y)) by (intros; lia).
  destruct (c !! k) as [n|] eqn:Hk; simpl.
  - rewrite <- insert_delete_eq.
    rewrite map_fold_insert_L; [|apply Hcomm | apply lookup_delete_eq].
    rewrite (map_fold_delete_L _ _ k n c); [lia | apply Hcomm | done].
  - rewrite map_fold_insert_L; [lia | apply Hcomm | done].
Qed.

Lemma counter_total_tally l : ∀ c,
  counter_total (tally l c) = counter_total c + length l.
Proof.
  induction l as [|x l IH]; intros c; simpl; [lia|].
  fold (tally l (counter_incr x c)). rewrite IH, counter_total_incr. lia.
Qed.

Lemma normalize_lookup c k :
  normalize c !! k = (λ n, frequency n (counter_total c)) <$> c !! k.
Proof. unfold normalize. by rewrite lookup_fmap. Qed.

End CounterFacts.

Lemma normalize_tally_lookup `{Countable K} (l : list K) (k : K) :
  normalize (tally l ∅) !! k =
    if decide (k ∈ l) then Some (frequency (occurrences k l) (length l))
    else None.
Proof.
  rewrite normalize_lookup, tally_lookup, counter_total_tally.
  unfold counter_total. rewrite map_fold_empty, lookup_empty. simpl.
  by case_decide.
Qed.

(** The counts behind a table: one entry per item that occurs, holding
    how often it occurs, and adding up to the number of items. *)
Definition counts_of `{Countable K} (l : list K) (counts : gmap K nat)
  : Prop :=
  (∀ k, counts !! k = if decide (k ∈ l) then Some (occurrences k l)
                      else None) ∧
  (∀ k, k ∈ l → 0 < occurrences k l ≤ length l) ∧
  counter_total counts = length l.

Lemma tally_counts `{Countable K} (l : list K) : counts_of l (tally l ∅).
Proof.
  split_and!.
  - intros k. rewrite tally_lookup, lookup_empty. simpl. by case_decide.
  - intros k Hin. split; [by apply occurrences_in|].
    apply occurrences_le_length.
  - rewrite counter_total_tally. unfold counter_total.
    by rewrite map_fold_empty.
Qed.

Lemma normalize_tally `{Countable K} (l : list K) :
  normalize (tally l ∅) = (λ n, frequency n (length l)) <$> tally l ∅.
Proof.
  unfold normalize. rewrite counter_total_tally. unfold counter_total.
  by rewrite map_fold_empty.
Qed.

(** X1. The letter table holds exactly the letters that occur in the
    corpus, each with the float quotient of its number of occurrences
    (counted once per occurrence, not once per word) by the number of
    letters of the corpus; the table is that quotient applied to a table
    of counts, each count positive and the counts adding up to the number
    of letters. *)
Theorem get_letter_probs_table (words : list word) :
  let letters := concat words in
  (∀ ch, get_letter_probs words !! ch =
     if decide (ch ∈ letters)
     then Some (float_of_nat (str_count ch letters)
                / float_of_nat (length letters))%float
     else None) ∧
  ∃ counts : gmap ascii nat,
    counts_of letters counts ∧
    get_letter_probs words
    = (λ n, (float_of_nat n / float_of_nat (length letters))%float)
        <$> counts.
Proof.
  intros letters. split.
  - intros ch. apply (normalize_tally_lookup letters ch).
  - exists (tally letters ∅). split; [apply tally_counts|].
    apply (normalize_tally letters).
Qed.

(** In binary64 the shares of a table need not add up to 1: those of the
    ten letters of "stale" and "llano", added in the order in which the
    letters first occur, fall short of it. *)
Example letter_shares_rounded :
  let t := get_letter_probs [wd "stale"; wd "llano"] in
  py_sum (prob t <$> wd "staleno") = 0x1.fffffffffffffp-1%float.
Proof. by vm_compute. Qed.

Lemma ngram_windows_tally (n : nat) (w : word) : ∀ (idxs : list nat) c,
  foldl (λ c i, counter_incr (slice w i (i + n)) c) c idxs
  = tally ((λ i, take n (drop i w)) <$> idxs) c.
Proof.
  induction idxs as [|i idxs IH]; intros c; [done|].
  simpl. rewrite IH. unfold slice.
  by replace (i + n - i) with n by lia.
Qed.

Lemma ngram_counts_tally (n : nat) (words : list word) : ∀ c,
  foldl (λ c w,
           foldl (λ c i, counter_incr (slice w i (i + n)) c) c
                 (seq 0 (length w + 1 - n)))
        c words
  = tally (all_ngrams n words) c.
Proof.
  unfold all_ngrams.
  induction words as [|w words IH]; intros c; [done|].
  simpl. rewrite IH, ngram_windows_tally. unfold tally, ngrams.
  by rewrite foldl_app.
Qed.

Lemma elem_of_ngrams (n : nat) (w k : word) :
  k ∈ ngrams n w ↔ ∃ i, i + n ≤ length w ∧ k = take n (drop i w).
Proof.
  unfold ngrams. rewrite list_elem_of_fmap. split.
  - intros (i & -> & Hi). apply elem_of_seq in Hi. exists i. split; [lia|done].
  - intros (i & Hi & ->). exists i. split; [done|]. apply elem_of_seq. lia.
Qed.

Lemma elem_of_concat {A} (x : A) (ls : list (list A)) :
  x ∈ concat ls ↔ ∃ l, x ∈ l ∧ l ∈ ls.
Proof.
  induction ls as [|l ls IH]; simpl.
  - split; [by intros ?%elem_of_nil | by intros (l & _ & ?%elem_of_nil)].
  - rewrite elem_of_app, IH. split.
    + intros [?|(l' & ? & ?)]; [exists l | exists l'];
        (split; [done|]); [by left | by right].
    + intros (l' & Hx & [->|?]%elem_of_cons); [by left|].
      right. by exists l'.
Qed.

Lemma elem_of_all_ngrams (n : nat) (words : list word) (k : word) :
  k ∈ all_ngrams n words ↔
  ∃ w i, w ∈ words ∧ i + n ≤ length w ∧ k = take n (drop i w).
Proof.
  unfold all_ngrams. rewrite elem_of_concat. split.
  - intros (l & Hk & Hl). apply list_elem_of_fmap in Hl as (w & -> & Hw).
    apply elem_of_ngrams in Hk as (i & Hi & ->). by exists w, i.
  - intros (w & i & Hw & Hi & ->). exists (ngrams n w). split.
    + apply elem_of_ngrams. by exists i.
    + apply list_elem_of_fmap. by exists w.
Qed.

(** X2. The [n]-gram table holds exactly the windows of [n] consecutive
    letters that lie wholly inside some word of the corpus (so every key
    has [n] letters, and a word shorter than [n] contributes nothing), each
    with the float quotient of its number of occurrences by the number of
    windows; the table is that quotient applied to a table of counts, each
    count positive and the counts adding up to the number of windows. *)
Theorem get_ngram_probs_table (words : list word) (n : nat) :
  let windows := all_ngrams n words in
  (∀ k, get_ngram_probs words n !! k =
     if decide (k ∈ windows)
     then Some (float_of_nat (occurrences k windows)
                / float_of_nat (length windows))%float
     else None) ∧
  (∀ k, is_Some (get_ngram_probs words n !! k) ↔
     ∃ w i, w ∈ words ∧ i + n ≤ length w ∧ k = take n (drop i w)) ∧
  (∀ k, is_Some (get_ngram_probs words n !! k) → length k = n) ∧
  ∃ counts : gmap word nat,
    counts_of windows counts ∧
    get_ngram_probs words n
    = (λ c, (float_of_nat c / float_of_nat (length windows))%float)
        <$> counts.
Proof.
  intros windows.
  assert (Htable : get_ngram_probs words n = normalize (tally windows ∅))
    by (unfold get_ngram_probs; by rewrite ngram_counts_tally).
  assert (Hkeys : ∀ k, is_Some (get_ngram_probs words n !! k) ↔
            ∃ w i, w ∈ words ∧ i + n ≤ length w ∧ k = take n (drop i w)).
  { intros k. rewrite Htable, normalize_tally_lookup, <- elem_of_all_ngrams.
    fold windows.
    case_decide; [by split; [|eexists] | split; [by intros [? ?] | done]]. }
  split_and!.
  - intros k. rewrite Htable. apply normalize_tally_lookup.
  - done.
  - intros k (w & i & _ & Hi & ->)%Hkeys.
    rewrite length_take, length_drop. lia.
  - exists (tally windows ∅). split; [apply tally_counts|].
    rewrite Htable. apply normalize_tally.
Qed.

Lemma pos_word_loop_spec (rest : word) : ∀ i pc,
  match pos_word_loop i rest pc with
  | Some pc' =>
      length pc' = length pc ∧
      (rest = [] ∨ i + length rest ≤ length pc) ∧
      ∀ j, pc' !! j =
        if decide (i ≤ j) then
          match rest !! (j - i) with
          | Some ch => counter_incr ch <$> pc !! j
          | None => pc !! j
          end
        else pc !! j
  | None => length pc < i + length rest
  end.
Proof.
  induction rest as [|ch rest IH]; intros i pc.
  - simpl. split_and!; [done | by left|].
    intros j. by case_decide.
  - simpl. unfold pos_incr.
    destruct (pc !! i) as [c|] eqn:Hi; simpl.
    2:{ apply lookup_ge_None in Hi. lia. }
    pose proof (lookup_lt_Some _ _ _ Hi) as Hlt.
    specialize (IH (S i) (<[i:=counter_incr ch c]> pc)).
    destruct (pos_word_loop (S i) rest _) as [pc'|].
    + destruct IH as (Hlen & Hrange & Hlk). rewrite length_insert in Hlen.
      rewrite length_insert in Hrange.
      split_and!; [done | right; destruct Hrange as [->|?]; simpl; lia|].
      intros j. rewrite Hlk.
      destruct (decide (S i ≤ j)) as [Hj|Hj].
      * rewrite decide_True by lia.
        replace (j - i) with (S (j - S i)) by lia. simpl.
        by rewrite list_lookup_insert_ne by lia.
      * destruct (decide (i ≤ j)) as [Hij|Hij].
        -- assert (j = i) as -> by lia. rewrite Nat.sub_diag. simpl.
           by rewrite list_lookup_insert_eq, Hi by done.
        -- by rewrite list_lookup_insert_ne by lia.
    + rewrite length_insert in IH. lia.
Qed.

Lemma column_cons (j : nat) (w : word) (words : list word) :
  column j (w :: words) =
    match w !! j with
    | Some ch => ch :: column j words
    | None => column j words
    end.
Proof. unfold column. simpl. by destruct (w !! j). Qed.

Lemma elem_of_column (j : nat) (words : list word) (ch : ascii) :
  ch ∈ column j words ↔ ∃ w, w ∈ words ∧ w !! j = Some ch.
Proof. unfold column. apply list_elem_of_omap. Qed.

Lemma pos_words_loop_spec (words : list word) : ∀ pc,
  match pos_words_loop words pc with
  | Some pc' =>
      length pc' = length pc ∧
      Forall (λ w : word, length w ≤ length pc) words ∧
      ∀ j, pc' !! j = (λ c, tally (column j words) c) <$> pc !! j
  | None => Exists (λ w : word, length pc < length w) words
  end.
Proof.
  induction words as [|w words IH]; intros pc.
  - simpl. split_and!; [done..|]. intros j. by destruct (pc !! j).
  - change (pos_words_loop (w :: words) pc)
      with (pos_word_loop 0 w pc ≫= pos_words_loop words).
    pose proof (pos_word_loop_spec w 0 pc) as Hw.
    destruct (pos_word_loop 0 w pc) as [pc1|]; cbn [mbind option_bind].
    2:{ apply Exists_cons. left. simpl in Hw. lia. }
    destruct Hw as (Hlen1 & Hrange & Hlk1). specialize (IH pc1).
    destruct (pos_words_loop words pc1) as [pc'|].
    + destruct IH as (Hlen & Hall & Hlk). rewrite Hlen1 in Hlen, Hall.
      split_and!; [done| |].
      * constructor; [|done]. destruct Hrange as [->|?]; simpl in *; lia.
      * intros j. rewrite Hlk, Hlk1, column_cons, Nat.sub_0_r.
        rewrite decide_True by lia.
        destruct (w !! j), (pc !! j); done.
    + apply Exists_cons. right. by rewrite <- Hlen1.
Qed.

(** X3. [get_positional_probs] raises ([IndexError] at
    [pos_counts[i]]) exactly when some word of the corpus has more than
    five letters; shorter words are accepted. *)
Theorem get_positional_probs_raises (words : list word) :
  get_positional_probs words = None ↔ ∃ w, w ∈ words ∧ 5 < length w.
Proof.
  unfold get_positional_probs.
  pose proof (pos_words_loop_spec words (replicate 5 ∅)) as Hloop.
  destruct (pos_words_loop words (replicate 5 ∅)) as [pc|].
  - destruct Hloop as (_ & Hall & _). split; [done|].
    intros (w & Hw & Hlong). rewrite Forall_forall in Hall.
    specialize (Hall w Hw). rewrite length_replicate in Hall. lia.
  - split; [|done]. intros _. apply Exists_exists in Hloop as (w & Hw & Hlong).
    rewrite length_replicate in Hlong. by exists w.
Qed.

(** X4. When it returns, [get_positional_probs] gives five tables; the
    table of index [i] holds exactly the letters that stand at index [i]
    of some word, each with the float quotient of its number of
    occurrences there by the number of words that have an index [i]; the
    table is that quotient applied to a table of counts, each count
    positive and the counts adding up to that number of words. *)
Theorem get_positional_probs_tables (words : list word)
    (pos_probs : list (gmap ascii float)) :
  get_positional_probs words = Some pos_probs →
  length pos_probs = 5 ∧
  ∀ i, i < 5 →
    let letters := column i words in
    ∃ t, pos_probs !! i = Some t ∧
      (∀ ch, t !! ch =
         if decide (ch ∈ letters)
         then Some (float_of_nat (str_count ch letters)
                    / float_of_nat (length letters))%float
         else None) ∧
      (∀ ch, is_Some (t !! ch) ↔ ∃ w, w ∈ words ∧ w !! i = Some ch) ∧
      ∃ counts : gmap ascii nat,
        counts_of letters counts ∧
        t = (λ n, (float_of_nat n / float_of_nat (length letters))%float)
              <$> counts.
Proof.
  unfold get_positional_probs.
  pose proof (pos_words_loop_spec words (replicate 5 ∅)) as Hloop.
  destruct (pos_words_loop words (replicate 5 ∅)) as [pc|]; [|done].
  destruct Hloop as (Hlen & _ & Hlk). rewrite length_replicate in Hlen.
  intros [= <-]. split; [by rewrite length_fmap|].
  intros i Hi. set (letters := column i words).
  exists (normalize (tally letters ∅)).
  assert (Htable : ∀ ch, normalize (tally letters ∅) !! ch =
            if decide (ch ∈ letters)
            then Some (frequency (str_count ch letters) (length letters))
            else None)
    by (intros ch; apply (normalize_tally_lookup letters ch)).
  split_and!.
  - rewrite list_lookup_fmap, Hlk, lookup_replicate_2 by done. done.
  - done.
  - intros ch. rewrite Htable. unfold letters. rewrite <- elem_of_column.
    case_decide; [by split; [|eexists] | split; [by intros [? ?] | done]].
  - exists (tally letters ∅). split; [apply tally_counts|].
    apply normalize_tally.
Qed.

Lemma get_positional_probs_tables_witness :
  ∃ pos_probs,
    get_positional_probs [wd "stale"; wd "llano"] = Some pos_probs ∧
    length pos_probs = 5 ∧
    ∃ t, pos_probs !! 2 = Some t ∧ t !! "a"%char = Some 1%float.
Proof.
  eexists. split; [reflexivity|].
  destruct (get_positional_probs_tables [wd "stale"; wd "llano"] _ eq_refl)
    as (Hlen & Htables).
  split; [exact Hlen|].
  destruct (Htables 2 ltac:(lia)) as (t & Ht & Hlookup & _).
  exists t. split; [exact Ht|]. rewrite Hlookup. by vm_compute.
Defined.

(** * Feedback: errors, the returned triple, and the target's own fate *)

Lemma feedback_step_is_Some guess actual fb i ch :
  is_Some (actual !! i) → is_Some (feedback_step guess actual fb i ch).
Proof.
  intros [a Ha]. unfold feedback_step. rewrite Ha. simpl.
  repeat case_decide; by eexists.
Qed.

Lemma feedback_loop_raises guess actual : ∀ rest i fb,
  rest ≠ [] → length actual < i + length rest →
  feedback_loop guess actual i rest fb = None.
Proof.
  induction rest as [|ch rest IH]; intros i fb Hne Hlen; [done|].
  cbn [feedback_loop].
  destruct (actual !! i) as [a|] eqn:Ha.
  - destruct (feedback_step_is_Some guess actual fb i ch) as [fb' ->];
      [by rewrite Ha|].
    simpl. apply lookup_lt_Some in Ha. simpl in Hlen.
    apply IH; [|lia]. intros ->. simpl in Hlen. lia.
  - unfold feedback_step. by rewrite Ha.
Qed.

Lemma get_feedback_None_iff (guess actual : word) :
  get_feedback guess actual = None ↔ length actual < length guess.
Proof.
  split.
  - intros Hnone. destruct (decide (length guess ≤ length actual)); [|lia].
    by rewrite get_feedback_closed in Hnone.
  - intros Hlen. apply feedback_loop_raises; [|simpl; lia].
    intros ->. simpl in Hlen. lia.
Qed.

(** X5. [get_feedback] raises ([IndexError] at [actual[i]]) exactly when
    the guess is longer than the target; a guess that is shorter is
    compared with the front of the target without complaint. *)
Theorem get_feedback_raises (guess actual : word) :
  get_feedback guess actual = None ↔ length actual < length guess.
Proof. apply get_feedback_None_iff. Qed.

Lemma feedback_entries (guess actual : word) (fb : feedback) :
  get_feedback guess actual = Some fb →
  (∀ i ch, (i, ch) ∈ green fb ↔
     guess !! i = Some ch ∧ actual !! i = Some ch) ∧
  (∀ ch i, (ch, i) ∈ yellow fb ↔
     guess !! i = Some ch ∧ actual !! i ≠ Some ch ∧ ch ∈ actual ∧
     str_count ch guess ≤ str_count ch actual) ∧
  (∀ ch, ch ∈ gray fb ↔
     ∃ i, guess !! i = Some ch ∧ actual !! i ≠ Some ch ∧
       (ch ∉ actual ∨ str_count ch actual < str_count ch guess)) ∧
  (∀ ch, ch ∈ (yellow fb).*1 → ch ∉ gray fb) ∧
  NoDup (green fb).*1 ∧ NoDup (yellow fb).
Proof.
  intros Hfb.
  assert (Hlen : length guess ≤ length actual).
  { destruct (decide (length guess ≤ length actual)); [done|].
    rewrite (proj2 (get_feedback_None_iff guess actual)) in Hfb by lia. done. }
  rewrite get_feedback_closed in Hfb by done. injection Hfb as <-. simpl.
  assert (Hmark : ∀ i ch m,
            (i, ch) ∈ filter (λ p, code_mark guess actual p = m)
                             (enumerate_from 0 guess)
            ↔ guess !! i = Some ch ∧ code_mark guess actual (i, ch) = m).
  { intros i ch m. rewrite list_elem_of_filter, <- occurrence_enumerated.
    naive_solver. }
  assert (Hgreen : ∀ i ch, (i, ch) ∈ greens_of guess actual
                                       (enumerate_from 0 guess)
                   ↔ guess !! i = Some ch ∧ actual !! i = Some ch).
  { intros i ch. unfold greens_of. rewrite Hmark. unfold code_mark. simpl.
    repeat case_decide; naive_solver. }
  assert (Hyellow : ∀ ch i, (ch, i) ∈ yellows_of guess actual
                                        (enumerate_from 0 guess)
                    ↔ guess !! i = Some ch ∧ actual !! i ≠ Some ch
                      ∧ ch ∈ actual
                      ∧ str_count ch guess ≤ str_count ch actual).
  { intros ch i. unfold yellows_of. rewrite list_elem_of_fmap. split.
    - intros ([j c] & [= -> ->] & Hin). apply Hmark in Hin as [Hocc Hm].
      unfold code_mark in Hm. simpl in Hm.
      repeat case_decide; naive_solver.
    - intros (Hocc & Hne & Hin & Hle). exists (i, ch). split; [done|].
      apply Hmark. split; [done|]. unfold code_mark. simpl.
      rewrite decide_False by done. by rewrite decide_True. }
  assert (Hgray : ∀ ch, ch ∈ grays_of guess actual (enumerate_from 0 guess)
                  ↔ ∃ i, guess !! i = Some ch ∧ actual !! i ≠ Some ch
                      ∧ (ch ∉ actual
                         ∨ str_count ch actual < str_count ch guess)).
  { intros ch. unfold grays_of.
    rewrite elem_of_list_to_set, list_elem_of_fmap. split.
    - intros ([j c] & -> & Hin). apply Hmark in Hin as [Hocc Hm].
      exists j. unfold code_mark in Hm. simpl in *.
      repeat case_decide; try done. split_and!; [done..|].
      destruct (decide (c ∈ actual)); [right | by left].
      apply Nat.nle_gt. naive_solver.
    - intros (i & Hocc & Hne & Hwhy). exists (i, ch). split; [done|].
      apply Hmark. split; [done|]. unfold code_mark. simpl.
      rewrite decide_False by done. rewrite decide_False; [done|].
      intros [Hin Hle]. destruct Hwhy as [?|?]; [done | lia]. }
  split_and!; [done..| | |].
  - intros ch Hy Hg. apply list_elem_of_fmap in Hy as ([c i] & -> & Hy).
    apply Hyellow in Hy as (_ & _ & Hin & Hle). simpl in Hg.
    apply Hgray in Hg as (j & _ & _ & [?|?]); [done | lia].
  - apply (greens_NoDup_keys guess actual).
  - unfold yellows_of. apply NoDup_fmap_2; [apply _|].
    apply NoDup_filter. eapply NoDup_fmap_1.
    apply (enumerate_from_NoDup_keys guess 0).
Qed.

(** X6. The returned triple, entry by entry: green holds the occurrences
    that are in place, yellow those out of place whose letter is in the
    target and not guessed more often than the target has it, gray the
    letters of all other occurrences; no letter is both yellow and gray,
    and neither dict nor list holds an entry twice. *)
Theorem get_feedback_entries (guess actual : word) (fb : feedback) :
  get_feedback guess actual = Some fb →
  (∀ i ch, (i, ch) ∈ green fb ↔
     guess !! i = Some ch ∧ actual !! i = Some ch) ∧
  (∀ ch i, (ch, i) ∈ yellow fb ↔
     guess !! i = Some ch ∧ actual !! i ≠ Some ch ∧ ch ∈ actual ∧
     str_count ch guess ≤ str_count ch actual) ∧
  (∀ ch, ch ∈ gray fb ↔
     ∃ i, guess !! i = Some ch ∧ actual !! i ≠ Some ch ∧
       (ch ∉ actual ∨ str_count ch actual < str_count ch guess)) ∧
  (∀ ch, ch ∈ (yellow fb).*1 → ch ∉ gray fb) ∧
  NoDup (green fb).*1 ∧ NoDup (yellow fb).
Proof. apply feedback_entries. Qed.

Lemma get_feedback_entries_witness :
  ∃ fb, get_feedback (wd "apple") (wd "stale") = Some fb ∧
    ∀ ch, ch ∈ (yellow fb).*1 → ch ∉ gray fb.
Proof.
  eexists. split; [reflexivity|].
  by apply (get_feedback_entries (wd "apple") (wd "stale")).
Defined.

(** X7. Between words of equal length the feedback carries no yellow
    entry and no gray letter exactly when the guess is the target; the
    green dict then lists every position of the word. *)
Theorem get_feedback_all_green (guess actual : word) (fb : feedback) :
  length guess = length actual →
  get_feedback guess actual = Some fb →
  (yellow fb = [] ∧ gray fb = ∅ ↔ guess = actual) ∧
  (guess = actual → green fb = enumerate_from 0 guess).
Proof.
  intros Hlen Hfb.
  destruct (feedback_entries guess actual fb Hfb)
    as (Hgreen & Hyellow & Hgray & _).
  assert (Hback : guess = actual → yellow fb = [] ∧ gray fb = ∅
                                   ∧ green fb = enumerate_from 0 guess).
  { intros <-. rewrite get_feedback_closed in Hfb by done.
    injection Hfb as <-. simpl.
    assert (Hall : ∀ p, p ∈ enumerate_from 0 guess
                        → code_mark guess guess p = Fixed).
    { intros [i ch] Hin%occurrence_enumerated. unfold code_mark. simpl.
      by rewrite decide_True. }
    unfold yellows_of, grays_of, greens_of. clear Hgreen Hyellow Hgray Hlen.
    induction (enumerate_from 0 guess) as [|p ps IH]; [done|].
    rewrite !filter_cons, (Hall p) by by left. simpl.
    destruct IH as (Hy & Hg & Hgr); [intros q Hq; apply Hall; by right|].
    by rewrite Hy, Hg, Hgr. }
  split; [|naive_solver]. split; [|naive_solver].
  intros [Hy Hg]. apply list_eq_same_length with (length guess); [done..|].
  intros i ch ch' Hi Hch Hch'.
  destruct (decide (actual !! i = Some ch)) as [Heq|Hne]; [congruence|].
  destruct (decide (ch ∈ actual
                    ∧ str_count ch guess ≤ str_count ch actual))
    as [[Hin Hle]|Hno].
  - assert ((ch, i) ∈ yellow fb) as Hin' by (by apply Hyellow).
    rewrite Hy in Hin'. by apply elem_of_nil in Hin'.
  - assert (ch ∈ gray fb) as Hin'.
    { apply Hgray. exists i. split_and!; [done..|].
      destruct (decide (ch ∈ actual)); [right | by left].
      apply Nat.nle_gt. naive_solver. }
    rewrite Hg in Hin'. by apply not_elem_of_empty in Hin'.
Qed.

Lemma get_feedback_all_green_witness :
  length (wd "stale") = length (wd "stale") ∧
  ∃ fb, get_feedback (wd "stale") (wd "stale") = Some fb ∧
    green fb = enumerate_from 0 (wd "stale").
Proof.
  split; [done|]. eexists. split; [reflexivity|].
  by apply (get_feedback_all_green (wd "stale") (wd "stale")).
Defined.

Lemma in_place_count_le (L : ascii) : ∀ guess actual : word,
  (∀ i, guess !! i = Some L → actual !! i = Some L) →
  str_count L guess ≤ str_count L actual.
Proof.
  induction guess as [|c guess IH]; intros actual Hplace; [cbn; lia|].
  rewrite str_count_cons.
  destruct actual as [|a actual].
  - assert (str_count L guess ≤ str_count L []) as Hrest
      by (apply IH; intros i Hi; by specialize (Hplace (S i) Hi)).
    rewrite decide_False; [by rewrite Nat.add_0_l|].
    intros ->. by specialize (Hplace 0 eq_refl).
  - rewrite str_count_cons.
    specialize (IH actual (λ i Hi, Hplace (S i) Hi)).
    destruct (decide (c = L)) as [->|Hne]; [|case_decide; lia].
    specialize (Hplace 0 eq_refl). injection Hplace as ->.
    rewrite decide_True by done. lia.
Qed.

(** The letters the guess holds more often than the target are in place
    at least once. *)
Definition surplus_in_place (guess target : word) : Prop :=
  ∀ ch, ch ∈ target → str_count ch target < str_count ch guess →
    ∃ i, guess !! i = Some ch ∧ target !! i = Some ch.

Lemma target_retained (guess target : word) (fb : feedback) :
  get_feedback guess target = Some fb →
  (∀ pos char, (pos, char) ∈ green fb → target !! pos = Some char) ∧
  (∀ char pos, (char, pos) ∈ yellow fb →
     char ∈ target ∧ target !! pos ≠ Some char) ∧
  ((∀ char, char ∈ gray fb →
      char ∉ target ∨ char ∈ PyDict.values (green fb)
      ∨ char ∈ (yellow fb).*1) ↔
   surplus_in_place guess target).
Proof.
  intros Hfb.
  destruct (feedback_entries guess target fb Hfb)
    as (Hgreen & Hyellow & Hgray & Hdisj & _).
  split_and!.
  - intros pos char Hin. by apply Hgreen in Hin as [_ ?].
  - intros char pos Hin. by apply Hyellow in Hin as (_ & ? & ? & _).
  - split.
    + intros Hpass ch Hin Hmore.
      destruct (decide (ch ∈ gray fb)) as [Hg|Hg].
      * destruct (Hpass ch Hg) as [?|[Hval|Hy]]; [done| |].
        -- apply list_elem_of_fmap in Hval as ([j c] & -> & Hj).
           exists j. by apply Hgreen.
        -- by destruct (Hdisj ch Hy).
      * exfalso. apply (Nat.lt_irrefl (str_count ch target)).
        eapply Nat.lt_le_trans; [exact Hmore|].
        apply in_place_count_le. intros i Hocc.
        destruct (decide (target !! i = Some ch)); [done|].
        destruct Hg. apply Hgray. exists i. split_and!; [done..|by right].
    + intros Hplace char (i & Hocc & Hne & Hwhy)%Hgray.
      destruct (decide (char ∈ target)) as [Hin|Hnin]; [|by left].
      destruct Hwhy as [?|Hmore]; [done|].
      destruct (Hplace char Hin Hmore) as (j & Hj & Hj').
      right. left. apply list_elem_of_fmap. exists (j, char).
      split; [done|]. by apply Hgreen.
Qed.

(** X8. When the target keeps its place in the pool. Under the feedback
    of a guess the green loop and the yellow loop of [filter_words] never
    reject the target; the gray loop accepts it exactly when every letter
    of the target that the guess holds more often than the target is in
    place at least once; so [filter_words] keeps a target that is in the
    list under that condition, and drops it otherwise. *)
Theorem target_retained_iff (set_iter : gset ascii → list ascii)
    (guess target : word) (fb : feedback) :
  visits_each_once set_iter →
  get_feedback guess target = Some fb →
  green_loop target (green fb) = Some true ∧
  yellow_loop target (yellow fb) = Some true ∧
  (gray_loop target (green fb) (yellow fb) (set_iter (gray fb)) = true ↔
   surplus_in_place guess target) ∧
  (retained target (green fb) (yellow fb) (gray fb) ↔
   surplus_in_place guess target) ∧
  (∀ words out,
     filter_words set_iter words (green fb) (yellow fb) (gray fb)
     = Some out →
     (target ∈ out ↔ target ∈ words ∧ surplus_in_place guess target)).
Proof.
  intros Hiter Hfb.
  destruct (target_retained guess target fb Hfb) as (Hg & Hy & Hgray).
  assert (Hlen : length guess ≤ length target).
  { destruct (decide (length guess ≤ length target)); [done|].
    assert (get_feedback guess target = None) as Hnone
      by (apply get_feedback_None_iff; lia).
    by rewrite Hnone in Hfb. }
  destruct (get_feedback_positions guess target fb Hlen Hfb) as [Hpg Hpy].
  assert (Hgreen : green_loop target (green fb) = Some true).
  { destruct (green_loop_total target (green fb)) as [b Hb].
    - eapply Forall_impl; [exact Hpg|]. simpl. lia.
    - rewrite Hb. f_equal. by apply (green_loop_spec _ _ _ Hb). }
  assert (Hyellow : yellow_loop target (yellow fb) = Some true).
  { destruct (yellow_loop_total target (yellow fb)) as [b Hb].
    - eapply Forall_impl; [exact Hpy|]. simpl. lia.
    - rewrite Hb. f_equal. by apply (yellow_loop_spec _ _ _ Hb). }
  assert (Hloop : gray_loop target (green fb) (yellow fb)
                    (set_iter (gray fb)) = true
                  ↔ surplus_in_place guess target).
  { rewrite gray_loop_spec, <- Hgray. split.
    - intros Hall char Hin. apply Hall. rewrite (Hiter _).
      by apply elem_of_elements.
    - intros Hall char Hin. apply Hall. rewrite (Hiter _) in Hin.
      by apply elem_of_elements in Hin. }
  assert (Hret : retained target (green fb) (yellow fb) (gray fb)
                 ↔ surplus_in_place guess target).
  { unfold retained. rewrite <- Hgray. naive_solver. }
  split_and!; [done..|].
  intros words out Hout.
  apply filter_words_closed in Hout as [_ ->].
  rewrite list_elem_of_filter, <- Hloop. unfold word_valid.
  rewrite Hgreen, Hyellow. simpl. split.
  - by intros [[= ->] ?].
  - intros [? ->]. done.
Qed.

Lemma target_retained_iff_witness :
  ∃ fb out, get_feedback (wd "llano") (wd "stale") = Some fb ∧
    visits_each_once elements ∧
    filter_words elements [wd "llama"; wd "stale"]
      (green fb) (yellow fb) (gray fb) = Some out ∧
    out = [] ∧
    (wd "stale" ∈ out ↔
     wd "stale" ∈ [wd "llama"; wd "stale"] ∧
     surplus_in_place (wd "llano") (wd "stale")).
Proof.
  assert (Hiter : visits_each_once elements) by (intros s; reflexivity).
  eexists. exists []. split; [reflexivity|].
  assert (Hout : filter_words elements [wd "llama"; wd "stale"]
                   [(2, "a"%char)] []
                   (∅ ∪ {[ "l"%char ]} ∪ {[ "l"%char ]} ∪ {[ "n"%char ]}
                    ∪ {[ "o"%char ]})
                 = Some []) by (by vm_compute).
  split_and!; [done | exact Hout | done |].
  destruct (target_retained_iff elements (wd "llano") (wd "stale") _
              Hiter eq_refl) as (_ & _ & _ & _ & Hfilter).
  exact (Hfilter _ _ Hout).
Defined.

(** * Filtering and scoring: edge behaviour *)

Section FilterEdges.
Variable set_iter : gset ascii → list ascii.

Lemma filter_words_all_valid (words : list word) green yellow gray :
  Forall (λ w, word_valid set_iter w green yellow gray = Some true) words →
  filter_words set_iter words green yellow gray = Some words.
Proof.
  induction 1 as [|w words Hw _ IH]; [done|].
  simpl. by rewrite Hw, IH.
Qed.

(** X9. Filtering is idempotent: the list [filter_words] returns passes
    through the same filter unchanged (and without an exception). *)
Theorem filter_words_idempotent (words out : list word)
    (green : list (nat * ascii)) (yellow : list (ascii * nat))
    (gray : gset ascii) :
  filter_words set_iter words green yellow gray = Some out →
  filter_words set_iter out green yellow gray = Some out.
Proof.
  intros [_ ->]%filter_words_closed. apply filter_words_all_valid.
  apply Forall_forall. by intros w [? _]%list_elem_of_filter.
Qed.

(** X10. With no constraint at all (the defaults of the function) every
    candidate is kept: the result is the input list. *)
Theorem filter_words_no_constraints (words : list word) :
  visits_each_once set_iter →
  filter_words set_iter words [] [] ∅ = Some words.
Proof.
  intros Hiter. apply filter_words_all_valid, Forall_forall. intros w _.
  unfold word_valid. simpl. f_equal. apply gray_loop_spec.
  intros char Hin. rewrite (Hiter ∅), elements_empty in Hin.
  by apply elem_of_nil in Hin.
Qed.

(** X11. Filtering goes word by word: the result for two lists joined is
    the two results joined, and an exception on either side is an
    exception for the whole. *)
Theorem filter_words_app (ws1 ws2 : list word)
    (green : list (nat * ascii)) (yellow : list (ascii * nat))
    (gray : gset ascii) :
  filter_words set_iter (ws1 ++ ws2) green yellow gray =
    out1 ← filter_words set_iter ws1 green yellow gray;
    out2 ← filter_words set_iter ws2 green yellow gray;
    Some (out1 ++ out2).
Proof.
  induction ws1 as [|w ws1 IH]; simpl.
  - by destruct (filter_words set_iter ws2 green yellow gray).
  - destruct (word_valid set_iter w green yellow gray) as [b|]; [|done].
    simpl. rewrite IH.
    destruct (filter_words set_iter ws1 green yellow gray); [|done]. simpl.
    destruct (filter_words set_iter ws2 green yellow gray); [|done]. simpl.
    by destruct b.
Qed.
End FilterEdges.

Lemma filter_words_idempotent_witness :
  filter_words elements [wd "stale"; wd "llano"] [(4, "e"%char)] [] ∅
    = Some [wd "stale"] ∧
  filter_words elements [wd "stale"] [(4, "e"%char)] [] ∅
    = Some [wd "stale"].
Proof.
  assert (H : filter_words elements [wd "stale"; wd "llano"]
                [(4, "e"%char)] [] ∅ = Some [wd "stale"]) by reflexivity.
  split; [done|].
  by apply (filter_words_idempotent elements [wd "stale"; wd "llano"]).
Defined.

Lemma filter_words_no_constraints_witness :
  visits_each_once elements ∧
  filter_words elements [wd "stale"; wd "llano"] [] [] ∅
    = Some [wd "stale"; wd "llano"].
Proof.
  assert (Hiter : visits_each_once elements) by (intros s; reflexivity).
  split; [done|].
  by apply (filter_words_no_constraints elements).
Defined.

Lemma score_word_None_iff (set_iter : gset ascii → list ascii) (w : word)
    (letter_probs : gmap ascii float) (bigram_probs trigram_probs : gmap word float)
    (pos_probs : list (gmap ascii float)) (wts : weights) :
  score_word set_iter w letter_probs bigram_probs trigram_probs pos_probs wts
    = None
  ↔ length w < 5 ∨ length pos_probs < 5.
Proof.
  split.
  - intros Hnone.
    destruct (decide (5 ≤ length w ∧ 5 ≤ length pos_probs)) as [[? ?]|];
      [|lia].
    destruct (score_word_total set_iter wts letter_probs bigram_probs
                trigram_probs pos_probs w) as [q Hq]; [done..|].
    unfold score in Hq. congruence.
  - intros Hshort. unfold score_word.
    destruct (mapM _ (seq 0 5)) as [terms|] eqn:Hterms; [|done].
    exfalso. apply mapM_Some_1, Forall2_lookup_l with (i := 4) (x := 4)
      in Hterms as (q & _ & Hq); [|done].
    destruct (pos_probs !! 4) as [t|] eqn:Ht; [|done].
    destruct (w !! 4) as [c|] eqn:Hc; [|done].
    apply lookup_lt_Some in Ht, Hc. lia.
Qed.

(** X12. [score_word] raises ([IndexError]) exactly when the word has
    fewer than five letters or there are fewer than five position tables;
    letters and tables beyond the fifth are never an error. *)
Theorem score_word_raises (set_iter : gset ascii → list ascii) (w : word)
    (letter_probs : gmap ascii float) (bigram_probs trigram_probs : gmap word float)
    (pos_probs : list (gmap ascii float)) (wts : weights) :
  score_word set_iter w letter_probs bigram_probs trigram_probs pos_probs wts
    = None
  ↔ length w < 5 ∨ length pos_probs < 5.
Proof. apply score_word_None_iff. Qed.

(** * The simulation loop: what every run keeps *)

Section StepCases.
Variable set_iter : gset ascii → list ascii.
Variable target_word : word.
Variable wts : weights.
Variable letter_probs : gmap ascii float.
Variable bigram_probs trigram_probs : gmap word float.
Variable pos_probs : list (gmap ascii float).

Let ranking := ranked set_iter wts letter_probs bigram_probs trigram_probs
                      pos_probs.
Let step := sim_step set_iter target_word wts letter_probs bigram_probs
                     trigram_probs pos_probs.
Let loop := sim_loop set_iter target_word wts letter_probs bigram_probs
                     trigram_probs pos_probs.

(** The ranked list holds the unused words of the pool, no others. *)
Lemma ranked_elem (possible : list word) (used : gset word) l :
  ranking possible used = Some l →
  ∀ w, w ∈ l ↔ w ∈ possible ∧ w ∉ used.
Proof.
  unfold ranking, ranked.
  destruct (mapM _ possible) as [keys|] eqn:Hkeys; simpl; [|done].
  intros [= <-] w. rewrite list_elem_of_filter, sorted_desc_perm.
  rewrite snd_zip by (by rewrite (length_mapM _ _ _ Hkeys)).
  naive_solver.
Qed.

(** A pass that goes round again: the guess made and the next state. *)
Lemma sim_step_Continue s s' :
  step s = Continue s' →
  ∃ guess rest fb,
    st_possible s ≠ [] ∧
    ranking (st_possible s) (st_used s) = Some (guess :: rest) ∧
    guess ≠ target_word ∧
    st_attempts s + 1 < max_attempts ∧
    get_feedback guess target_word = Some fb ∧
    filter_words set_iter (st_possible s)
      (PyDict.update (st_green s) (green fb)) (st_yellow s ++ yellow fb)
      (st_gray s ∪ gray fb) = Some (st_possible s') ∧
    st_green s' = PyDict.update (st_green s) (green fb) ∧
    st_yellow s' = st_yellow s ++ yellow fb ∧
    st_gray s' = st_gray s ∪ gray fb ∧
    st_attempts s' = st_attempts s + 1 ∧
    st_used s' = st_used s ∪ {[guess]} ∧
    st_log s' = st_log s ++ [(guess, length (st_possible s))].
Proof.
  unfold step, sim_step. fold ranking.
  destruct (st_possible s) as [|w0 ws] eqn:Hpool; [done|].
  rewrite <- Hpool.
  destruct (ranking _ _) as [[|guess rest]|]; [done| |done].
  destruct (decide (guess = target_word)); [done|].
  destruct (decide (max_attempts ≤ st_attempts s + 1)); [done|].
  destruct (get_feedback guess target_word) as [fb|] eqn:Hfb; [|done].
  destruct (filter_words _ _ _ _ _) as [possible_words|] eqn:Hfilter;
    [|done].
  intros [= <-]. exists guess, rest, fb. simpl.
  split_and!; first [done | by rewrite Hpool | lia].
Qed.

(** A pass that returns: which of the four exits, and with what. *)
Lemma sim_step_Return s r :
  step s = Return r →
  (st_possible s = [] ∧
   r = Result None (st_log s) (Some MsgNoPossibleWords)) ∨
  (st_possible s ≠ [] ∧ ranking (st_possible s) (st_used s) = Some [] ∧
   r = Result None (st_log s) (Some MsgNoNewCandidates)) ∨
  (∃ guess rest,
     st_possible s ≠ [] ∧
     ranking (st_possible s) (st_used s) = Some (guess :: rest) ∧
     ((guess = target_word ∧
       r = Result (Some (st_attempts s + 1))
                  (st_log s ++ [(guess, length (st_possible s))]) None) ∨
      (guess ≠ target_word ∧ max_attempts ≤ st_attempts s + 1 ∧
       r = Result None (st_log s ++ [(guess, length (st_possible s))])
                  (Some MsgGaveUp)))).
Proof.
  unfold step, sim_step. fold ranking.
  destruct (st_possible s) as [|w0 ws] eqn:Hpool;
    [intros [= <-]; by left|].
  rewrite <- Hpool.
  assert (st_possible s ≠ []) by (by rewrite Hpool).
  destruct (ranking _ _) as [[|guess rest]|]; [|  |done].
  { intros [= <-]. right. by left. }
  destruct (decide (guess = target_word)).
  { intros [= <-]. right. right. exists guess, rest.
    split_and!; [done..|]. by left. }
  destruct (decide (max_attempts ≤ st_attempts s + 1)).
  { intros [= <-]. right. right. exists guess, rest.
    split_and!; [done..|]. by right. }
  destruct (get_feedback guess target_word) as [fb|]; [|done].
  by destruct (filter_words _ _ _ _ _).
Qed.

(** A property kept by every pass that goes round holds in the state
    from which the loop finally returns. *)
Lemma sim_loop_invariant (I : sim_state → Prop) :
  (∀ s s', I s → step s = Continue s' → I s') →
  ∀ fuel s r, I s → loop fuel s = Returned r →
    ∃ s', I s' ∧ step s' = Return r.
Proof.
  intros Hkeep. induction fuel as [|fuel IH]; intros s r Hs; [done|].
  unfold loop in *. simpl. fold step.
  destruct (step s) as [r'|s'|] eqn:Hstep; [|by eauto|done].
  intros [= <-]. by exists s.
Qed.

Lemma sim_loop_invariant_raise (I : sim_state → Prop) :
  (∀ s s', I s → step s = Continue s' → I s') →
  ∀ fuel s, I s → loop fuel s = Raised → ∃ s', I s' ∧ step s' = Raise.
Proof.
  intros Hkeep. induction fuel as [|fuel IH]; intros s Hs; [done|].
  unfold loop in *. simpl. fold step.
  destruct (step s) as [r'|s'|] eqn:Hstep; [done|by eauto|].
  intros _. by exists s.
Qed.
End StepCases.

Section LogFacts.
Variable set_iter : gset ascii → list ascii.
Variable target_word : word.
Variable wts : weights.
Variable letter_probs : gmap ascii float.
Variable bigram_probs trigram_probs : gmap word float.
Variable pos_probs : list (gmap ascii float).
Variable word_list : list word.

Let ranking := ranked set_iter wts letter_probs bigram_probs trigram_probs
                      pos_probs.
Let step := sim_step set_iter target_word wts letter_probs bigram_probs
                     trigram_probs pos_probs.
Let loop := sim_loop set_iter target_word wts letter_probs bigram_probs
                     trigram_probs pos_probs.

(** What the bookkeeping of the loop keeps true from pass to pass. *)
Definition log_inv (s : sim_state) : Prop :=
  st_possible s `sublist_of` word_list ∧
  (∀ w, w ∈ st_used s ↔ w ∈ (st_log s).*1) ∧
  NoDup (st_log s).*1 ∧
  (∀ w, w ∈ (st_log s).*1 → w ∈ word_list ∧ w ≠ target_word) ∧
  StronglySorted (λ a b, b ≤ a) (st_log s).*2 ∧
  Forall (λ n, length (st_possible s) ≤ n ∧ 1 ≤ n ∧ n ≤ length word_list)
         (st_log s).*2 ∧
  head ((st_log s).*2 ++ [length (st_possible s)])
    = Some (length word_list) ∧
  st_attempts s = length (st_log s) ∧
  st_attempts s < max_attempts.

Lemma log_inv_init : log_inv (sim_init word_list).
Proof.
  unfold log_inv. simpl. split_and!; try done.
  - set_solver.
  - constructor.
  - by intros w ?%elem_of_nil.
  - constructor.
  - unfold max_attempts. lia.
Qed.

Lemma guess_in_pool s guess rest :
  ranking (st_possible s) (st_used s) = Some (guess :: rest) →
  guess ∈ st_possible s ∧ guess ∉ st_used s.
Proof.
  intros Hranked. apply (ranked_elem _ _ _ _ _ _ _ _ _ Hranked). by left.
Qed.

Lemma pool_size_bounds s :
  st_possible s `sublist_of` word_list → st_possible s ≠ [] →
  1 ≤ length (st_possible s) ∧ length (st_possible s) ≤ length word_list.
Proof.
  intros Hsub Hne. split; [|by apply sublist_length].
  destruct (st_possible s); [done | simpl; lia].
Qed.

Lemma log_inv_step s s' : log_inv s → step s = Continue s' → log_inv s'.
Proof.
  intros (Hpool & Hused & Hnodup & Hguesses & Hsorted & Hsizes & Hfirst
          & Hatt & Hlt) Hstep.
  apply sim_step_Continue in Hstep
    as (guess & rest & fb & Hne & Hranked & Hwrong & Hbudget & _ & Hfilter
        & _ & _ & _ & Hatt' & Hused' & Hlog').
  apply guess_in_pool in Hranked as [Hin Hnew].
  apply filter_words_closed in Hfilter as [_ Hpool'].
  assert (Hsub : st_possible s' `sublist_of` st_possible s)
    by (rewrite Hpool'; apply sublist_filter).
  pose proof (sublist_length _ _ Hsub) as Hshrink.
  destruct (pool_size_bounds s Hpool Hne) as [Hpos Hmax].
  unfold log_inv. rewrite Hlog', Hatt', Hused', !fmap_app. simpl.
  split_and!.
  - by etrans.
  - intros w. rewrite elem_of_union, elem_of_singleton, elem_of_app,
      list_elem_of_singleton. by rewrite Hused.
  - apply NoDup_app. split_and!; [done | | apply NoDup_singleton].
    intros w Hw ->%list_elem_of_singleton. by apply Hnew, Hused.
  - intros w [Hw| ->%list_elem_of_singleton]%elem_of_app; [by apply Hguesses|].
    split; [|done]. by eapply elem_of_sublist.
  - apply StronglySorted_app. split_and!; [|done|repeat constructor].
    intros a b Ha ->%list_elem_of_singleton.
    rewrite Forall_forall in Hsizes. by apply Hsizes.
  - apply Forall_app. split; [|by repeat constructor].
    eapply Forall_impl; [exact Hsizes|]. simpl. lia.
  - rewrite <- Hfirst. by destruct ((st_log s).*2).
  - rewrite length_app. simpl. lia.
  - done.
Qed.

(** The facts about a returned result that follow from the bookkeeping. *)
Definition log_facts (r : result) : Prop :=
  NoDup (res_log r).*1 ∧
  (∀ w, w ∈ (res_log r).*1 → w ∈ word_list) ∧
  StronglySorted (λ a b, b ≤ a) (res_log r).*2 ∧
  Forall (λ n, 1 ≤ n ∧ n ≤ length word_list) (res_log r).*2 ∧
  (res_log r ≠ [] → head (res_log r).*2 = Some (length word_list)) ∧
  (is_Some (res_attempts r) ↔ target_word ∈ (res_log r).*1) ∧
  (is_Some (res_attempts r) ↔ res_printed r = None) ∧
  (res_printed r = Some MsgGaveUp ↔
     res_attempts r = None ∧ length (res_log r) = max_attempts).

Lemma log_inv_return s r : log_inv s → step s = Return r → log_facts r.
Proof.
  intros (Hpool & Hused & Hnodup & Hguesses & Hsorted & Hsizes & Hfirst
          & Hatt & Hlt) Hstep.
  assert (Hold : ∀ msg, msg ≠ MsgGaveUp →
            log_facts (Result None (st_log s) (Some msg))).
  { intros msg Hmsg. unfold log_facts. simpl. split_and!.
    - done.
    - intros w Hw. by apply Hguesses.
    - done.
    - eapply Forall_impl; [exact Hsizes|]. simpl. lia.
    - intros Hne. rewrite <- Hfirst. destruct (st_log s); done.
    - split; [by intros [? ?]|]. intros Hw. by destruct (Hguesses _ Hw).
    - split; [by intros [? ?] | done].
    - split; [by intros [= ->] | lia]. }
  apply sim_step_Return in Hstep
    as [[_ ->]|[(_ & _ & ->)|(guess & rest & Hne & Hranked & Hexit)]];
    [by apply Hold..|].
  apply guess_in_pool in Hranked as [Hin Hnew].
  destruct (pool_size_bounds s Hpool Hne) as [Hpos Hmax].
  assert (Hnodup' : NoDup (st_log s ++ [(guess, length (st_possible s))]).*1).
  { rewrite fmap_app. apply NoDup_app. split_and!;
      [done | | apply NoDup_singleton].
    intros w Hw ->%list_elem_of_singleton. by apply Hnew, Hused. }
  assert (Hin' : ∀ w,
            w ∈ (st_log s ++ [(guess, length (st_possible s))]).*1 →
            w ∈ word_list).
  { intros w. rewrite fmap_app.
    intros [Hw| ->%list_elem_of_singleton]%elem_of_app;
      [by apply Hguesses | by eapply elem_of_sublist]. }
  assert (Hsorted' : StronglySorted (λ a b, b ≤ a)
            (st_log s ++ [(guess, length (st_possible s))]).*2).
  { rewrite fmap_app. apply StronglySorted_app.
    split_and!; [|done|repeat constructor].
    intros a b Ha ->%list_elem_of_singleton.
    rewrite Forall_forall in Hsizes. by apply Hsizes. }
  assert (Hsizes' : Forall (λ n, 1 ≤ n ∧ n ≤ length word_list)
            (st_log s ++ [(guess, length (st_possible s))]).*2).
  { rewrite fmap_app. apply Forall_app. split; [|by repeat constructor].
    eapply Forall_impl; [exact Hsizes|]. simpl. lia. }
  assert (Hfirst' : head (st_log s ++ [(guess, length (st_possible s))]).*2
                    = Some (length word_list)).
  { rewrite fmap_app. rewrite <- Hfirst. by destruct ((st_log s).*2). }
  unfold log_facts.
  destruct Hexit as [[-> ->]|(Hwrong & Hbudget & ->)]; simpl;
    (split_and!; [done..| | |]).
  - split; [intros _|by eexists]. rewrite fmap_app.
    apply elem_of_app. right. by apply list_elem_of_singleton.
  - done.
  - split; [done | by intros [? _]].
  - split; [by intros [? ?]|]. rewrite fmap_app.
    intros [Hw| ->%list_elem_of_singleton]%elem_of_app; [|done].
    by destruct (Hguesses _ Hw).
  - split; [by intros [? ?] | done].
  - split; [intros _|done]. split; [done|].
    rewrite length_app. simpl. unfold max_attempts in *. lia.
Qed.

Lemma sim_loop_log_facts fuel r :
  loop fuel (sim_init word_list) = Returned r → log_facts r.
Proof.
  intros Hret.
  apply (sim_loop_invariant set_iter target_word wts letter_probs
           bigram_probs trigram_probs pos_probs log_inv log_inv_step)
    in Hret as (s & Hs & Hstep); [|apply log_inv_init].
  by eapply log_inv_return.
Qed.
End LogFacts.

Section RunFacts.
Variable set_iter : gset ascii → list ascii.
Variable target_word : word.
Variable wts : weights.
Variable letter_probs : gmap ascii float.
Variable bigram_probs trigram_probs : gmap word float.
Variable pos_probs : list (gmap ascii float).
Variable word_list : list word.

Let simulate := simulate_game_stats set_iter target_word wts letter_probs
                  bigram_probs trigram_probs pos_probs.

Lemma simulate_log_facts fuel r :
  simulate fuel word_list = Returned r → log_facts target_word word_list r.
Proof.
  unfold simulate, simulate_game_stats. case_decide as Hnin.
  - intros [= <-]. unfold log_facts. simpl. split_and!.
    + constructor.
    + by intros w ?%elem_of_nil.
    + constructor.
    + constructor.
    + done.
    + split; [by intros [? ?] | by intros ?%elem_of_nil].
    + split; [by intros [? ?] | done].
    + split; [done | by intros [_ ?]].
  - apply sim_loop_log_facts.
Qed.

(** X13. The guesses of one run are words of the word list and pairwise
    different, so a run never makes more guesses than the list has words
    (nor more than twelve). *)
Theorem simulate_guesses_distinct fuel r :
  simulate fuel word_list = Returned r →
  NoDup (res_log r).*1 ∧
  (∀ w, w ∈ (res_log r).*1 → w ∈ word_list) ∧
  length (res_log r) ≤ length word_list.
Proof.
  intros (Hnodup & Hin & _)%simulate_log_facts. split_and!; [done..|].
  rewrite <- (length_fmap fst).
  by apply submseteq_length, NoDup_submseteq.
Qed.

(** X14. The pool sizes recorded in the guess log never increase from one
    guess to the next; the first one is the size of the word list and
    every one is at least 1 (a guess is only made from a pool that is not
    empty). *)
Theorem simulate_pool_sizes fuel r :
  simulate fuel word_list = Returned r →
  StronglySorted (λ a b, b ≤ a) (res_log r).*2 ∧
  Forall (λ n, 1 ≤ n ∧ n ≤ length word_list) (res_log r).*2 ∧
  (res_log r ≠ [] → head (res_log r).*2 = Some (length word_list)).
Proof.
  by intros (_ & _ & Hsorted & Hsizes & Hfirst & _)%simulate_log_facts.
Qed.

(** X15. How a run ends, read off the result: it is solved exactly when
    the target is among the guesses (then as the last one and nowhere
    else), exactly when nothing was printed; and giving up is reported
    exactly for an unsolved run of twelve guesses. *)
Theorem simulate_outcome fuel r :
  simulate fuel word_list = Returned r →
  (is_Some (res_attempts r) ↔ target_word ∈ (res_log r).*1) ∧
  (is_Some (res_attempts r) ↔ res_printed r = None) ∧
  (res_printed r = Some MsgGaveUp ↔
     res_attempts r = None ∧ length (res_log r) = 12) ∧
  (∀ i n, res_log r !! i = Some (target_word, n) →
     S i = length (res_log r)).
Proof.
  intros Hret.
  destruct (simulate_log_facts _ _ Hret)
    as (Hnodup & _ & _ & _ & _ & Hsolved & Hquiet & Hgave).
  split_and!; [done..|].
  intros i n Hi.
  assert (Hin : target_word ∈ (res_log r).*1).
  { apply list_elem_of_fmap. exists (target_word, n).
    split; [done | by eapply list_elem_of_lookup_2]. }
  apply Hsolved in Hin as [a Ha].
  assert (Hlast : ∃ m, last (res_log r) = Some (target_word, m)).
  { unfold simulate, simulate_game_stats in Hret.
    case_decide; [injection Hret as <-; done|].
    eapply sim_loop_result in Hret as [_ Hs];
      [by destruct (Hs a Ha) | done | simpl; unfold max_attempts; lia]. }
  destruct Hlast as [m Hm]. rewrite last_lookup in Hm.
  assert (Hi' : (res_log r).*1 !! i = Some target_word)
    by (by rewrite list_lookup_fmap, Hi).
  assert (Hm' : (res_log r).*1 !! pred (length (res_log r))
                = Some target_word)
    by (by rewrite list_lookup_fmap, Hm).
  pose proof (NoDup_lookup _ _ _ _ Hnodup Hi' Hm') as ->.
  apply lookup_lt_Some in Hi. lia.
Qed.
End RunFacts.

Lemma one_word_run :
  simulate_game_stats elements (wd "stale") default_weights ∅ ∅ ∅
    (replicate 5 ∅) 12 [wd "stale"]
  = Returned (Result (Some 1) [(wd "stale", 1)] None).
Proof. by vm_compute. Qed.

Lemma simulate_guesses_distinct_witness :
  simulate_game_stats elements (wd "stale") default_weights ∅ ∅ ∅
    (replicate 5 ∅) 12 [wd "stale"]
  = Returned (Result (Some 1) [(wd "stale", 1)] None) ∧
  NoDup [(wd "stale", 1)].*1.
Proof.
  split; [exact one_word_run|].
  by apply (simulate_guesses_distinct _ _ _ _ _ _ _ _ _ _ one_word_run).
Defined.

Lemma simulate_pool_sizes_witness :
  simulate_game_stats elements (wd "stale") default_weights ∅ ∅ ∅
    (replicate 5 ∅) 12 [wd "stale"]
  = Returned (Result (Some 1) [(wd "stale", 1)] None) ∧
  StronglySorted (λ a b, b ≤ a) [(wd "stale", 1)].*2.
Proof.
  split; [exact one_word_run|].
  by apply (simulate_pool_sizes _ _ _ _ _ _ _ _ _ _ one_word_run).
Defined.

Lemma simulate_outcome_witness :
  simulate_game_stats elements (wd "stale") default_weights ∅ ∅ ∅
    (replicate 5 ∅) 12 [wd "stale"]
  = Returned (Result (Some 1) [(wd "stale", 1)] None) ∧
  (is_Some (Some 1) ↔ wd "stale" ∈ [(wd "stale", 1)].*1).
Proof.
  split; [exact one_word_run|].
  by apply (simulate_outcome _ _ _ _ _ _ _ _ _ _ one_word_run).
Defined.

Section Opening.
Variable set_iter : gset ascii → list ascii.
Variable wts : weights.
Variable letter_probs : gmap ascii float.
Variable bigram_probs trigram_probs : gmap word float.
Variable pos_probs : list (gmap ascii float).
Variable word_list : list word.

Let ranking := ranked set_iter wts letter_probs bigram_probs trigram_probs
                      pos_probs.

Lemma head_app_nonempty {A} (l k : list A) (x : A) :
  head l = Some x → head (l ++ k) = Some x.
Proof. by destruct l. Qed.

Lemma opening_guess_ranked target_word fuel r :
  target_word ∈ word_list →
  simulate_game_stats set_iter target_word wts letter_probs bigram_probs
    trigram_probs pos_probs fuel word_list = Returned r →
  ∃ g rest, ranking word_list ∅ = Some (g :: rest) ∧
            head (res_log r) = Some (g, length word_list).
Proof.
  intros Hin. unfold simulate_game_stats.
  rewrite decide_False by (by intros ?).
  destruct fuel as [|fuel]; [done|]. simpl.
  destruct (sim_step _ _ _ _ _ _ _ (sim_init word_list)) as [r'|s'|]
    eqn:Hstep; [| |done].
  - intros [= <-]. apply sim_step_Return in Hstep
      as [[Hnil _]|[(_ & Hranked & _)|(g & rest & _ & Hranked & Hexit)]];
      simpl in *.
    + rewrite Hnil in Hin. by apply elem_of_nil in Hin.
    + assert (target_word ∈ ([] : list word)) as Hno; [|by inv Hno].
      apply (ranked_elem _ _ _ _ _ _ _ _ _ Hranked). split; [done|].
      apply not_elem_of_empty.
    + exists g, rest. split; [done|].
      by destruct Hexit as [[_ ->]|(_ & _ & ->)].
  - apply sim_step_Continue in Hstep
      as (g & rest & fb & _ & Hranked & _ & _ & _ & _ & _ & _ & _ & _ & _
          & Hlog); simpl in *.
    intros Hret. exists g, rest. split; [done|].
    apply (sim_loop_invariant set_iter target_word wts letter_probs
             bigram_probs trigram_probs pos_probs
             (λ s, head (st_log s) = Some (g, length word_list)))
      in Hret as (s & Hs & Hlast).
    + apply sim_step_Return in Hlast
        as [[_ ->]|[(_ & _ & ->)|(g' & rest' & _ & _ & Hexit)]];
        [done..|].
      destruct Hexit as [[_ ->]|(_ & _ & ->)]; simpl;
        by apply head_app_nonempty.
    + intros s1 s2 Hs1 Hstep.
      apply sim_step_Continue in Hstep
        as (? & ? & ? & _ & _ & _ & _ & _ & _ & _ & _ & _ & _ & _ & ->).
      by apply head_app_nonempty.
    + by rewrite Hlog.
Qed.

(** X16. The opening guess does not depend on the target: two runs on
    the same word list, weights and tables, for any two targets of the
    list, log the same first guess, with the size of the word list. *)
Theorem simulate_opening_guess (t1 t2 : word) fuel1 fuel2 r1 r2 :
  t1 ∈ word_list → t2 ∈ word_list →
  simulate_game_stats set_iter t1 wts letter_probs bigram_probs
    trigram_probs pos_probs fuel1 word_list = Returned r1 →
  simulate_game_stats set_iter t2 wts letter_probs bigram_probs
    trigram_probs pos_probs fuel2 word_list = Returned r2 →
  head (res_log r1) = head (res_log r2) ∧
  ∃ g, head (res_log r1) = Some (g, length word_list).
Proof.
  intros H1 H2 Hr1 Hr2.
  apply opening_guess_ranked in Hr1 as (g1 & rest1 & Hg1 & ->); [|done].
  apply opening_guess_ranked in Hr2 as (g2 & rest2 & Hg2 & ->); [|done].
  rewrite Hg1 in Hg2. injection Hg2 as -> _. split; [done | by exists g2].
Qed.
End Opening.

Lemma two_word_runs :
  simulate_game_stats elements (wd "stale") default_weights ∅ ∅ ∅
    (replicate 5 ∅) 12 [wd "crane"; wd "stale"]
  = Returned (Result (Some 2) [(wd "crane", 2); (wd "stale", 1)] None) ∧
  simulate_game_stats elements (wd "crane") default_weights ∅ ∅ ∅
    (replicate 5 ∅) 12 [wd "crane"; wd "stale"]
  = Returned (Result (Some 1) [(wd "crane", 2)] None).
Proof. split; by vm_compute. Qed.

Lemma simulate_opening_guess_witness :
  (wd "stale" ∈ [wd "crane"; wd "stale"]) ∧
  (wd "crane" ∈ [wd "crane"; wd "stale"]) ∧
  head [(wd "crane", 2); (wd "stale", 1)] = head [(wd "crane", 2)].
Proof.
  assert (H1 : wd "stale" ∈ [wd "crane"; wd "stale"])
    by (apply list_elem_of_further, list_elem_of_here).
  assert (H2 : wd "crane" ∈ [wd "crane"; wd "stale"])
    by apply list_elem_of_here.
  split_and!; [done..|].
  by apply (simulate_opening_guess _ _ _ _ _ _ _ _ _ _ _ _ _ H1 H2
              (proj1 two_word_runs) (proj2 two_word_runs)).
Defined.

(** * Corpora of words without repeated letters *)

Module PyDictElems.
Section Elems.
Context {K V : Type} `{EqDecision K}.

Lemma elem_of_set (k k' : K) (v v' : V) (d : list (K * V)) :
  (k', v') ∈ PyDict.set k v d → (k', v') = (k, v) ∨ (k', v') ∈ d.
Proof.
  induction d as [|[k0 v0] d IH]; simpl.
  - intros ?%list_elem_of_singleton. by left.
  - case_decide as Hk.
    + intros [[= -> ->]|?]%elem_of_cons; [left; by subst | right; by right].
    + intros [->|Hin]%elem_of_cons; [right; by left|].
      destruct (IH Hin); [by left | right; by right].
Qed.

(** Every entry of [d.update(e)] comes from [d] or from [e]. *)
Lemma elem_of_update (k : K) (v : V) (e d : list (K * V)) :
  (k, v) ∈ PyDict.update d e → (k, v) ∈ d ∨ (k, v) ∈ e.
Proof.
  unfold PyDict.update. revert d.
  induction e as [|[k0 v0] e IH]; intros d; simpl; [by left|].
  intros [Hin|Hin]%IH; [|right; by right].
  apply elem_of_set in Hin as [->|?]; [right; by left | by left].
Qed.
End Elems.
End PyDictElems.

Lemma str_count_NoDup (ch : ascii) (w : word) : NoDup w → str_count ch w ≤ 1.
Proof.
  induction 1 as [|c w Hc _ IH]; [cbn; lia|].
  rewrite str_count_cons. case_decide as Heq; [|lia]. subst c.
  change (str_count ch w) with (occurrences ch w).
  rewrite (occurrences_notin ch w Hc). lia.
Qed.

Lemma str_count_elem_of (ch : ascii) (w : word) : ch ∈ w → 0 < str_count ch w.
Proof. apply (occurrences_in ch w). Qed.

Section DistinctLetters.
Variable set_iter : gset ascii → list ascii.
Hypothesis visits : visits_each_once set_iter.
Variable target_word : word.
Variable wts : weights.
Variable letter_probs : gmap ascii float.
Variable bigram_probs trigram_probs : gmap word float.
Variable pos_probs : list (gmap ascii float).
Variable word_list : list word.
Hypothesis target_listed : target_word ∈ word_list.
Hypothesis distinct_letters : Forall (λ w : word, NoDup w) word_list.

Let step := sim_step set_iter target_word wts letter_probs bigram_probs
                     trigram_probs pos_probs.
Let simulate := simulate_game_stats set_iter target_word wts letter_probs
                  bigram_probs trigram_probs pos_probs.

(** The constraints gathered so far are true of the target, and the
    target is still a candidate. *)
Definition target_inv (s : sim_state) : Prop :=
  log_inv target_word word_list s ∧
  target_word ∈ st_possible s ∧
  (∀ pos char, (pos, char) ∈ st_green s → target_word !! pos = Some char) ∧
  (∀ char pos, (char, pos) ∈ st_yellow s →
     char ∈ target_word ∧ target_word !! pos ≠ Some char) ∧
  (∀ char, char ∈ st_gray s → char ∉ target_word).

Lemma target_inv_init : target_inv (sim_init word_list).
Proof.
  split.
  { apply (log_inv_init set_iter target_word wts letter_probs bigram_probs
             trigram_probs pos_probs). }
  simpl. split_and!.
  - done.
  - intros pos char Hin. inv Hin.
  - intros char pos Hin. inv Hin.
  - intros char Hin. by apply not_elem_of_empty in Hin.
Qed.

Lemma target_inv_step s s' : target_inv s → step s = Continue s' → target_inv s'.
Proof.
  intros (Hlog & Htarget & Hgreen & Hyellow & Hgray) Hstep.
  pose proof (log_inv_step _ _ _ _ _ _ _ _ _ _ Hlog Hstep) as Hlog'.
  apply sim_step_Continue in Hstep
    as (guess & rest & fb & _ & Hranked & _ & _ & Hfb & Hfilter
        & Hg' & Hy' & Hr' & _).
  destruct (feedback_entries _ _ _ Hfb) as (Hfg & Hfy & Hfr & _).
  assert (Hguess : NoDup guess).
  { destruct (proj1 (ranked_elem _ _ _ _ _ _ _ _ _ Hranked guess)
                (list_elem_of_here _ _)) as [Hin _].
    destruct Hlog as (Hpool & _). rewrite Forall_forall in distinct_letters.
    apply distinct_letters. by eapply elem_of_sublist. }
  assert (Hgreen' : ∀ pos char, (pos, char) ∈ st_green s' →
            target_word !! pos = Some char).
  { intros pos char. rewrite Hg'.
    intros [?|Hin]%PyDictElems.elem_of_update; [by apply Hgreen|].
    by apply Hfg in Hin as [_ ?]. }
  assert (Hyellow' : ∀ char pos, (char, pos) ∈ st_yellow s' →
            char ∈ target_word ∧ target_word !! pos ≠ Some char).
  { intros char pos. rewrite Hy'.
    intros [?|Hin]%elem_of_app; [by apply Hyellow|].
    by apply Hfy in Hin as (_ & ? & ? & _). }
  assert (Hgray' : ∀ char, char ∈ st_gray s' → char ∉ target_word).
  { intros char. rewrite Hr'.
    intros [?|Hin]%elem_of_union; [by apply Hgray|].
    apply Hfr in Hin as (i & _ & _ & [?|Hmore]); [done|].
    intros Hin%str_count_elem_of.
    pose proof (str_count_NoDup char guess Hguess). lia. }
  split; [done|]. split_and!; [|done..].
  rewrite <- Hg', <- Hy', <- Hr' in Hfilter.
  apply filter_words_closed in Hfilter as [Hall ->].
  apply list_elem_of_filter. split; [|done].
  rewrite Forall_forall in Hall. destruct (Hall _ Htarget) as [b Hb].
  rewrite Hb. f_equal. apply (word_valid_spec _ _ _ _ _ _ visits Hb).
  split_and!; [done..|]. intros char Hin. left. by apply Hgray'.
Qed.

Lemma target_inv_return s r :
  target_inv s → step s = Return r →
  is_Some (res_attempts r) ∨ res_printed r = Some MsgGaveUp.
Proof.
  intros (Hlog & Htarget & _) Hstep.
  destruct Hlog as (_ & Hused & _ & Hguesses & _).
  apply sim_step_Return in Hstep
    as [[Hnil _]|[(_ & Hranked & _)|(g & rest & _ & _ & Hexit)]].
  - rewrite Hnil in Htarget. by apply elem_of_nil in Htarget.
  - assert (target_word ∈ ([] : list word)) as Hno; [|by inv Hno].
    apply (ranked_elem _ _ _ _ _ _ _ _ _ Hranked). split; [done|].
    intros Hin%Hused. by destruct (Hguesses _ Hin).
  - destruct Hexit as [[_ ->]|(_ & _ & ->)]; [left; by eexists | by right].
Qed.

Lemma simulate_target_kept fuel r :
  simulate fuel word_list = Returned r →
  is_Some (res_attempts r) ∨ res_printed r = Some MsgGaveUp.
Proof.
  unfold simulate, simulate_game_stats.
  rewrite decide_False by (by intros ?). intros Hret.
  apply (sim_loop_invariant set_iter target_word wts letter_probs
           bigram_probs trigram_probs pos_probs target_inv target_inv_step)
    in Hret as (s & Hs & Hstep); [|apply target_inv_init].
  by eapply target_inv_return.
Qed.
End DistinctLetters.

Lemma simulate_returns (set_iter : gset ascii → list ascii)
    (target_word : word) (wts : weights) (letter_probs : gmap ascii float)
    (bigram_probs trigram_probs : gmap word float)
    (pos_probs : list (gmap ascii float)) (word_list : list word) :
  target_word ∈ word_list →
  Forall (λ w : word, length w = 5) word_list → 5 ≤ length pos_probs →
  ∃ r, simulate_game_stats set_iter target_word wts letter_probs
         bigram_probs trigram_probs pos_probs 12 word_list = Returned r.
Proof.
  intros Hin Hwords Htables. unfold simulate_game_stats.
  rewrite decide_False by (by intros ?).
  assert (Hwf : well_formed (sim_init word_list)) by (by split_and!).
  assert (Htarget : length target_word = 5)
    by (rewrite Forall_forall in Hwords; by apply Hwords).
  pose proof (sim_loop_no_raise set_iter target_word wts letter_probs
                bigram_probs trigram_probs pos_probs Htarget Htables
                12 _ Hwf) as Hraise.
  pose proof (sim_loop_enough_fuel set_iter target_word wts letter_probs
                bigram_probs trigram_probs pos_probs 12
                (sim_init word_list)) as Hfuel.
  destruct (sim_loop _ _ _ _ _ _ _ 12 _) as [r| |]; [by exists r|done|].
  destruct Hfuel; [lia | simpl; unfold max_attempts; lia | done].
Qed.

(** X17. On a word list whose words have no repeated letter the target
    is never lost: every constraint gathered is true of the target, so it
    stays in the pool, and a run for a target of the list can only end
    solved or by giving up after twelve guesses, never on an empty pool
    and never for want of an unused candidate. With five-letter words and
    five position tables the run does return. *)
Theorem distinct_letters_target_kept (set_iter : gset ascii → list ascii)
    (target_word : word) (wts : weights) (letter_probs : gmap ascii float)
    (bigram_probs trigram_probs : gmap word float)
    (pos_probs : list (gmap ascii float)) (word_list : list word) :
  visits_each_once set_iter →
  target_word ∈ word_list →
  Forall (λ w : word, NoDup w) word_list →
  (∀ fuel r,
     simulate_game_stats set_iter target_word wts letter_probs bigram_probs
       trigram_probs pos_probs fuel word_list = Returned r →
     is_Some (res_attempts r) ∨
     (res_printed r = Some MsgGaveUp ∧ length (res_log r) = 12)) ∧
  (Forall (λ w : word, length w = 5) word_list → 5 ≤ length pos_probs →
   ∃ r, simulate_game_stats set_iter target_word wts letter_probs
          bigram_probs trigram_probs pos_probs 12 word_list = Returned r).
Proof.
  intros Hiter Hin Hdistinct. split; [|by apply simulate_returns].
  intros fuel r Hret.
  destruct (simulate_target_kept set_iter Hiter target_word wts letter_probs
              bigram_probs trigram_probs pos_probs word_list Hin Hdistinct
              fuel r Hret) as [?|Hgave]; [by left|].
  right. split; [done|].
  apply simulate_log_facts in Hret as (_ & _ & _ & _ & _ & _ & _ & Hiff).
  by apply Hiff in Hgave as [_ ?].
Qed.

(** X18. A word list of at most twelve five-letter words without repeated
    letters is always solved: for every target of the list the run
    returns an attempt count, and the count is at most the number of
    words in the list. *)
Theorem small_corpus_solved (set_iter : gset ascii → list ascii)
    (target_word : word) (wts : weights) (letter_probs : gmap ascii float)
    (bigram_probs trigram_probs : gmap word float)
    (pos_probs : list (gmap ascii float)) (word_list : list word) :
  visits_each_once set_iter →
  target_word ∈ word_list →
  Forall (λ w : word, length w = 5 ∧ NoDup w) word_list →
  length word_list ≤ 12 → 5 ≤ length pos_probs →
  ∃ a log,
    simulate_game_stats set_iter target_word wts letter_probs bigram_probs
      trigram_probs pos_probs 12 word_list
    = Returned (Result (Some a) log None) ∧
    a = length log ∧ 1 ≤ a ≤ length word_list.
Proof.
  intros Hiter Hin Hwords Hsmall Htables.
  assert (Hfive : Forall (λ w : word, length w = 5) word_list)
    by (eapply Forall_impl; [exact Hwords | by intros w [? _]]).
  assert (Hdistinct : Forall (λ w : word, NoDup w) word_list)
    by (eapply Forall_impl; [exact Hwords | by intros w [_ ?]]).
  destruct (simulate_returns set_iter target_word wts letter_probs
              bigram_probs trigram_probs pos_probs word_list Hin Hfive
              Htables) as [r Hret].
  pose proof (simulate_log_facts _ _ _ _ _ _ _ _ _ _ Hret)
    as (Hnodup & Hlisted & _ & _ & _ & Hsolved & Hquiet & Hgave).
  assert (Hlen : ∀ l : list word, NoDup l → (∀ w, w ∈ l → w ∈ word_list) →
                   length l ≤ length word_list)
    by (intros l ? ?; by apply submseteq_length, NoDup_submseteq).
  destruct (simulate_target_kept set_iter Hiter target_word wts letter_probs
              bigram_probs trigram_probs pos_probs word_list Hin Hdistinct
              12 r Hret) as [[a Ha]|Hgaveup].
  - destruct r as [att log msg]. simpl in *. subst att.
    assert (msg = None) as -> by (apply Hquiet; by eexists).
    exists a, log. split; [done|].
    assert (a = length log) as ->.
    { unfold simulate_game_stats in Hret.
      rewrite decide_False in Hret by (by intros ?).
      eapply sim_loop_result in Hret as [_ Hs];
        [by destruct (Hs a eq_refl) | done | simpl; unfold max_attempts; lia]. }
    split; [done|]. split.
    + destruct log; [|simpl; lia].
      assert (target_word ∈ ([] : list word)) as Hno
        by (apply Hsolved; by eexists).
      by apply elem_of_nil in Hno.
    + rewrite <- (length_fmap fst). by apply Hlen.
  - exfalso. apply Hgave in Hgaveup as [Hnone Htwelve].
    assert (Hfresh : target_word ∉ (res_log r).*1).
    { intros [a Ha]%Hsolved. congruence. }
    assert (length (target_word :: (res_log r).*1) ≤ length word_list) as Hbig.
    { apply Hlen; [by constructor|].
      intros w [->|?]%elem_of_cons; [done | by apply Hlisted]. }
    simpl in Hbig. rewrite length_fmap in Hbig.
    unfold max_attempts in Htwelve. lia.
Qed.

Lemma stale_crane_listed :
  wd "stale" ∈ [wd "crane"; wd "stale"].
Proof. apply list_elem_of_further, list_elem_of_here. Qed.

Lemma stale_crane_distinct :
  Forall (λ w : word, length w = 5 ∧ NoDup w) [wd "crane"; wd "stale"].
Proof.
  assert (Hdec : ∀ w : word,
            bool_decide (length w = 5 ∧ NoDup w) = true →
            length w = 5 ∧ NoDup w)
    by (intros w; apply bool_decide_eq_true_1).
  constructor; [by apply Hdec; vm_compute|].
  constructor; [by apply Hdec; vm_compute|]. constructor.
Qed.

Lemma distinct_letters_target_kept_witness :
  visits_each_once elements ∧
  (wd "stale" ∈ [wd "crane"; wd "stale"]) ∧
  Forall (λ w : word, NoDup w) [wd "crane"; wd "stale"] ∧
  ∃ r, simulate_game_stats elements (wd "stale") default_weights ∅ ∅ ∅
         (replicate 5 ∅) 12 [wd "crane"; wd "stale"] = Returned r.
Proof.
  assert (Hiter : visits_each_once elements) by (intros s; reflexivity).
  assert (Hd : Forall (λ w : word, NoDup w) [wd "crane"; wd "stale"])
    by (eapply Forall_impl; [exact stale_crane_distinct | by intros w [_ ?]]).
  assert (H5 : Forall (λ w : word, length w = 5) [wd "crane"; wd "stale"])
    by (eapply Forall_impl; [exact stale_crane_distinct | by intros w [? _]]).
  split_and!; [done | exact stale_crane_listed | done|].
  apply (distinct_letters_target_kept elements (wd "stale") default_weights
           ∅ ∅ ∅ (replicate 5 ∅) [wd "crane"; wd "stale"] Hiter
           stale_crane_listed Hd); [done | simpl; lia].
Defined.

Lemma small_corpus_solved_witness :
  visits_each_once elements ∧
  (wd "stale" ∈ [wd "crane"; wd "stale"]) ∧
  Forall (λ w : word, length w = 5 ∧ NoDup w) [wd "crane"; wd "stale"] ∧
  length [wd "crane"; wd "stale"] ≤ 12 ∧
  5 ≤ length (replicate 5 (∅ : gmap ascii float)) ∧
  ∃ a log,
    simulate_game_stats elements (wd "stale") default_weights ∅ ∅ ∅
      (replicate 5 ∅) 12 [wd "crane"; wd "stale"]
    = Returned (Result (Some a) log None) ∧
    a = length log ∧ 1 ≤ a ≤ length [wd "crane"; wd "stale"].
Proof.
  assert (Hiter : visits_each_once elements) by (intros s; reflexivity).
  split_and!;
    [done | exact stale_crane_listed | exact stale_crane_distinct
    | simpl; lia | simpl; lia |].
  apply (small_corpus_solved elements (wd "stale") default_weights ∅ ∅ ∅
           (replicate 5 ∅) [wd "crane"; wd "stale"] Hiter stale_crane_listed
           stale_crane_distinct); simpl; lia.
Defined.

(** * The main program: one simulation per sampled word *)

(** A row of [summary_data]. *)
Record summary_row := SummaryRow {
  sum_word : word;
  sum_attempts : nat;
  sum_solved : bool
}.

(** An entry of [detailed_logs]. *)
Record detail_row := DetailRow {
  det_word : word;
  det_solved : bool;
  det_attempts : option nat;
  det_guess_log : list (word * nat)
}.

(** The four lists the loop of the main program fills. *)
Record batch := Batch {
  results : list (word * nat);
  failed_words : list word;
  summary_data : list summary_row;
  detailed_logs : list detail_row
}.

Section Main.
Variable set_iter : gset ascii → list ascii.
Variable word_list : list word.
Variable wts : weights.
Variable letter_probs : gmap ascii float.
Variable bigram_probs trigram_probs : gmap word float.
Variable pos_probs : list (gmap ascii float).

(** The body of [for idx, word in enumerate(sample_words, 1)]; an
    exception inside the simulation ends the program. *)
Definition batch_body (b : batch) (w : word) : option batch :=
  match simulate_game_stats set_iter w wts letter_probs bigram_probs
          trigram_probs pos_probs max_attempts word_list with
  | Returned r =>
      let attempts := res_attempts r in
      let guess_log := res_log r in
      let detail :=
        DetailRow w (bool_decide (is_Some attempts)) attempts guess_log in
      match attempts with
      | Some a =>
          Some (Batch (results b ++ [(w, a)]) (failed_words b)
                      (summary_data b ++ [SummaryRow w a true])
                      (detailed_logs b ++ [detail]))
      | None =>
          Some (Batch (results b) (failed_words b ++ [w])
                      (summary_data b
                       ++ [SummaryRow w (length guess_log) false])
                      (detailed_logs b ++ [detail]))
      end
  | Raised | OutOfFuel => None
  end.

Fixpoint batch_loop (sample_words : list word) (b : batch) : option batch :=
  match sample_words with
  | [] => Some b
  | w :: rest => b' ← batch_body b w; batch_loop rest b'
  end.
End Main.

(** The main program from the loaded word list to the end of its loop:
    the tables are built from the whole list, the first 100 words are the
    targets. *)
Definition main_batch (set_iter : gset ascii → list ascii)
    (word_list : list word) : option batch :=
  let letter_probs := get_letter_probs word_list in
  let bigram_probs := get_ngram_probs word_list 2 in
  let trigram_probs := get_ngram_probs word_list 3 in
  pos_probs ← get_positional_probs word_list;
  let sample_words := take 100 word_list in
  batch_loop set_iter word_list default_weights letter_probs bigram_probs
             trigram_probs pos_probs sample_words (Batch [] [] [] []).

Section MainFacts.
Variable set_iter : gset ascii → list ascii.
Variable word_list : list word.
Variable wts : weights.
Variable letter_probs : gmap ascii float.
Variable bigram_probs trigram_probs : gmap word float.
Variable pos_probs : list (gmap ascii float).

Let body := batch_body set_iter word_list wts letter_probs bigram_probs
                       trigram_probs pos_probs.
Let bloop := batch_loop set_iter word_list wts letter_probs bigram_probs
                        trigram_probs pos_probs.

(** A summary row and the detail entry written in the same pass. *)
Definition row_ok (srow : summary_row) (drow : detail_row) : Prop :=
  sum_word srow = det_word drow ∧
  sum_solved srow = det_solved drow ∧
  sum_attempts srow = length (det_guess_log drow) ∧
  1 ≤ sum_attempts srow ≤ 12 ∧
  (sum_solved srow = true ↔ is_Some (det_attempts drow)) ∧
  (∀ a, det_attempts drow = Some a → a = sum_attempts srow).

(** The [results] entry a summary row stands for, if it is a solved one. *)
Definition solved_entry (srow : summary_row) : option (word * nat) :=
  if sum_solved srow then Some (sum_word srow, sum_attempts srow) else None.

Definition batch_inv (processed : list word) (b : batch) : Prop :=
  sum_word <$> summary_data b = processed ∧
  Forall2 row_ok (summary_data b) (detailed_logs b) ∧
  results b = omap solved_entry (summary_data b) ∧
  failed_words b
    = sum_word <$> filter (λ row, sum_solved row = false) (summary_data b).

Lemma game_row (w : word) fuel r :
  w ∈ word_list →
  simulate_game_stats set_iter w wts letter_probs bigram_probs trigram_probs
    pos_probs fuel word_list = Returned r →
  1 ≤ length (res_log r) ≤ 12 ∧
  ∀ a, res_attempts r = Some a → a = length (res_log r).
Proof.
  intros Hin Hret.
  pose proof (opening_guess_ranked _ _ _ _ _ _ _ _ _ _ Hin Hret)
    as (g & rest & _ & Hhead).
  unfold simulate_game_stats in Hret.
  rewrite decide_False in Hret by (by intros ?).
  eapply sim_loop_result in Hret as [[_ Hmax] Hsolved];
    [|done|simpl; unfold max_attempts; lia].
  unfold max_attempts in Hmax. split.
  - destruct (res_log r); [done | simpl in *; lia].
  - intros a Ha. by destruct (Hsolved a Ha).
Qed.

Lemma batch_body_inv processed b w b' :
  w ∈ word_list → batch_inv processed b → body b w = Some b' →
  batch_inv (processed ++ [w]) b'.
Proof.
  intros Hin (Hwords & Hrows & Hresults & Hfailed). unfold body, batch_body.
  destruct (simulate_game_stats _ _ _ _ _ _ _ _ _) as [r| |] eqn:Hret;
    [|done..].
  destruct (game_row _ _ _ Hin Hret) as [Hlen Hatt].
  destruct r as [[a|] log msg]; simpl in *; intros [= <-];
    unfold batch_inv; simpl;
    rewrite fmap_app, omap_app, filter_app, fmap_app, Hwords;
    simpl; rewrite ?filter_cons, ?filter_nil; simpl.
  - specialize (Hatt a eq_refl). subst a.
    split; [done|]. split; [|split].
    + apply Forall2_app; [done|]. constructor; [|constructor].
      unfold row_ok. simpl.
      split_and!; [done | done | done | lia | lia | | by intros ? [= ->]].
      split; [by eexists | done].
    + by rewrite Hresults.
    + by rewrite Hfailed, app_nil_r.
  - split; [done|]. split; [|split].
    + apply Forall2_app; [done|]. constructor; [|constructor].
      unfold row_ok. simpl.
      split_and!; [done | done | done | lia | lia | | done].
      split; [done | by intros [? ?]].
    + by rewrite Hresults, app_nil_r.
    + by rewrite Hfailed.
Qed.

Lemma batch_loop_inv : ∀ sample processed b b',
  (∀ w, w ∈ sample → w ∈ word_list) →
  batch_inv processed b → bloop sample b = Some b' →
  batch_inv (processed ++ sample) b'.
Proof.
  induction sample as [|w sample IH]; intros processed b b' Hsub Hinv.
  - simpl. intros [= <-]. by rewrite app_nil_r.
  - unfold bloop in *. simpl.
    destruct (batch_body _ _ _ _ _ _ _ b w) as [b1|] eqn:Hbody; [|done].
    simpl. intros Hloop.
    replace (processed ++ w :: sample) with ((processed ++ [w]) ++ sample)
      by (by rewrite <- app_assoc).
    eapply IH; [|by eapply batch_body_inv; [apply Hsub; left|..]|done].
    intros w' Hw'. apply Hsub. by right.
Qed.

Lemma batch_loop_total : ∀ sample b,
  (∀ w, w ∈ sample → w ∈ word_list) →
  Forall (λ w : word, length w = 5) word_list → 5 ≤ length pos_probs →
  is_Some (bloop sample b).
Proof.
  induction sample as [|w sample IH]; intros b Hsub Hfive Htables; [done|].
  unfold bloop in *. simpl.
  destruct (simulate_returns set_iter w wts letter_probs bigram_probs
              trigram_probs pos_probs word_list) as [r Hr];
    [apply Hsub; by left | done..|].
  unfold batch_body. unfold max_attempts. rewrite Hr.
  destruct (res_attempts r); simpl;
    (apply IH; [intros w' Hw'; apply Hsub; by right | done..]).
Qed.

(** One word of the wrong length stops the first simulation: the ranking
    scores every word of the list and [score_word] raises on a short
    one. *)
Lemma batch_loop_short_word sample b (w : word) :
  sample ≠ [] → (∀ w', w' ∈ sample → w' ∈ word_list) →
  w ∈ word_list → length w < 5 → bloop sample b = None.
Proof.
  intros Hne Hsub Hw Hshort. destruct sample as [|t sample]; [done|].
  unfold bloop. simpl. unfold batch_body, simulate_game_stats.
  rewrite decide_False by (intros Hnin; apply Hnin, Hsub; by left).
  unfold max_attempts. simpl. unfold sim_step. simpl.
  destruct word_list as [|w0 ws] eqn:Hwl; [by apply elem_of_nil in Hw|].
  rewrite <- Hwl in *. unfold ranked.
  destruct (mapM _ word_list) as [keys|] eqn:Hkeys; [|done].
  exfalso. apply mapM_Some_1 in Hkeys.
  apply list_elem_of_lookup in Hw as [i Hi].
  destruct (Forall2_lookup_l _ _ _ _ _ Hkeys Hi) as (k & _ & Hk).
  unfold score in Hk.
  rewrite (proj2 (score_word_None_iff _ _ _ _ _ _ _)) in Hk by by left.
  done.
Qed.
End MainFacts.

Lemma sample_listed (word_list : list word) :
  ∀ w, w ∈ take 100 word_list → w ∈ word_list.
Proof. intros w Hw. eapply elem_of_sublist; [exact Hw | apply sublist_take]. Qed.

Lemma get_positional_probs_five (words : list word) :
  Forall (λ w : word, length w = 5) words →
  ∃ pos_probs, get_positional_probs words = Some pos_probs
               ∧ length pos_probs = 5.
Proof.
  intros Hfive. unfold get_positional_probs.
  pose proof (pos_words_loop_spec words (replicate 5 ∅)) as Hloop.
  destruct (pos_words_loop words (replicate 5 ∅)) as [pc|].
  - destruct Hloop as (Hlen & _). rewrite length_replicate in Hlen.
    eexists. split; [done|]. by rewrite length_fmap.
  - apply Exists_exists in Hloop as (w & Hw & Hlong).
    rewrite length_replicate in Hlong. rewrite Forall_forall in Hfive.
    specialize (Hfive w Hw). lia.
Qed.

Lemma get_positional_probs_short (words : list word) pos_probs :
  get_positional_probs words = Some pos_probs →
  Forall (λ w : word, length w ≤ 5) words.
Proof.
  unfold get_positional_probs.
  pose proof (pos_words_loop_spec words (replicate 5 ∅)) as Hloop.
  destruct (pos_words_loop words (replicate 5 ∅)) as [pc|]; [|done].
  destruct Hloop as (_ & Hall & _). intros _.
  eapply Forall_impl; [exact Hall|]. intros w.
  by rewrite length_replicate.
Qed.

(** X19. The main program, from the loaded list to the end of its loop,
    runs without an exception exactly when every word of the list has
    five letters (which the loader's length test provides); one longer
    word breaks the position tables, one shorter word the first
    ranking. *)
Theorem main_batch_runs (set_iter : gset ascii → list ascii)
    (word_list : list word) :
  is_Some (main_batch set_iter word_list)
  ↔ Forall (λ w : word, length w = 5) word_list.
Proof.
  unfold main_batch. split.
  - intros [b Hb].
    destruct (get_positional_probs word_list) as [pos_probs|] eqn:Hpp;
      [|done].
    simpl in Hb. apply get_positional_probs_short in Hpp.
    apply Forall_forall. intros w Hw. rewrite Forall_forall in Hpp.
    specialize (Hpp w Hw).
    destruct (decide (length w < 5)) as [Hshort|]; [|lia].
    rewrite (batch_loop_short_word _ _ _ _ _ _ _ _ _ w) in Hb;
      [done| |apply sample_listed|done..].
    destruct word_list; [by apply elem_of_nil in Hw | done].
  - intros Hfive.
    destruct (get_positional_probs_five word_list Hfive)
      as (pos_probs & -> & Hlen).
    simpl. apply batch_loop_total; [apply sample_listed | done | lia].
Qed.

Lemma solved_failed_length (rows : list summary_row) :
  length (omap solved_entry rows)
  + length (filter (λ row, sum_solved row = false) rows)
  = length rows.
Proof.
  induction rows as [|[w a solved] rows IH]; [done|].
  rewrite filter_cons. destruct solved.
  - change (omap solved_entry (SummaryRow w a true :: rows))
      with ((w, a) :: omap solved_entry rows).
    rewrite decide_False by done. simpl. lia.
  - change (omap solved_entry (SummaryRow w a false :: rows))
      with (omap solved_entry rows).
    rewrite decide_True by done. simpl. lia.
Qed.

(** X20. What the loop of the main program leaves behind: one summary
    row and one detail entry per sampled word, in list order; in every
    row the attempts field is the length of the guess log, between 1 and
    12 (so the not-in-list exit is never taken), the solved flags agree
    and say whether an attempt count was returned; [results] holds the
    solved rows, [failed_words] the words of the others, and together
    they account for every sampled word. *)
Theorem main_batch_rows (set_iter : gset ascii → list ascii)
    (word_list : list word) (b : batch) :
  main_batch set_iter word_list = Some b →
  sum_word <$> summary_data b = take 100 word_list ∧
  Forall2 row_ok (summary_data b) (detailed_logs b) ∧
  results b = omap solved_entry (summary_data b) ∧
  failed_words b
    = sum_word <$> filter (λ row, sum_solved row = false) (summary_data b) ∧
  length (results b) + length (failed_words b)
    = length (take 100 word_list).
Proof.
  unfold main_batch.
  destruct (get_positional_probs word_list) as [pos_probs|]; [|done].
  simpl. intros Hloop.
  apply (batch_loop_inv _ _ _ _ _ _ _ _ []) in Hloop
    as (Hwords & Hrows & Hresults & Hfailed);
    [|apply sample_listed|by split_and!; [|constructor|..]].
  simpl in Hwords. split_and!; [done..|].
  rewrite Hresults, Hfailed, length_fmap, solved_failed_length.
  by rewrite <- Hwords, length_fmap.
Qed.

Lemma main_batch_rows_witness :
  ∃ b, main_batch elements [wd "crane"; wd "stale"] = Some b ∧
    sum_word <$> summary_data b = take 100 [wd "crane"; wd "stale"] ∧
    length (results b) + length (failed_words b) = 2.
Proof.
  eexists. split; [by vm_compute|].
  split; by apply (main_batch_rows elements [wd "crane"; wd "stale"]).
Defined.
